(** * Grammar & Spell Checker: the correction engine of
      [chrome-extension/lib/grammar-checker.js], embedded in Rocq.

    The embedding follows the JavaScript class [GrammarChecker]:
    - text is a [string] of code units; the case mappings and the character
      classes are those of JavaScript on 7-bit text (code units above 127 are
      neither letters nor word characters here, and only U+00A0 among them is
      white space);
    - the regular expressions of the source are values of a small syntax
      [regex], run by a backtracking matcher that follows the ECMAScript
      matcher (continuations, greedy [+], captures, [\b], the [i] flag);
    - [String.prototype.split], [matchAll] and [replace] are written out over
      that matcher;
    - a method call that would raise a [TypeError] returns [Throw]. *)

From Stdlib Require Import List String Ascii Bool Arith PArith Lia.
Import ListNotations.
Local Open Scope string_scope.
Local Open Scope nat_scope.

(* ================================================================= *)
(** ** Code units and strings *)

Definition code (c : ascii) : nat := nat_of_ascii c.

Definition inRange (lo hi : nat) (c : ascii) : bool :=
  (lo <=? code c) && (code c <=? hi).

Definition isLowerLetter (c : ascii) : bool := inRange 97 122 c.
Definition isUpperLetter (c : ascii) : bool := inRange 65 90 c.
Definition isDigit (c : ascii) : bool := inRange 48 57 c.
Definition isLetter (c : ascii) : bool := isLowerLetter c || isUpperLetter c.

(** [\w] without the [u] flag: [A-Za-z0-9_]. *)
Definition isWordChar (c : ascii) : bool :=
  isLowerLetter c || isUpperLetter c || isDigit c || (c =? "_")%char.

(** [\s] and the characters removed by [trim]: TAB, LF, VT, FF, CR, SP, NBSP. *)
Definition isWhiteSpace (c : ascii) : bool :=
  inRange 9 13 c || (code c =? 32) || (code c =? 160).

(** [toUpperCase] and [toLowerCase] on one code unit of 7-bit text.  On the
    code units 128 to 255 JavaScript also maps the letters of Latin-1, some
    of them to code units above 255 or to two code units; the embedding
    leaves those code units as they are, so what is proved of the case of
    arbitrary text is stated for 7-bit text.  The spelling pass only
    changes the case of words that hit the dictionary, whose keys are
    7-bit. *)
Definition toUpperChar (c : ascii) : ascii :=
  if isLowerLetter c then ascii_of_nat (code c - 32) else c.

Definition toLowerChar (c : ascii) : ascii :=
  if isUpperLetter c then ascii_of_nat (code c + 32) else c.

Fixpoint mapString (f : ascii -> ascii) (s : string) : string :=
  match s with
  | EmptyString => EmptyString
  | String c t => String (f c) (mapString f t)
  end.

Definition toUpperCase (s : string) : string := mapString toUpperChar s.
Definition toLowerCase (s : string) : string := mapString toLowerChar s.

Fixpoint allChars (p : ascii -> bool) (s : string) : bool :=
  match s with
  | EmptyString => true
  | String c t => p c && allChars p t
  end.

(** [s.charAt(0)]: the first code unit as a string, or the empty string. *)
Definition charAt0 (s : string) : string :=
  match s with
  | EmptyString => EmptyString
  | String c _ => String c EmptyString
  end.

(** [s.slice(1)]. *)
Definition slice1 (s : string) : string :=
  match s with
  | EmptyString => EmptyString
  | String _ t => t
  end.

(** [s[0]]: [None] stands for [undefined]. *)
Definition index0 (s : string) : option string :=
  match s with
  | EmptyString => None
  | String c _ => Some (String c EmptyString)
  end.

Fixpoint trimStart (s : string) : string :=
  match s with
  | EmptyString => EmptyString
  | String c t => if isWhiteSpace c then trimStart t else s
  end.

Fixpoint trimEnd (s : string) : string :=
  match s with
  | EmptyString => EmptyString
  | String c t =>
      let t' := trimEnd t in
      if isWhiteSpace c && (t' =? EmptyString)%string then EmptyString
      else String c t'
  end.

Definition trim (s : string) : string := trimEnd (trimStart s).

(** [words.join('')]. *)
Definition join (l : list string) : string := String.concat EmptyString l.

(** The last code unit of [m], or [prev] when [m] is empty. *)
Fixpoint lastOr (prev : option ascii) (m : string) : option ascii :=
  match m with
  | EmptyString => prev
  | String c t => lastOr (Some c) t
  end.

(** The double quote, which the source writes inside its templates. *)
Definition dq : string := String (ascii_of_nat 34) EmptyString.

(* ================================================================= *)
(** ** Regular expressions *)

Inductive regex : Type :=
| Empty
| Chr (c : ascii)
| Cls (negated : bool) (cs : list ascii)
| WhiteSpaceEsc
| WordBoundary
| Cat (r1 r2 : regex)
| Alt (r1 r2 : regex)
| Plus (r : regex)
| Group (n : nat) (r : regex).

(** A literal word such as [are], one [Chr] per character. *)
Fixpoint lit (s : string) : regex :=
  match s with
  | EmptyString => Empty
  | String c EmptyString => Chr c
  | String c t => Cat (Chr c) (lit t)
  end.

(** A regular expression object: its pattern and its [i] flag.  Every
    pattern handed to [matchAll] and [replace] in the source carries [g]. *)
Record RegExp : Type := mkRegExp {
  source : regex;
  ignoreCase : bool
}.

Definition Captures : Type := list (nat * string).

Fixpoint getCapture (n : nat) (caps : Captures) : option string :=
  match caps with
  | [] => None
  | (k, v) :: tl => if k =? n then Some v else getCapture n tl
  end.

Fixpoint groupCount (r : regex) : nat :=
  match r with
  | Cat r1 r2 | Alt r1 r2 => groupCount r1 + groupCount r2
  | Plus r' => groupCount r'
  | Group _ r' => S (groupCount r')
  | _ => 0
  end.

Definition isWordBefore (prev : option ascii) : bool :=
  match prev with
  | Some c => isWordChar c
  | None => false
  end.

Definition isWordAfter (rest : string) : bool :=
  match rest with
  | String c _ => isWordChar c
  | EmptyString => false
  end.

Section Matcher.
Variable ic : bool.
Variable R : Type.

(** A continuation receives the text just consumed, the code unit before
    the new position, the remaining input and the captures. *)
Definition Continuation : Type :=
  string -> option ascii -> string -> Captures -> option R.

Definition canonicalize (c : ascii) : ascii :=
  if ic then toUpperChar c else c.

Definition oneChar (p : ascii -> bool) (rest : string) (caps : Captures)
    (k : Continuation) : option R :=
  match rest with
  | String ch tl =>
      if p ch then k (String ch EmptyString) (Some ch) tl caps else None
  | EmptyString => None
  end.

Definition classMatches (negated : bool) (cs : list ascii) (ch : ascii) : bool :=
  xorb negated (existsb (fun c => (canonicalize c =? canonicalize ch)%char) cs).

(** The repetition after the first iteration of a greedy [+]: run [m]
    once more if that consumes something and leads to success, else
    continue with [k].  [acc] is the text consumed by the iterations so
    far; each unit of fuel pays for one iteration. *)
Fixpoint starLoop
    (m : option ascii -> string -> Captures -> Continuation -> option R)
    (k : Continuation) (fuel : nat) (acc : string) (p : option ascii)
    (s : string) (c : Captures) {struct fuel} : option R :=
  match fuel with
  | O => None
  | S f =>
      match m p s c (fun m1 p' s' c' =>
              if (m1 =? EmptyString)%string then None
              else starLoop m k f (acc ++ m1) p' s' c') with
      | Some z => Some z
      | None => k acc p s c
      end
  end.

(** The ECMAScript matcher: [rmatch r prev rest caps k] runs [r] at the
    position whose previous code unit is [prev] and whose remaining input
    is [rest], and calls [k] on each way of matching, in priority order,
    until one succeeds. *)
Fixpoint rmatch (r : regex) (prev : option ascii) (rest : string)
    (caps : Captures) (k : Continuation) {struct r} : option R :=
  match r with
  | Empty => k EmptyString prev rest caps
  | Chr c =>
      oneChar (fun ch => (canonicalize ch =? canonicalize c)%char) rest caps k
  | Cls negated cs => oneChar (classMatches negated cs) rest caps k
  | WhiteSpaceEsc => oneChar isWhiteSpace rest caps k
  | WordBoundary =>
      if xorb (isWordBefore prev) (isWordAfter rest)
      then k EmptyString prev rest caps
      else None
  | Cat r1 r2 =>
      rmatch r1 prev rest caps (fun m1 p1 s1 c1 =>
        rmatch r2 p1 s1 c1 (fun m2 p2 s2 c2 => k (m1 ++ m2) p2 s2 c2))
  | Alt r1 r2 =>
      match rmatch r1 prev rest caps k with
      | Some z => Some z
      | None => rmatch r2 prev rest caps k
      end
  | Plus r' =>
      rmatch r' prev rest caps (fun m p s c =>
        starLoop (rmatch r') k (S (String.length s)) m p s c)
  | Group n r' =>
      rmatch r' prev rest caps (fun m p s c => k m p s ((n, m) :: c))
  end.
End Matcher.

(** One attempt at one position: the matched text, the input left after it
    and the captures. *)
Definition matchAt (re : RegExp) (prev : option ascii) (rest : string)
    : option (string * string * Captures) :=
  rmatch (ignoreCase re) _ (source re) prev rest []
    (fun m _ s c => Some (m, s, c)).

(** A scan of the input by a global pattern: the code units no match covers,
    and the matches, in order. *)
Inductive ScanItem : Type :=
| Skipped (c : ascii)
| Matched (m : string) (caps : Captures).

Fixpoint scanFrom (fuel : nat) (re : RegExp) (prev : option ascii)
    (rest : string) : list ScanItem :=
  match fuel with
  | O => []
  | S f =>
      let advance :=
        match rest with
        | EmptyString => []
        | String c tl => Skipped c :: scanFrom f re (Some c) tl
        end in
      match matchAt re prev rest with
      | Some (m, rest', caps) =>
          Matched m caps ::
            (if (m =? EmptyString)%string then advance
             else scanFrom f re (lastOr prev m) rest')
      | None => advance
      end
  end.

Definition scan (re : RegExp) (s : string) : list ScanItem :=
  scanFrom (S (String.length s)) re None s.

(** [[...s.matchAll(re)]]: element 0 of each match and its captures. *)
Fixpoint matchesOf (items : list ScanItem) : list (string * Captures) :=
  match items with
  | [] => []
  | Skipped _ :: tl => matchesOf tl
  | Matched m caps :: tl => (m, caps) :: matchesOf tl
  end.

Definition matchAll (s : string) (re : RegExp) : list (string * Captures) :=
  matchesOf (scan re s).

Definition digitValue (c : ascii) : nat := code c - 48.

(** GetSubstitution for the forms [$$], [$&] and [$n] with one digit; the
    templates of the source use [$1] only. *)
Fixpoint getSubstitution (matched : string) (caps : Captures) (m : nat)
    (template : string) : string :=
  match template with
  | EmptyString => EmptyString
  | String c t =>
      if (c =? "$")%char then
        match t with
        | String d t' =>
            if (d =? "$")%char then
              String "$" (getSubstitution matched caps m t')
            else if (d =? "&")%char then
              matched ++ getSubstitution matched caps m t'
            else if isDigit d && (1 <=? digitValue d) && (digitValue d <=? m) then
              match getCapture (digitValue d) caps with
              | Some v => v
              | None => EmptyString
              end ++ getSubstitution matched caps m t'
            else String c (getSubstitution matched caps m t)
        | EmptyString => String c EmptyString
        end
      else String c (getSubstitution matched caps m t)
  end.

Fixpoint substitute (re : RegExp) (template : string) (items : list ScanItem)
    : string :=
  match items with
  | [] => EmptyString
  | Skipped c :: tl => String c (substitute re template tl)
  | Matched m caps :: tl =>
      getSubstitution m caps (groupCount (source re)) template
        ++ substitute re template tl
  end.

(** [s.replace(re, template)] for a global [re]. *)
Definition replace (s : string) (re : RegExp) (template : string) : string :=
  substitute re template (scan re s).

(** The captures a separator match contributes to the result of [split]. *)
Fixpoint captureList (n k : nat) (caps : Captures) : list string :=
  match n with
  | O => []
  | S n' =>
      match getCapture k caps with
      | Some v => v
      | None => EmptyString
      end :: captureList n' (S k) caps
  end.

(** The loop of [RegExp.prototype[Symbol.split]]: [cur] is the text between
    the last split point [p] and the current position [q], [rest] the input
    from [q] on. *)
Fixpoint splitLoop (fuel : nat) (re : RegExp) (cur : string)
    (prev : option ascii) (rest : string) : list string :=
  match fuel with
  | O => [cur ++ rest]
  | S f =>
      match rest with
      | EmptyString => [cur]
      | String c tl =>
          match matchAt re prev rest with
          | Some (m, rest', caps) =>
              if (m =? EmptyString)%string && (cur =? EmptyString)%string then
                splitLoop f re (cur ++ String c EmptyString) (Some c) tl
              else
                (cur :: captureList (groupCount (source re)) 1 caps
                    ++ splitLoop f re EmptyString (lastOr prev m) rest')%list
          | None => splitLoop f re (cur ++ String c EmptyString) (Some c) tl
          end
      end
  end.

(** [s.split(re)]. *)
Definition split (s : string) (re : RegExp) : list string :=
  match s with
  | EmptyString =>
      match matchAt re None EmptyString with
      | Some _ => []
      | None => [EmptyString]
      end
  | _ => splitLoop (2 * String.length s + 1) re EmptyString None s
  end.

(* ================================================================= *)
(** ** JavaScript values and completions *)

(** A Number: NaN, a signed zero, a signed infinity, or a finite non-zero
    value given by its sign, mantissa and exponent. *)
Inductive JsNumber : Type :=
| NaN
| Zero (negative : bool)
| Infinity (negative : bool)
| Finite (negative : bool) (mantissa : positive) (exponent : nat).

(** The values [correct] can be handed.  [JsObject] stands for any object or
    function, named by a label. *)
Inductive JsValue : Type :=
| JsUndefined
| JsNull
| JsBoolean (b : bool)
| JsNum (n : JsNumber)
| JsString (s : string)
| JsObject (label : string).

(** ToBoolean. *)
Definition toBoolean (v : JsValue) : bool :=
  match v with
  | JsUndefined | JsNull => false
  | JsBoolean b => b
  | JsNum NaN | JsNum (Zero _) => false
  | JsNum _ => true
  | JsString s => negb (s =? EmptyString)%string
  | JsObject _ => true
  end.

(** [typeof v === 'string']. *)
Definition typeofIsString (v : JsValue) : bool :=
  match v with
  | JsString _ => true
  | _ => false
  end.

(** [v || '']. *)
Definition orEmpty (v : JsValue) : JsValue :=
  if toBoolean v then v else JsString EmptyString.

(** What a [throw] carries: a [TypeError] of the engine, or a plain
    [Error] with its message. *)
Inductive JsError : Type :=
| TypeError (what : string)
| Error (what : string).

(** The outcome of running a method: a value, or an exception thrown. *)
Inductive Completion (A : Type) : Type :=
| Ok (a : A)
| Throw (e : JsError).

Arguments Ok {A} a.
Arguments Throw {A} e.

Definition bind {A B : Type} (c : Completion A) (f : A -> Completion B)
    : Completion B :=
  match c with
  | Ok a => f a
  | Throw e => Throw e
  end.

Notation "x <- c ;; k" := (bind c (fun x => k))
  (at level 61, c at next level, right associativity).

(** [v.method()] for a method of [String.prototype]: any other value has no
    such method and the call throws. *)
Definition callStringMethod (v : JsValue) (method : string)
    (f : string -> string) : Completion string :=
  match v with
  | JsString s => Ok (f s)
  | _ => Throw (TypeError (method ++ " is not a function"))
  end.

(* ================================================================= *)
(** ** The data of [GrammarChecker] *)

Inductive ChangeType : Type :=
| spelling
| grammar.

Module Change.
Record t : Type := mk {
  type : ChangeType;
  original : string;
  corrected : string;
  message : string
}.
End Change.

Module Pass.
(** The object [{ text, changes }] returned by each pass. *)
Record t : Type := mk {
  text : string;
  changes : list Change.t
}.
End Pass.

Record CorrectionResult : Type := mkResult {
  original : JsValue;
  spellCorrected : JsValue;
  corrected : JsValue;
  changes : list Change.t
}.

Record CorrectionOptions : Type := mkOptions {
  spellCheck : bool;
  grammarCheck : bool
}.

(** The default value of the [options] parameter. *)
Definition defaultOptions : CorrectionOptions := mkOptions true true.

Record GrammarRule : Type := mkRule {
  pattern : RegExp;
  replacement : string;
  message : string
}.

(** [this.spellingCorrections]: the own properties of the object literal. *)
Definition spellingCorrections : list (string * string) :=
  [ ("teh", "the");
    ("recieve", "receive");
    ("seperate", "separate");
    ("definately", "definitely");
    ("occured", "occurred");
    ("untill", "until");
    ("sucessful", "successful");
    ("tommorow", "tomorrow");
    ("metting", "meeting");
    ("becuase", "because");
    ("wich", "which");
    ("thier", "their");
    ("wierd", "weird");
    ("beleive", "believe");
    ("calender", "calendar");
    ("arguement", "argument");
    ("existance", "existence");
    ("goverment", "government");
    ("occassion", "occasion");
    ("realy", "really");
    ("reccomend", "recommend");
    ("writting", "writing");
    ("youre", "you're");
    ("ur", "your");
    ("dreamm", "dream");
    ("lett", "let") ].

(** The properties an object literal inherits from [Object.prototype]; all
    of them are objects (functions, or the prototype itself). *)
Definition objectPrototypeProperties : list string :=
  [ "constructor"; "__defineGetter__"; "__defineSetter__"; "hasOwnProperty";
    "__lookupGetter__"; "__lookupSetter__"; "isPrototypeOf";
    "propertyIsEnumerable"; "toString"; "valueOf"; "__proto__";
    "toLocaleString" ].

Fixpoint ownProperty (obj : list (string * string)) (key : string)
    : option string :=
  match obj with
  | [] => None
  | (k, v) :: tl => if (k =? key)%string then Some v else ownProperty tl key
  end.

(** [obj[key]] on an object literal: an own property, else a property of
    [Object.prototype], else [undefined]. *)
Definition getProperty (obj : list (string * string)) (key : string)
    : JsValue :=
  match ownProperty obj key with
  | Some v => JsString v
  | None =>
      if existsb (fun p => (p =? key)%string) objectPrototypeProperties
      then JsObject ("Object.prototype." ++ key)
      else JsUndefined
  end.

Definition seq (rs : list regex) : regex :=
  fold_right Cat Empty rs.

Definition alternatives (ws : list string) : regex :=
  match ws with
  | [] => Empty
  | w :: tl => fold_right (fun x r => Alt r (lit x)) (lit w) (rev tl)
  end.

Definition vowels : list ascii := ["a"; "e"; "i"; "o"; "u"]%char.

(** [this.grammarRules], in the order of the source; all patterns are [/gi]. *)
Definition grammarRules : list GrammarRule :=
  [ mkRule
      (mkRegExp (Cat WordBoundary (Cat (Group 1 (Alt (lit "I") (Alt (lit "he") (Alt (lit "she") (lit "it")))))
                   (Cat (Plus WhiteSpaceEsc) (Cat (lit "are") WordBoundary)))) true)
      "$1 am/is"
      "Subject-verb agreement error";
    mkRule
      (mkRegExp (Cat WordBoundary (Cat (Group 1 (Alt (lit "I") (Alt (lit "you") (Alt (lit "we") (lit "they")))))
                   (Cat (Plus WhiteSpaceEsc) (Cat (lit "is") WordBoundary)))) true)
      "$1 are"
      "Subject-verb agreement error";
    mkRule
      (mkRegExp (Cat WordBoundary (Cat (lit "I")
                   (Cat (Plus WhiteSpaceEsc) (Cat (lit "has") WordBoundary)))) true)
      "I have"
      "Incorrect verb form";
    mkRule
      (mkRegExp (Cat WordBoundary (Cat (Group 1 (Alt (lit "he") (Alt (lit "she") (lit "it"))))
                   (Cat (Plus WhiteSpaceEsc) (Cat (lit "have") WordBoundary)))) true)
      "$1 has"
      "Subject-verb agreement error";
    mkRule
      (mkRegExp (Cat WordBoundary (Cat (lit "a")
                   (Cat (Plus WhiteSpaceEsc) (Group 1 (Cls false vowels))))) true)
      "an $1"
      ("Article usage: use " ++ dq ++ "an" ++ dq ++ " before vowel sounds");
    mkRule
      (mkRegExp (Cat WordBoundary (Cat (lit "an")
                   (Cat (Plus WhiteSpaceEsc) (Group 1 (Cls true vowels))))) true)
      "a $1"
      ("Article usage: use " ++ dq ++ "a" ++ dq ++ " before consonant sounds") ].

(** [/\b/], the pattern of [text.split] in [spellCorrect]. *)
Definition wordBoundaryRe : RegExp := mkRegExp WordBoundary false.

(** [/(\s+)/], the pattern of [split] in [generateDiff]. *)
Definition whiteSpaceRe : RegExp := mkRegExp (Group 1 (Plus WhiteSpaceEsc)) false.

Fixpoint utf8 (bytes : list nat) : string :=
  match bytes with
  | [] => EmptyString
  | b :: tl => String (ascii_of_nat b) (utf8 tl)
  end.

(** U+2192 (rightwards arrow) and U+2713 (check mark), as UTF-8. *)
Definition arrow : string := utf8 [226; 134; 146].
Definition checkMark : string := utf8 [226; 156; 147].

(* ================================================================= *)
(** ** The methods of [GrammarChecker] *)

(** [preserveCase(original, correction)], with the case mappings above: it
    is the method of the source on 7-bit text. *)
Definition preserveCase (original : string) (correction : JsValue)
    : Completion string :=
  if (original =? toUpperCase original)%string then
    callStringMethod correction "correction.toUpperCase" toUpperCase
  else
    match index0 original with
    | None => Throw (TypeError "Cannot read properties of undefined")
    | Some first =>
        if (first =? toUpperCase first)%string then
          c0 <- callStringMethod correction "correction.charAt" charAt0 ;;
          rest <- callStringMethod correction "correction.slice" slice1 ;;
          Ok (toUpperCase c0 ++ rest)
        else
          callStringMethod correction "correction.toLowerCase" toLowerCase
    end.

Definition spellingMessage (word correctedWord : string) : string :=
  "Spelling: " ++ dq ++ word ++ dq ++ " " ++ arrow ++ " "
    ++ dq ++ correctedWord ++ dq.

(** The callback of [words.map] in [spellCorrect]: the replacement of one
    token and the changes it pushes. *)
Definition correctWord (word : string) : Completion (string * list Change.t) :=
  let lower := toLowerCase word in
  if toBoolean (getProperty spellingCorrections lower) then
    let correction := getProperty spellingCorrections lower in
    correctedWord <- preserveCase word correction ;;
    Ok (correctedWord,
        if negb (word =? correctedWord)%string
        then [Change.mk spelling word correctedWord
                (spellingMessage word correctedWord)]
        else [])
  else Ok (word, []).

Fixpoint mapWords (words : list string)
    : Completion (list string * list Change.t) :=
  match words with
  | [] => Ok ([], [])
  | word :: tl =>
      r <- correctWord word ;;
      rs <- mapWords tl ;;
      Ok (fst r :: fst rs, (snd r ++ snd rs)%list)
  end.

(** [spellCorrect(text)]. *)
Definition spellCorrect (text : string) : Completion Pass.t :=
  let words := split text wordBoundaryRe in
  r <- mapWords words ;;
  Ok (Pass.mk (join (fst r)) (snd r)).

(** The changes one rule pushes: one for each non-empty match. *)
Fixpoint ruleChanges (rule : GrammarRule) (matches : list (string * Captures))
    : list Change.t :=
  match matches with
  | [] => []
  | (m0, _) :: tl =>
      if negb (m0 =? EmptyString)%string then
        Change.mk grammar m0 (replace m0 (pattern rule) (replacement rule))
          (message rule) :: ruleChanges rule tl
      else ruleChanges rule tl
  end.

(** The body of [this.grammarRules.forEach]. *)
Definition applyRule (acc : Pass.t) (rule : GrammarRule) : Pass.t :=
  let matches := matchAll (Pass.text acc) (pattern rule) in
  Pass.mk (replace (Pass.text acc) (pattern rule) (replacement rule))
          (Pass.changes acc ++ ruleChanges rule matches)%list.

(** [grammarCorrect(text)]. *)
Definition grammarCorrect (text : string) : Pass.t :=
  fold_left applyRule grammarRules (Pass.mk text []).

(** [correct(text, options)]. *)
Definition correct (text : JsValue) (options : CorrectionOptions)
    : Completion CorrectionResult :=
  let guarded := mkResult (orEmpty text) (orEmpty text) (orEmpty text) [] in
  if negb (toBoolean text) || negb (typeofIsString text) then Ok guarded
  else
    match text with
    | JsString s =>
        let original := trim s in
        spell <-
          (if spellCheck options then spellCorrect original
           else Ok (Pass.mk original [])) ;;
        let spellCorrected := Pass.text spell in
        let gram :=
          if grammarCheck options then grammarCorrect spellCorrected
          else Pass.mk original [] in
        Ok (mkResult (JsString original) (JsString spellCorrected)
              (JsString (Pass.text gram))
              (Pass.changes spell ++ Pass.changes gram)%list)
    | _ => Ok guarded
    end.

(** [escapeHtml(text)]: the serialisation of a text node. *)
Fixpoint escapeHtml (text : string) : string :=
  match text with
  | EmptyString => EmptyString
  | String c t =>
      (if (c =? "&")%char then "&amp;"
       else if (c =? "<")%char then "&lt;"
       else if (c =? ">")%char then "&gt;"
       else if code c =? 160 then "&nbsp;"
       else String c EmptyString) ++ escapeHtml t
  end.

Definition spanAdded (t : string) : string :=
  "<span class=" ++ dq ++ "diff-added" ++ dq ++ ">" ++ escapeHtml t ++ "</span>".

Definition spanRemoved (t : string) : string :=
  "<span class=" ++ dq ++ "diff-removed" ++ dq ++ ">" ++ escapeHtml t ++ "</span>".

Definition noChangesHtml : string :=
  "<span style=" ++ dq ++ "color: #28a745; font-weight: 600;" ++ dq ++ ">"
    ++ checkMark ++ " No changes needed - text is already correct!</span>".

(** [a[i]] for an index known to be in range. *)
Definition item (a : list string) (i : nat) : string := nth i a EmptyString.

(** The [while] loop of [generateDiff], one iteration per unit of fuel. *)
Fixpoint diffLoop (fuel : nat) (originalWords correctedWords : list string)
    (i j : nat) (diffHtml : string) : string :=
  match fuel with
  | O => diffHtml
  | S f =>
      if (i <? List.length originalWords) || (j <? List.length correctedWords) then
        if List.length originalWords <=? i then
          diffLoop f originalWords correctedWords i (S j)
            (diffHtml ++ spanAdded (item correctedWords j))
        else if List.length correctedWords <=? j then
          diffLoop f originalWords correctedWords (S i) j
            (diffHtml ++ spanRemoved (item originalWords i))
        else if (item originalWords i =? item correctedWords j)%string then
          diffLoop f originalWords correctedWords (S i) (S j)
            (diffHtml ++ escapeHtml (item originalWords i))
        else
          diffLoop f originalWords correctedWords (S i) (S j)
            (diffHtml ++ spanRemoved (item originalWords i)
                      ++ spanAdded (item correctedWords j))
      else diffHtml
  end.

(** [generateDiff(original, corrected)]. *)
Definition generateDiff (original corrected : string) : string :=
  if (original =? corrected)%string then noChangesHtml
  else
    let originalWords := split original whiteSpaceRe in
    let correctedWords := split corrected whiteSpaceRe in
    diffLoop (List.length originalWords + List.length correctedWords)
      originalWords correctedWords 0 0 EmptyString.


(* ================================================================= *)
(** ** The callers: the content script and the popup *)

(** [a === b]. *)
Definition strictEquals (a b : JsValue) : bool :=
  match a, b with
  | JsUndefined, JsUndefined => true
  | JsNull, JsNull => true
  | JsBoolean x, JsBoolean y => Bool.eqb x y
  | JsNum x, JsNum y =>
      match x, y with
      | NaN, _ | _, NaN => false
      | Zero _, Zero _ => true
      | Infinity s1, Infinity s2 => Bool.eqb s1 s2
      | Finite s1 m1 e1, Finite s2 m2 e2 =>
          Bool.eqb s1 s2 && Pos.eqb m1 m2 && (e1 =? e2)
      | _, _ => false
      end
  | JsString x, JsString y => (x =? y)%string
  | JsObject x, JsObject y => (x =? y)%string
  | _, _ => false
  end.

(** [generateDiff] as its callers use it, on the fields of a result: the
    comparison comes first, and [split] exists on strings only. *)
Definition generateDiffOf (original corrected : JsValue) : Completion string :=
  if strictEquals original corrected then Ok noChangesHtml
  else
    match original, corrected with
    | JsString o, JsString c => Ok (generateDiff o c)
    | JsString _, _ => Throw (TypeError "corrected.split is not a function")
    | _, _ => Throw (TypeError "original.split is not a function")
    end.

Module Element.
(** What the content script reads of a DOM element. *)
Record t : Type := mk {
  tagName : string;
  type : string;
  contentEditable : string;
  value : string;
  innerText : string;
  textContent : string
}.
End Element.

Module Settings.
(** The [settings] object of the content script and of the popup. *)
Record t : Type := mk {
  spellCheck : bool;
  grammarCheck : bool;
  autoCheck : bool
}.
End Settings.

(** [isTextInput(element)]; [None] stands for a missing element. *)
Definition isTextInput (element : option Element.t) : bool :=
  match element with
  | None => false
  | Some e =>
      let tagName := toLowerCase (Element.tagName e) in
      if (tagName =? "textarea")%string then true
      else if (tagName =? "input")%string && (Element.type e =? "text")%string
      then true
      else if (Element.contentEditable e =? "true")%string then true
      else false
  end.

(** [getInputText(element)]. *)
Definition getInputText (element : Element.t) : string :=
  if (toLowerCase (Element.tagName element) =? "textarea")%string
     || (toLowerCase (Element.tagName element) =? "input")%string
  then Element.value element
  else if (Element.contentEditable element =? "true")%string then
    if toBoolean (JsString (Element.innerText element))
    then Element.innerText element
    else Element.textContent element
  else EmptyString.

(** The character budget of both callers. *)
Definition MAX_CHARS : nat := 2000.

(** What a check shows the user. *)
Inductive Shown : Type :=
| Alert (message : string)
| CorrectionPanel (original corrected : JsValue) (diffHtml : string)
    (correctedText : JsValue).

(** [showCorrectionPanel(result, input)]: the texts it writes, the diff it
    generates and the text it stores for [applyCorrectionPanel]. *)
Definition showCorrectionPanel (result : CorrectionResult) : Completion Shown :=
  diffHtml <- generateDiffOf (original result) (corrected result) ;;
  Ok (CorrectionPanel (original result) (corrected result) diffHtml
        (corrected result)).

(** The options object both callers build from their settings. *)
Definition optionsOf (settings : Settings.t) : CorrectionOptions :=
  mkOptions (Settings.spellCheck settings) (Settings.grammarCheck settings).

(** [checkText(input)] of the content script. *)
Definition checkText (input : Element.t) (settings : Settings.t)
    : Completion Shown :=
  let text := getInputText input in
  if negb (toBoolean (JsString text)) || (String.length (trim text) =? 0) then
    Ok (Alert "Please enter some text to check.")
  else if MAX_CHARS <? String.length text then
    Ok (Alert "Text is too long. Maximum 2000 characters allowed.")
  else
    result <- correct (JsString text) (optionsOf settings) ;;
    showCorrectionPanel result.

(** The inline error indicator: hidden, or shown with a count and a label. *)
Inductive Indicator : Type :=
| IndicatorHidden
| IndicatorShown (errorCount : nat) (errorText : string).

(** [showErrorIndicator(input, errorCount)]. *)
Definition showErrorIndicator (errorCount : nat) : Indicator :=
  IndicatorShown errorCount
    (if errorCount =? 1 then "error found" else "errors found").

(** [autoCheckText(input)]. *)
Definition autoCheckText (input : Element.t) (settings : Settings.t)
    : Completion Indicator :=
  let text := getInputText input in
  result <- correct (JsString text) (optionsOf settings) ;;
  if negb (strictEquals (original result) (corrected result))
  then Ok (showErrorIndicator (List.length (changes result)))
  else Ok IndicatorHidden.

(** [handleInput(e)], once its debounce timer fires: [None] when the
    handler or the timer callback does nothing. *)
Definition handleInput (element : Element.t) (settings : Settings.t)
    : Completion (option Indicator) :=
  if negb (isTextInput (Some element)) || negb (Settings.autoCheck settings)
  then Ok None
  else
    let text := getInputText element in
    if toBoolean (JsString text) && (0 <? String.length (trim text))
       && (String.length text <=? MAX_CHARS)
    then i <- autoCheckText element settings ;; Ok (Some i)
    else Ok None.

(** What the popup shows after a click on its button; [diffHtml] is [None]
    when the diff view is left as it was. *)
Inductive PopupShown : Type :=
| PopupAlert (message : string)
| PopupResults (originalText correctedText : JsValue)
    (diffHtml : option string).

(** [displayResults(result)] of the popup; [grammarChecker] tells whether
    [window.grammarChecker] is set. *)
Definition displayResults (grammarChecker : bool) (result : CorrectionResult)
    : Completion PopupShown :=
  if grammarChecker then
    diffHtml <- generateDiffOf (original result) (corrected result) ;;
    Ok (PopupResults (original result) (corrected result) (Some diffHtml))
  else Ok (PopupResults (original result) (corrected result) None).

(** The click handler of the popup's button, once its timer fires: the
    value of the text area is trimmed and validated; without the library
    the handler throws; and whatever is thrown is caught and shown as an
    alert. *)
Definition correctBtnClick (grammarChecker : bool) (inputValue : string)
    (settings : Settings.t) : PopupShown :=
  let text := trim inputValue in
  if negb (toBoolean (JsString text)) then
    PopupAlert "Please enter some text to correct."
  else if MAX_CHARS <? String.length text then
    PopupAlert "Text is too long. Maximum 2000 characters allowed."
  else
    match (if negb grammarChecker
           then Throw (Error "Grammar checker not loaded")
           else
             result <- correct (JsString text) (optionsOf settings) ;;
             displayResults grammarChecker result) with
    | Ok shown => shown
    | Throw _ => PopupAlert "An error occurred. Please try again."
    end.

(** [applyCorrectionPanel()]: the call of [setInputText] it makes, if any,
    from the text the panel stores and the input found by the stored id. *)
Definition applyCorrectionPanel (correctedText : string)
    (input : option Element.t) : option (Element.t * string) :=
  match input with
  | Some element =>
      if toBoolean (JsString correctedText) then Some (element, correctedText)
      else None
  | None => None
  end.

(** The click handler of the popup's copy button: the text it writes to the
    clipboard, if any. *)
Definition copyBtnClick (lastCorrectedText : JsValue) : option JsValue :=
  if toBoolean lastCorrectedText then Some lastCorrectedText else None.
(* ================================================================= *)
(** ** Specification-side definitions *)

(** Text of 7-bit code units: the text on which [toUpperCase] and
    [toLowerCase] of the embedding are those of JavaScript. *)
Definition is7bit (s : string) : bool :=
  allChars (fun c => code c <? 128) s.

(** The small and the capital letters, in alphabetical order. *)
Definition smallLetters : string := "abcdefghijklmnopqrstuvwxyz".
Definition capitalLetters : string := "ABCDEFGHIJKLMNOPQRSTUVWXYZ".

(** [c] is one of [letters]. *)
Fixpoint occursIn (letters : string) (c : ascii) : bool :=
  match letters with
  | EmptyString => false
  | String l tl => (c =? l)%char || occursIn tl c
  end.

(** The letter of [target] at the place [c] has in [source]; [c] itself
    when it is not in [source]. *)
Fixpoint translate (source target : string) (c : ascii) : ascii :=
  match source, target with
  | String f source', String t target' =>
      if (c =? f)%char then t else translate source' target' c
  | _, _ => c
  end.


Definition lowerCased (s : string) : string :=
  mapString (translate capitalLetters smallLetters) s.








(** No code unit of [s] is a lower-case letter: the sense in which
    [s === s.toUpperCase()] calls a word entirely upper case. *)
Definition entirelyUpperCase (s : string) : bool :=
  allChars (fun c => negb (isLowerLetter c)) s.

(** The first code unit is not a lower-case letter. *)
Definition firstUpperCase (s : string) : bool :=
  match s with
  | String c _ => negb (isLowerLetter c)
  | EmptyString => false
  end.

(** The first code unit is a capital letter. *)
Definition startsWithCapital (s : string) : bool :=
  match s with
  | String c _ => isUpperLetter c
  | EmptyString => false
  end.

(** The correction with only its first code unit upper-cased. *)
Definition capitalize (s : string) : string :=
  match s with
  | String c t => String (toUpperChar c) t
  | EmptyString => EmptyString
  end.

(** The three kinds of segment of a word diff. *)
Inductive DiffSegment : Type :=
| Unchanged (t : string)
| Removed (t : string)
| Added (t : string).

(** The lock-step walk of section 4.5 of the specification, on two token
    sequences. *)
Fixpoint lockStep (o c : list string) : list DiffSegment :=
  match o, c with
  | [], _ => map Added c
  | _, [] => map Removed o
  | x :: o', y :: c' =>
      if (x =? y)%string then Unchanged x :: lockStep o' c'
      else Removed x :: Added y :: lockStep o' c'
  end.

(** The markup a text node serialises to for one code unit: [&], [<], [>]
    and the no-break space are written as character references. *)
Definition escapeChar (c : ascii) : string :=
  if (c =? "&")%char then "&amp;"
  else if (c =? "<")%char then "&lt;"
  else if (c =? ">")%char then "&gt;"
  else if code c =? 160 then "&nbsp;"
  else String c EmptyString.

(** The text of a token as it stands in the markup. *)
Fixpoint escaped (t : string) : string :=
  match t with
  | EmptyString => EmptyString
  | String c t' => escapeChar c ++ escaped t'
  end.

(** The markup of one segment, written out: an unchanged token stands as
    text, a removed and an added token each in a [span] of its own class.
    The markup of a sequence is the concatenation. *)
Definition renderSegment (d : DiffSegment) : string :=
  match d with
  | Unchanged t => escaped t
  | Removed t =>
      "<span class=" ++ dq ++ "diff-removed" ++ dq ++ ">" ++ escaped t
        ++ "</span>"
  | Added t =>
      "<span class=" ++ dq ++ "diff-added" ++ dq ++ ">" ++ escaped t
        ++ "</span>"
  end.

Definition renderSegments (ds : list DiffSegment) : string :=
  join (map renderSegment ds).

(** How the markup of a segment sequence can begin: it is empty, or it
    starts with a code unit other than [<], or it starts with the opening
    of a [class] span. *)
Definition beginsAsSegments (s : string) : Prop :=
  s = ""
  \/ (exists c t, s = String c t /\ c <> "<"%char)
  \/ (exists t, s = "<span c" ++ t).

(** A field that holds a value: neither [null] nor [undefined]. *)
Definition defined (v : JsValue) : Prop :=
  v <> JsUndefined /\ v <> JsNull.

(** The number 42. *)
Definition fortyTwo : JsValue := JsNum (Finite false 42%positive 0).

(** A token misses the dictionary when the lookup of its lower-case form
    is falsy. *)
Definition misses (w : string) : bool :=
  negb (toBoolean (getProperty spellingCorrections (toLowerCase w))).


(* ================================================================= *)
(** ** Runs of word and non-word characters *)

(** The maximal runs of word characters and of other characters of [s], in
    order: the tokens of the specification's tokenizer. *)
Fixpoint runs (s : string) : list string :=
  match s with
  | EmptyString => []
  | String c t =>
      match runs t with
      | [] => [String c EmptyString]
      | r :: rs =>
          if Bool.eqb (isWordChar c) (isWordAfter r)
          then String c r :: rs
          else String c EmptyString :: r :: rs
      end
  end.

(** All code units of [s] are word characters ([b] true) or none is. *)
Definition homogeneous (b : bool) (s : string) : bool :=
  allChars (fun ch => Bool.eqb (isWordChar ch) b) s.

(** Whether the last code unit of [s] is a word character. *)
Definition endsInWord (s : string) : bool := isWordBefore (lastOr None s).

(** Consecutive chunks of text meet at word boundaries: each chunk is
    non-empty and starts in the class opposite to the one [before] it. *)
Fixpoint chained (before : option bool) (chunks : list string) : Prop :=
  match chunks with
  | [] => True
  | x :: tl =>
      x <> EmptyString
      /\ match before with
         | Some b => isWordAfter x = negb b
         | None => True
         end
      /\ chained (Some (endsInWord x)) tl
  end.

(** The three casings [preserveCase] can give a correction. *)
Definition casings (v : string) : list string :=
  [toUpperCase v; capitalize v; toLowerCase v].

(** A replacement the spelling pass may write: it starts and ends with a
    word character, and none of its runs is found in the dictionary. *)
Definition settled (o : string) : bool :=
  negb (o =? "")%string && isWordAfter o && endsInWord o
  && forallb misses (runs o).

(** What the spelling pass does to one non-empty token: nothing when the
    token misses the dictionary; else the token is a word and its
    replacement is settled. *)
Definition tokenStep (w o : string) : Prop :=
  (o = w /\ misses w = true)
  \/ (isWordAfter w = true /\ endsInWord w = true /\ settled o = true).


(* ================================================================= *)
(** ** What a pattern matches *)

(** Zero or more further iterations of a repetition, each consuming
    something.  [M p m s c c'] reads: after the code unit [p], the text [m],
    followed by [s], is matched and turns the captures [c] into [c']. *)
Inductive StarOf
    (M : option ascii -> string -> string -> Captures -> Captures -> Prop)
    : option ascii -> string -> string -> Captures -> Captures -> Prop :=
| Star0 (p : option ascii) (s : string) (c : Captures) :
    StarOf M p EmptyString s c c
| StarS (p : option ascii) (m1 m2 s : string) (c c1 c2 : Captures) :
    m1 <> EmptyString ->
    M p m1 (m2 ++ s) c c1 ->
    StarOf M (lastOr p m1) m2 s c1 c2 ->
    StarOf M p (m1 ++ m2) s c c2.

(** The texts a pattern can match, whatever the order in which the matcher
    tries them: [Matches ic r prev m s c c'] holds when [r], under the
    ignore-case flag [ic], can match [m] at a position that follows [prev]
    and is followed by [s]. *)
Fixpoint Matches (ic : bool) (r : regex) (prev : option ascii)
    (m s : string) (c c' : Captures) : Prop :=
  match r with
  | Empty => m = EmptyString /\ c' = c
  | Chr ch =>
      exists x, m = String x EmptyString /\ c' = c
        /\ (canonicalize ic x =? canonicalize ic ch)%char = true
  | Cls negated cs =>
      exists x, m = String x EmptyString /\ c' = c
        /\ classMatches ic negated cs x = true
  | WhiteSpaceEsc =>
      exists x, m = String x EmptyString /\ c' = c /\ isWhiteSpace x = true
  | WordBoundary =>
      m = EmptyString /\ c' = c
      /\ xorb (isWordBefore prev) (isWordAfter s) = true
  | Cat r1 r2 =>
      exists m1 m2 c1, m = m1 ++ m2
        /\ Matches ic r1 prev m1 (m2 ++ s) c c1
        /\ Matches ic r2 (lastOr prev m1) m2 s c1 c'
  | Alt r1 r2 => Matches ic r1 prev m s c c' \/ Matches ic r2 prev m s c c'
  | Plus r' =>
      exists m1 m2 c1, m = m1 ++ m2
        /\ Matches ic r' prev m1 (m2 ++ s) c c1
        /\ StarOf (Matches ic r') (lastOr prev m1) m2 s c1 c'
  | Group n r' =>
      exists c1, Matches ic r' prev m s c c1 /\ c' = (n, m) :: c1
  end.

(** A matcher function finds only what the relation [M] allows: when it
    succeeds, it has called its continuation on a match of [M]. *)
Definition SoundFor (R : Type)
    (mr : option ascii -> string -> Captures -> Continuation R -> option R)
    (M : option ascii -> string -> string -> Captures -> Captures -> Prop)
    : Prop :=
  forall prev rest caps k z,
    mr prev rest caps k = Some z ->
    exists m s c', rest = m ++ s /\ M prev m s caps c'
                   /\ k m (lastOr prev m) s c' = Some z.

(** A matcher function misses nothing: when [M] allows a match on which the
    continuation succeeds, the matcher succeeds. *)
Definition CompleteFor (R : Type)
    (mr : option ascii -> string -> Captures -> Continuation R -> option R)
    (M : option ascii -> string -> string -> Captures -> Captures -> Prop)
    : Prop :=
  forall prev m s caps c' k z,
    M prev m s caps c' ->
    k m (lastOr prev m) s c' = Some z ->
    exists z', mr prev (m ++ s) caps k = Some z'.

(** A pattern whose every match ends by consuming a code unit, so that no
    match depends on what follows it. *)
Fixpoint endsWithChar (r : regex) : bool :=
  match r with
  | Chr _ | Cls _ _ | WhiteSpaceEsc => true
  | Cat _ r2 => endsWithChar r2
  | Alt r1 r2 => endsWithChar r1 && endsWithChar r2
  | Group _ r' => endsWithChar r'
  | _ => false
  end.

(** The number of white-space code units of a text. *)
Fixpoint countWhiteSpace (s : string) : nat :=
  match s with
  | EmptyString => 0
  | String c t => (if isWhiteSpace c then 1 else 0) + countWhiteSpace t
  end.

(** A change that changes something. *)
Definition effective (ch : Change.t) : Prop :=
  Change.corrected ch <> Change.original ch.

(** Equality up to the case of letters, as the [i] flag compares text. *)
Definition ciEq (a b : string) : Prop := toUpperCase a = toUpperCase b.

(** Two texts differ at a position that both have. *)
Fixpoint differAt (a b : string) : bool :=
  match a, b with
  | String x a', String y b' => negb (x =? y)%char || differAt a' b'
  | _, _ => false
  end.

(** The rule at position [i] of [grammarRules], counting from 0. *)
Definition ruleAt (i : nat) : GrammarRule :=
  nth i grammarRules (mkRule (mkRegExp Empty false) EmptyString EmptyString).

(** What holds of every match of a grammar rule: the match is not empty;
    it is a match again when taken alone; the text substituted for it
    departs from it; the match has white space; and the substituted text
    has one white-space code unit, for the sixth rule provided the captured
    text has none. *)
Definition RuleFacts (rule : GrammarRule) : Prop :=
  forall p m s c,
    Matches true (source (pattern rule)) p m s [] c ->
    m <> EmptyString
    /\ Matches true (source (pattern rule)) None m EmptyString [] c
    /\ (forall X Y,
          getSubstitution m c (groupCount (source (pattern rule)))
            (replacement rule) ++ X <> m ++ Y)
    /\ 1 <= countWhiteSpace m
    /\ ((rule = ruleAt 5 ->
         forall v, getCapture 1 c = Some v -> countWhiteSpace v = 0) ->
        countWhiteSpace
          (getSubstitution m c (groupCount (source (pattern rule)))
             (replacement rule)) = 1).


(** The text a scan went over: the skipped code units and the matches, in
    order. *)
Fixpoint scannedText (items : list ScanItem) : string :=
  match items with
  | [] => EmptyString
  | Skipped c :: tl => String c (scannedText tl)
  | Matched m _ :: tl => m ++ scannedText tl
  end.

(** The work left to the loop of [split]: two steps for each code unit
    ahead, and one more while a piece is being collected. *)
Definition splitMeasure (cur rest : string) : nat :=
  2 * String.length rest + (if (cur =? EmptyString)%string then 0 else 1).

(** The lower-case form of [w] names a property that the dictionary object
    inherits from [Object.prototype]. *)
Definition inheritsProperty (w : string) : bool :=
  existsb (fun p => (p =? toLowerCase w)%string) objectPrototypeProperties.

(* ================================================================= *)
(** ** Specification-side definitions for further properties *)

(** The texts of the segments that belong to the original: the unchanged
    and the removed ones. *)
Fixpoint originalSide (ds : list DiffSegment) : string :=
  match ds with
  | [] => EmptyString
  | Unchanged t :: tl => t ++ originalSide tl
  | Removed t :: tl => t ++ originalSide tl
  | Added _ :: tl => originalSide tl
  end.

(** The texts of the segments that belong to the corrected text: the
    unchanged and the added ones. *)
Fixpoint correctedSide (ds : list DiffSegment) : string :=
  match ds with
  | [] => EmptyString
  | Unchanged t :: tl => t ++ correctedSide tl
  | Added t :: tl => t ++ correctedSide tl
  | Removed _ :: tl => correctedSide tl
  end.

(** A scan that found no match. *)
Fixpoint noMatch (items : list ScanItem) : bool :=
  match items with
  | [] => true
  | Skipped _ :: tl => noMatch tl
  | Matched _ _ :: _ => false
  end.

(** The first code unit of [s] is white space. *)
Definition startsWithWhiteSpace (s : string) : bool :=
  match s with
  | String c _ => isWhiteSpace c
  | EmptyString => false
  end.

(** The last code unit of [s] is white space. *)
Definition endsWithWhiteSpace (s : string) : bool :=
  match lastOr None s with
  | Some c => isWhiteSpace c
  | None => false
  end.

(** What a spelling change says: the word it replaces is a key of the
    dictionary, up to case, and the replacement is the casing of the value
    that [preserveCase] returns. *)
Definition describesHit (ch : Change.t) : Prop :=
  Change.type ch = spelling
  /\ Change.corrected ch <> Change.original ch
  /\ Change.message ch
     = spellingMessage (Change.original ch) (Change.corrected ch)
  /\ exists v,
       ownProperty spellingCorrections (toLowerCase (Change.original ch))
         = Some v
       /\ preserveCase (Change.original ch) (JsString v)
          = Ok (Change.corrected ch).

(** A change of the grammar pass: it has type [grammar] and carries the
    message of one of the rules. *)
Definition fromRule (ch : Change.t) : Prop :=
  Change.type ch = grammar
  /\ exists rule, In rule grammarRules /\ Change.message ch = message rule.

(** Neither [<] nor [>]. *)
Definition notAngle (c : ascii) : bool :=
  negb (c =? "<")%char && negb (c =? ">")%char.

(** Where a reader of the markup stands: outside the spans, in a span of
    removed text, or in a span of added text. *)
Inductive DiffMode : Type :=
| Outside
| InRemoved
| InAdded.

(** The mode after a tag. *)
Definition modeAfter (mode : DiffMode) (tag : string) : DiffMode :=
  if (tag =? "span class=" ++ dq ++ "diff-removed" ++ dq)%string then InRemoved
  else if (tag =? "span class=" ++ dq ++ "diff-added" ++ dq)%string then InAdded
  else if (tag =? "/span")%string then Outside
  else mode.

(** Reading the markup of a diff from left to right: the text outside the
    spans and in the spans of removed text, and the text outside the spans
    and in the spans of added text.  [tag] holds the part of a tag read so
    far, between [<] and [>]. *)
Fixpoint readSides (mode : DiffMode) (tag : option string) (markup : string)
    : string * string :=
  match markup with
  | EmptyString => (EmptyString, EmptyString)
  | String c rest =>
      match tag with
      | Some name =>
          if (c =? ">")%char then readSides (modeAfter mode name) None rest
          else readSides mode (Some (name ++ String c EmptyString)) rest
      | None =>
          if (c =? "<")%char then readSides mode (Some EmptyString) rest
          else
            let (o, k) := readSides mode None rest in
            (match mode with InAdded => o | _ => String c o end,
             match mode with InRemoved => k | _ => String c k end)
      end
  end.

(** The two sides of a markup, read from its start. *)
Definition markupSides (markup : string) : string * string :=
  readSides Outside None markup.
(* ================================================================= *)
(** ** Code units: basic facts *)

Ltac each_char c :=
  destruct c as [[] [] [] [] [] [] [] []]; vm_compute; try reflexivity;
  try discriminate; auto.

Lemma eqb_toUpperChar (c : ascii) :
  (c =? toUpperChar c)%char = negb (isLowerLetter c).
Proof. each_char c. Qed.

Lemma letter_not_lower_is_upper (c : ascii) :
  isLetter c = true -> negb (isLowerLetter c) = isUpperLetter c.
Proof. each_char c. Qed.

Lemma append_nil_r (s : string) : s ++ "" = s.
Proof. induction s; simpl; congruence. Qed.

Lemma append_assoc (a b c : string) : (a ++ b) ++ c = a ++ (b ++ c).
Proof. induction a; simpl; congruence. Qed.

Lemma length_append (a b : string) :
  String.length (a ++ b) = String.length a + String.length b.
Proof. induction a; simpl; congruence. Qed.

Lemma append_inv_head (p a b : string) : p ++ a = p ++ b -> a = b.
Proof. induction p; simpl; intros H; [assumption | injection H; auto]. Qed.

Lemma eqb_empty_false (c : ascii) (s : string) :
  (String c s =? "")%string = false.
Proof. reflexivity. Qed.

(* ================================================================= *)
(** ** Case preservation *)

Lemma toUpperCase_fixed (s : string) :
  (s =? toUpperCase s)%string = entirelyUpperCase s.
Proof.
  induction s as [|c s IH]; [reflexivity|].
  unfold toUpperCase, entirelyUpperCase in *. simpl.
  rewrite eqb_toUpperChar, IH. reflexivity.
Qed.

Lemma entirelyUpperCase_letters (s : string) :
  allChars isLetter s = true ->
  entirelyUpperCase s = allChars isUpperLetter s.
Proof.
  unfold entirelyUpperCase.
  induction s as [|c s IH]; simpl; [reflexivity|].
  intros H. apply andb_true_iff in H as [Hc Hs].
  rewrite (letter_not_lower_is_upper c Hc), (IH Hs). reflexivity.
Qed.

Lemma firstUpperCase_letters (s : string) :
  allChars isLetter s = true ->
  firstUpperCase s = startsWithCapital s.
Proof.
  destruct s as [|c s]; simpl; [reflexivity|].
  intros H. apply andb_true_iff in H as [Hc _].
  apply letter_not_lower_is_upper, Hc.
Qed.

(* ================================================================= *)
(** ** The word diff *)

Lemma diffLoop_step (f : nat) (ow cw : list string) (i j : nat) (acc : string) :
  diffLoop (S f) ow cw i j acc =
    if (i <? List.length ow) || (j <? List.length cw) then
      if List.length ow <=? i then
        diffLoop f ow cw i (S j) (acc ++ spanAdded (item cw j))
      else if List.length cw <=? j then
        diffLoop f ow cw (S i) j (acc ++ spanRemoved (item ow i))
      else if (item ow i =? item cw j)%string then
        diffLoop f ow cw (S i) (S j) (acc ++ escapeHtml (item ow i))
      else
        diffLoop f ow cw (S i) (S j)
          (acc ++ spanRemoved (item ow i) ++ spanAdded (item cw j))
    else acc.
Proof. reflexivity. Qed.

Lemma join_cons (x : string) (l : list string) : join (x :: l) = x ++ join l.
Proof.
  unfold join. destruct l; simpl; [symmetry; apply append_nil_r | reflexivity].
Qed.

Lemma escapeHtml_escaped (t : string) : escapeHtml t = escaped t.
Proof.
  induction t as [|c t IH]; [reflexivity|].
  change (escapeChar c ++ escapeHtml t = escapeChar c ++ escaped t).
  rewrite IH. reflexivity.
Qed.

Lemma escapeHtml_segment (t : string) :
  escapeHtml t = renderSegment (Unchanged t).
Proof. apply escapeHtml_escaped. Qed.

Lemma spanRemoved_segment (t : string) :
  spanRemoved t = renderSegment (Removed t).
Proof. unfold spanRemoved, renderSegment. rewrite escapeHtml_escaped. reflexivity. Qed.

Lemma spanAdded_segment (t : string) :
  spanAdded t = renderSegment (Added t).
Proof. unfold spanAdded, renderSegment. rewrite escapeHtml_escaped. reflexivity. Qed.

Lemma renderSegments_cons (d : DiffSegment) (ds : list DiffSegment) :
  renderSegments (d :: ds) = renderSegment d ++ renderSegments ds.
Proof. unfold renderSegments. simpl map. apply join_cons. Qed.

Lemma lockStep_nil_r (o : list string) : lockStep o [] = map Removed o.
Proof. destruct o; reflexivity. Qed.

Lemma item_middle (pre : list string) (x : string) (l : list string) :
  item (pre ++ x :: l) (List.length pre) = x.
Proof. unfold item. apply nth_middle. Qed.

Lemma length_middle (pre : list string) (x : string) (l : list string) :
  List.length (pre ++ x :: l) = S (List.length pre + List.length l).
Proof. rewrite length_app. simpl. lia. Qed.

Lemma shift_middle (pre : list string) (x : string) (l : list string) :
  (pre ++ x :: l = (pre ++ [x]) ++ l)%list /\
  List.length (pre ++ [x]) = S (List.length pre).
Proof.
  split; [rewrite <- app_assoc; reflexivity | rewrite length_app; simpl; lia].
Qed.

(** The loop of [generateDiff], resumed at cursors [i] and [j] with enough
    fuel for the tokens still ahead, appends the markup of the lock-step
    walk of those tokens. *)
Lemma diffLoop_lockStep (fuel : nat) :
  forall (ow cw po pc : list string) (acc : string),
    List.length ow + List.length cw <= fuel ->
    diffLoop fuel (po ++ ow) (pc ++ cw) (List.length po) (List.length pc) acc
    = acc ++ renderSegments (lockStep ow cw).
Proof.
  induction fuel as [|f IH]; intros ow cw po pc acc Hf.
  - destruct ow, cw; simpl in Hf; try lia.
    simpl. symmetry. apply append_nil_r.
  - destruct ow as [|x ow].
    + destruct cw as [|y cw].
      * rewrite diffLoop_step. rewrite !app_nil_r, !Nat.ltb_irrefl. simpl.
        symmetry. apply append_nil_r.
      * rewrite diffLoop_step. rewrite app_nil_r, Nat.ltb_irrefl, Nat.leb_refl.
        rewrite length_middle.
        replace (List.length pc <? S (List.length pc + List.length cw))
          with true by (symmetry; apply Nat.ltb_lt; lia).
        simpl orb. cbv iota. rewrite item_middle.
        destruct (shift_middle pc y cw) as [E L]. rewrite E, <- L.
        rewrite <- (app_nil_r po) at 1.
        rewrite IH by (simpl in *; lia).
        simpl lockStep. rewrite renderSegments_cons, spanAdded_segment.
        apply append_assoc.
    + destruct cw as [|y cw].
      * rewrite diffLoop_step. rewrite app_nil_r, (Nat.ltb_irrefl (List.length pc)).
        rewrite length_middle.
        replace (List.length po <? S (List.length po + List.length ow))
          with true by (symmetry; apply Nat.ltb_lt; lia).
        simpl orb. cbv iota.
        replace (S (List.length po + List.length ow) <=? List.length po)
          with false by (symmetry; apply Nat.leb_gt; lia).
        rewrite Nat.leb_refl, item_middle.
        destruct (shift_middle po x ow) as [E L]. rewrite E, <- L.
        rewrite <- (app_nil_r pc) at 1.
        rewrite IH by (simpl in *; lia).
        rewrite !lockStep_nil_r. simpl map.
        rewrite renderSegments_cons, spanRemoved_segment.
        apply append_assoc.
      * rewrite diffLoop_step. rewrite !length_middle.
        replace (List.length po <? S (List.length po + List.length ow))
          with true by (symmetry; apply Nat.ltb_lt; lia).
        simpl orb. cbv iota.
        replace (S (List.length po + List.length ow) <=? List.length po)
          with false by (symmetry; apply Nat.leb_gt; lia).
        replace (S (List.length pc + List.length cw) <=? List.length pc)
          with false by (symmetry; apply Nat.leb_gt; lia).
        rewrite !item_middle.
        destruct (shift_middle po x ow) as [Eo Lo].
        destruct (shift_middle pc y cw) as [Ec Lc].
        rewrite Eo, Ec, <- Lo, <- Lc. simpl lockStep.
        destruct (x =? y)%string.
        -- rewrite IH by (simpl in *; lia).
           rewrite renderSegments_cons, escapeHtml_segment.
           apply append_assoc.
        -- rewrite IH by (simpl in *; lia).
           rewrite !renderSegments_cons, spanRemoved_segment,
             spanAdded_segment.
           rewrite (append_assoc acc),
             (append_assoc (renderSegment (Removed x))).
           reflexivity.
Qed.

Lemma beginsAsSegments_append (a b : string) :
  beginsAsSegments a -> beginsAsSegments b -> beginsAsSegments (a ++ b).
Proof.
  intros [->|[[c [t [-> Hc]]]|[t ->]]] Hb.
  - exact Hb.
  - right. left. exists c, (t ++ b). auto.
  - right. right. exists (t ++ b). rewrite append_assoc. reflexivity.
Qed.

Lemma escapeHtml_begins (t : string) : beginsAsSegments (escapeHtml t).
Proof.
  destruct t as [|c t]; [left; reflexivity|]. right. left. simpl.
  destruct (c =? "&")%char; [simpl; eexists _, _; split; [reflexivity | discriminate]|].
  destruct (c =? "<")%char eqn:E;
    [simpl; eexists _, _; split; [reflexivity | discriminate]|].
  destruct (c =? ">")%char; [simpl; eexists _, _; split; [reflexivity | discriminate]|].
  destruct (code c =? 160); [simpl; eexists _, _; split; [reflexivity | discriminate]|].
  simpl. exists c, (escapeHtml t). split; [reflexivity|].
  apply Ascii.eqb_neq. exact E.
Qed.

Lemma renderSegment_begins (d : DiffSegment) : beginsAsSegments (renderSegment d).
Proof.
  destruct d as [t|t|t].
  - rewrite <- escapeHtml_segment. apply escapeHtml_begins.
  - right. right. eexists. reflexivity.
  - right. right. eexists. reflexivity.
Qed.

Lemma renderSegments_begins (ds : list DiffSegment) :
  beginsAsSegments (renderSegments ds).
Proof.
  induction ds as [|d ds IH]; [left; reflexivity|].
  rewrite renderSegments_cons.
  apply beginsAsSegments_append; [apply renderSegment_begins | exact IH].
Qed.

(** The no-changes indicator is not the markup of any segment sequence. *)
Lemma renderSegments_not_indicator (ds : list DiffSegment) :
  renderSegments ds <> noChangesHtml.
Proof.
  intros E. pose proof (renderSegments_begins ds) as H. rewrite E in H.
  destruct H as [H|[[c [t [H Hc]]]|[t H]]].
  - discriminate H.
  - injection H as <- _. congruence.
  - discriminate H.
Qed.

(* ================================================================= *)
(** ** The orchestrator *)

(** What [correct] returns for a string when the grammar check is off: the
    [corrected] field is the trimmed input, whatever the spelling pass did. *)
Lemma correct_without_grammar (s : string) (options : CorrectionOptions)
    (r : CorrectionResult) :
  grammarCheck options = false ->
  correct (JsString s) options = Ok r ->
  corrected r = original r.
Proof.
  intros Hg. unfold correct. rewrite Hg.
  destruct s as [|c s]; simpl.
  - intros H. injection H as <-. reflexivity.
  - destruct (spellCheck options).
    + destruct (spellCorrect _); simpl; intros H; [|discriminate].
      injection H as <-. reflexivity.
    + simpl. intros H. injection H as <-. reflexivity.
Qed.

(** C1. With the spelling check on and the grammar check off, on the input
    of scenario 2, [correct] returns the spell-corrected text in
    [spellCorrected] but the uncorrected input in [corrected]: the two
    fields differ, where the specification has them equal. *)
Theorem correct_spell_only_keeps_original :
  exists r,
    correct (JsString "teh dreamm is over") (mkOptions true false) = Ok r
    /\ spellCorrected r = JsString "the dream is over"
    /\ corrected r = JsString "teh dreamm is over"
    /\ corrected r <> spellCorrected r
    /\ List.length (changes r) = 2.
Proof.
  eexists. split; [vm_compute; reflexivity|].
  repeat split; simpl; discriminate.
Qed.

(** C2. On the word [constructor] the dictionary lookup finds the property
    inherited from [Object.prototype], a function, and the call of a string
    method on it throws; [__proto__] does the same.  The word [toString]
    does not throw: its lower-case form names no property.  With the
    spelling check off nothing is looked up. *)
Theorem correct_throws_on_inherited_property :
  spellCorrect "constructor"
    = Throw (TypeError "correction.toLowerCase is not a function")
  /\ correct (JsString "constructor") defaultOptions
    = Throw (TypeError "correction.toLowerCase is not a function")
  /\ correct (JsString "the constructor") (mkOptions true false)
    = Throw (TypeError "correction.toLowerCase is not a function")
  /\ correct (JsString "__proto__") defaultOptions
    = Throw (TypeError "correction.charAt is not a function")
  /\ getProperty spellingCorrections "constructor"
    = JsObject "Object.prototype.constructor"
  /\ spellCorrect "toString" = Ok (Pass.mk "toString" [])
  /\ correct (JsString "constructor") (mkOptions false true)
    = Ok (mkResult (JsString "constructor") (JsString "constructor")
            (JsString "constructor") []).
Proof. repeat split; vm_compute; reflexivity. Qed.

(** C3, as stated, fails: a non-string input that is truthy comes back
    unchanged in the three fields, which are then not the empty string and
    not strings at all. *)
Lemma correct_guard_counterexample :
  correct fortyTwo defaultOptions = Ok (mkResult fortyTwo fortyTwo fortyTwo [])
  /\ typeofIsString fortyTwo = false
  /\ fortyTwo <> JsString ""
  /\ ~ (forall (text : JsValue) (options : CorrectionOptions),
          typeofIsString text = false ->
          correct text options
            = Ok (mkResult (JsString "") (JsString "") (JsString "") [])).
Proof.
  repeat split; try reflexivity; try discriminate.
  intros H. specialize (H fortyTwo defaultOptions eq_refl). discriminate H.
Qed.

(** C3, amended.  For a non-string input and for the empty string,
    [correct] returns without throwing, with no changes, and with the three
    fields equal to [text || '']: the empty string when the input is falsy,
    the input itself otherwise.  Whenever [correct] returns, for any input,
    the three fields are neither [null] nor [undefined], and they are
    strings when the input is a string. *)
Theorem correct_guard (text : JsValue) (options : CorrectionOptions) :
  (toBoolean text = false \/ typeofIsString text = false ->
     correct text options
       = Ok (mkResult (orEmpty text) (orEmpty text) (orEmpty text) []))
  /\ (toBoolean text = false -> orEmpty text = JsString "")
  /\ (toBoolean text = true -> orEmpty text = text)
  /\ (forall r, correct text options = Ok r ->
        defined (original r) /\ defined (spellCorrected r)
        /\ defined (corrected r))
  /\ (forall r, typeofIsString text = true ->
        correct text options = Ok r ->
        typeofIsString (original r) = true
        /\ typeofIsString (spellCorrected r) = true
        /\ typeofIsString (corrected r) = true).
Proof.
  assert (Hdef : defined (orEmpty text)).
  { unfold defined, orEmpty.
    destruct text as [| |b|n|s|l]; simpl; try (split; discriminate).
    - destruct b; split; discriminate.
    - destruct n; split; discriminate.
    - destruct (negb _); split; discriminate. }
  split; [|split; [|split; [|split]]].
  - unfold correct. intros [H|H]; rewrite H; simpl;
      [reflexivity | rewrite orb_true_r; reflexivity].
  - unfold orEmpty. intros ->. reflexivity.
  - unfold orEmpty. intros ->. reflexivity.
  - intros r. unfold correct.
    destruct (negb (toBoolean text) || negb (typeofIsString text)).
    + intros H. injection H as <-. simpl. auto.
    + destruct text; try (intros H; injection H as <-; simpl; auto).
      destruct (if spellCheck options then _ else _); simpl;
        [|discriminate].
      intros H. injection H as <-. simpl.
      unfold defined. repeat split; discriminate.
  - intros r Hs. destruct text; try discriminate Hs.
    unfold correct.
    destruct (negb (toBoolean (JsString s)) || negb (typeofIsString (JsString s)))
      eqn:Hg.
    + intros H. injection H as <-. simpl.
      unfold orEmpty. destruct (toBoolean (JsString s)); auto.
    + destruct (if spellCheck options then _ else _); simpl;
        [|discriminate].
      intros H. injection H as <-. simpl. auto.
Qed.

Lemma correct_guard_witness :
  (toBoolean JsNull = false \/ typeofIsString JsNull = false)
  /\ correct JsNull defaultOptions
     = Ok (mkResult (JsString "") (JsString "") (JsString "") []).
Proof.
  assert (H : toBoolean JsNull = false \/ typeofIsString JsNull = false)
    by (left; reflexivity).
  split; [exact H|].
  exact (proj1 (correct_guard JsNull defaultOptions) H).
Defined.

(* ================================================================= *)
(** ** Tokenization at word boundaries *)

Lemma matchAt_wordBoundary (prev : option ascii) (rest : string) :
  matchAt wordBoundaryRe prev rest =
    if xorb (isWordBefore prev) (isWordAfter rest)
    then Some ("", rest, []) else None.
Proof. reflexivity. Qed.

Lemma splitLoop_step (f : nat) (re : RegExp) (cur : string)
    (prev : option ascii) (c : ascii) (tl : string) :
  splitLoop (S f) re cur prev (String c tl) =
    match matchAt re prev (String c tl) with
    | Some (m, rest', caps) =>
        if (m =? "")%string && (cur =? "")%string then
          splitLoop f re (cur ++ String c "") (Some c) tl
        else
          (cur :: captureList (groupCount (source re)) 1 caps
               ++ splitLoop f re "" (lastOr prev m) rest')%list
    | None => splitLoop f re (cur ++ String c "") (Some c) tl
    end.
Proof. reflexivity. Qed.

Lemma append_char_assoc (cur : string) (c : ascii) (tl : string) :
  (cur ++ String c "") ++ tl = cur ++ String c tl.
Proof. rewrite append_assoc. reflexivity. Qed.

Lemma splitLoop_wordBoundary_join (fuel : nat) :
  forall (cur : string) (prev : option ascii) (rest : string),
    join (splitLoop fuel wordBoundaryRe cur prev rest) = cur ++ rest.
Proof.
  induction fuel as [|f IH]; intros cur prev rest.
  - simpl. unfold join. simpl. reflexivity.
  - destruct rest as [|c tl].
    + simpl. unfold join. simpl. symmetry. apply append_nil_r.
    + rewrite splitLoop_step, matchAt_wordBoundary.
      destruct (xorb _ _).
      * simpl String.eqb. simpl andb.
        destruct (cur =? "")%string.
        -- rewrite IH. apply append_char_assoc.
        -- simpl captureList. simpl app. rewrite join_cons, IH. reflexivity.
      * rewrite IH. apply append_char_assoc.
Qed.

Lemma split_wordBoundary_join (s : string) :
  join (split s wordBoundaryRe) = s.
Proof.
  destruct s as [|c s]; [reflexivity|].
  unfold split. apply splitLoop_wordBoundary_join.
Qed.

(* ================================================================= *)
(** ** The spelling pass, token by token *)

Lemma correctWord_miss (w : string) :
  misses w = true -> correctWord w = Ok (w, []).
Proof.
  unfold misses, correctWord. intros H.
  apply negb_true_iff in H. rewrite H. reflexivity.
Qed.

Lemma isWordChar_toLowerChar (c : ascii) :
  isWordChar (toLowerChar c) = isWordChar c.
Proof. each_char c. Qed.

Lemma allChars_word_toLowerCase (w : string) :
  allChars isWordChar (toLowerCase w) = allChars isWordChar w.
Proof.
  induction w as [|c w IH]; [reflexivity|].
  unfold toLowerCase in *. simpl.
  rewrite isWordChar_toLowerChar, IH. reflexivity.
Qed.

Lemma ownProperty_In (obj : list (string * string)) (key v : string) :
  ownProperty obj key = Some v -> In (key, v) obj.
Proof.
  induction obj as [|[k x] tl IH]; simpl; [discriminate|].
  destruct (k =? key)%string eqn:E.
  - apply String.eqb_eq in E. intros H. injection H as ->. subst. auto.
  - auto.
Qed.

(** Every name the lookup can find, own or inherited, is made of word
    characters. *)
Lemma hit_is_word (key : string) :
  toBoolean (getProperty spellingCorrections key) = true ->
  allChars isWordChar key = true.
Proof.
  unfold getProperty.
  destruct (ownProperty spellingCorrections key) as [v|] eqn:E.
  - intros _. apply ownProperty_In in E.
    assert (F : Forall (fun kv => allChars isWordChar (fst kv) = true)
                  spellingCorrections)
      by (repeat constructor).
    rewrite Forall_forall in F. exact (F _ E).
  - destruct (existsb _ _) eqn:X; [|discriminate].
    intros _. apply existsb_exists in X as [p [Hin Hp]].
    apply String.eqb_eq in Hp. subst p.
    assert (F : Forall (fun k => allChars isWordChar k = true)
                  objectPrototypeProperties)
      by (repeat constructor).
    rewrite Forall_forall in F. exact (F _ Hin).
Qed.

Lemma nonword_misses (w : string) :
  allChars isWordChar w = false -> misses w = true.
Proof.
  intros H. unfold misses. apply negb_true_iff.
  destruct (toBoolean _) eqn:E; [|reflexivity].
  apply hit_is_word in E. rewrite allChars_word_toLowerCase in E. congruence.
Qed.

Lemma mapWords_cons (w : string) (ws : list string) :
  mapWords (w :: ws) =
    r <- correctWord w ;; rs <- mapWords ws ;;
    Ok (fst r :: fst rs, (snd r ++ snd rs)%list).
Proof. reflexivity. Qed.

Lemma mapWords_pass_through (ws : list string) :
  forall outs chs,
    mapWords ws = Ok (outs, chs) ->
    Forall2 (fun w o => misses w = true -> o = w) ws outs.
Proof.
  induction ws as [|w ws IH]; intros outs chs H.
  - simpl in H. injection H as <- <-. constructor.
  - rewrite mapWords_cons in H.
    destruct (correctWord w) as [[o ch]|] eqn:Ew; simpl in H; [|discriminate].
    destruct (mapWords ws) as [[os chs']|] eqn:Ews; simpl in H; [|discriminate].
    injection H as <- <-. constructor; [|eapply IH; reflexivity].
    intros Hm. rewrite (correctWord_miss w Hm) in Ew. congruence.
Qed.

(** C4. Splitting at word boundaries loses nothing: the tokens of [s],
    joined in order, are [s]; this holds for the empty string, for white
    space alone and for text with no word character.  [spellCorrect] then
    joins one output per token, and the output of a token that is not a
    word, or that misses the dictionary, is the token itself. *)
Theorem tokenization_lossless (s : string) :
  join (split s wordBoundaryRe) = s
  /\ join (split "" wordBoundaryRe) = ""
  /\ join (split "  " wordBoundaryRe) = "  "
  /\ join (split "?! ..." wordBoundaryRe) = "?! ..."
  /\ (forall r, spellCorrect s = Ok r ->
        exists outs,
          Pass.text r = join outs
          /\ Forall2 (fun w o =>
                 allChars isWordChar w = false \/ misses w = true -> o = w)
               (split s wordBoundaryRe) outs).
Proof.
  split; [apply split_wordBoundary_join|].
  repeat split; try reflexivity.
  intros r. unfold spellCorrect.
  destruct (mapWords _) as [[outs chs]|] eqn:E; simpl; [|discriminate].
  intros H. injection H as <-. exists outs. split; [reflexivity|].
  apply mapWords_pass_through in E.
  eapply Forall2_impl; [|exact E].
  intros w o Hw [Hn|Hm]; [apply Hw, nonword_misses, Hn | apply Hw, Hm].
Qed.

Lemma tokenization_lossless_witness :
  spellCorrect "teh, cat" = Ok (Pass.mk "the, cat"
      [Change.mk spelling "teh" "the" (spellingMessage "teh" "the")])
  /\ exists outs,
       "the, cat" = join outs
       /\ Forall2 (fun w o =>
              allChars isWordChar w = false \/ misses w = true -> o = w)
            (split "teh, cat" wordBoundaryRe) outs.
Proof.
  assert (H : spellCorrect "teh, cat" = Ok (Pass.mk "the, cat"
      [Change.mk spelling "teh" "the" (spellingMessage "teh" "the")]))
    by (vm_compute; reflexivity).
  split; [exact H|].
  exact (proj2 (proj2 (proj2 (proj2
           (tokenization_lossless "teh, cat")))) _ H).
Defined.

(** The end-to-end scenarios of the specification with both checks on: a
    text with nothing to correct, and a text two grammar rules rewrite. *)
Example correct_scenarios :
  correct (JsString "the cat sat") defaultOptions
    = Ok (mkResult (JsString "the cat sat") (JsString "the cat sat")
            (JsString "the cat sat") [])
  /\ correct (JsString "I has a apple") defaultOptions
    = Ok (mkResult (JsString "I has a apple") (JsString "I has a apple")
            (JsString "I have an apple")
            [Change.mk grammar "I has" "I have" "Incorrect verb form";
             Change.mk grammar "a a" "an a"
               ("Article usage: use " ++ dq ++ "an" ++ dq
                  ++ " before vowel sounds")]).
Proof. split; vm_compute; reflexivity. Qed.

(* ================================================================= *)
(** ** Two equations used throughout *)

(** The three branches of [preserveCase] on a non-empty word. *)
Lemma preserveCase_cases (original correction : string) :
  original <> "" ->
  preserveCase original (JsString correction) =
    Ok (if entirelyUpperCase original then toUpperCase correction
        else if firstUpperCase original then capitalize correction
        else toLowerCase correction).
Proof.
  intros Hne. unfold preserveCase. rewrite toUpperCase_fixed.
  destruct (entirelyUpperCase original) eqn:Hall; [reflexivity|].
  destruct original as [|c t]; [congruence|].
  cbv beta iota delta [index0].
  rewrite toUpperCase_fixed. unfold entirelyUpperCase at 1, firstUpperCase.
  simpl allChars. rewrite andb_true_r.
  destruct (negb (isLowerLetter c)); simpl; [|reflexivity].
  destruct correction; reflexivity.
Qed.

(** The markup of two different texts is that of the lock-step walk. *)
Lemma generateDiff_segments (original corrected : string) :
  original <> corrected ->
  generateDiff original corrected
  = renderSegments (lockStep (split original whiteSpaceRe)
                             (split corrected whiteSpaceRe)).
Proof.
  intros H. apply String.eqb_neq in H. unfold generateDiff. rewrite H.
  exact (diffLoop_lockStep _ _ _ [] [] "" (le_n _)).
Qed.

(* ================================================================= *)
(** ** The case pattern of [preserveCase] *)


Lemma translate_lower (c : ascii) :
  translate capitalLetters smallLetters c = toLowerChar c.
Proof. each_char c. Qed.


Lemma occursIn_capital (c : ascii) :
  occursIn capitalLetters c = isUpperLetter c.
Proof. each_char c. Qed.

Lemma mapString_ext (f g : ascii -> ascii) (s : string) :
  (forall c, f c = g c) -> mapString f s = mapString g s.
Proof.
  intros H. induction s as [|c s IH]; simpl; [reflexivity|].
  rewrite H, IH. reflexivity.
Qed.



Lemma toLowerCase_lowerCased (s : string) : toLowerCase s = lowerCased s.
Proof. symmetry. apply mapString_ext, translate_lower. Qed.









(* ================================================================= *)
(** ** Runs and the idempotence of the spelling pass *)

Lemma runs_cons (c : ascii) (t : string) :
  runs (String c t) =
    match runs t with
    | [] => [String c ""]
    | r :: rs =>
        if Bool.eqb (isWordChar c) (isWordAfter r)
        then String c r :: rs
        else String c "" :: r :: rs
    end.
Proof. reflexivity. Qed.

Lemma runs_head (s : string) :
  s <> "" -> exists r rs, runs s = r :: rs /\ isWordAfter r = isWordAfter s.
Proof.
  destruct s as [|c t]; [congruence|]. intros _. rewrite runs_cons.
  destruct (runs t) as [|r rs]; [eauto|].
  destruct (Bool.eqb _ _); eauto.
Qed.

Lemma lastOr_nonempty (p q : option ascii) (s : string) :
  s <> "" -> lastOr p s = lastOr q s.
Proof. destruct s; [congruence | reflexivity]. Qed.

Lemma lastOr_append (p : option ascii) (a b : string) :
  lastOr p (a ++ b) = lastOr (lastOr p a) b.
Proof. revert p. induction a as [|c a IH]; intros p; simpl; auto. Qed.

Lemma runs_app (a b : string) :
  a <> "" -> b <> "" ->
  isWordAfter b = negb (endsInWord a) ->
  runs (a ++ b) = (runs a ++ runs b)%list.
Proof.
  unfold endsInWord.
  induction a as [|c a IH]; [congruence|]. intros _ Hb Hcls.
  destruct a as [|c' a'].
  - simpl append. rewrite !runs_cons. simpl (runs "").
    destruct (runs_head b Hb) as [r [rs [-> Hr]]].
    simpl in Hcls. rewrite Hr, Hcls.
    destruct (isWordChar c); reflexivity.
  - change (String c (String c' a') ++ b) with (String c (String c' a' ++ b)).
    rewrite (runs_cons c (String c' a' ++ b)), (runs_cons c (String c' a')).
    rewrite IH; [|discriminate|assumption|exact Hcls].
    destruct (runs_head (String c' a') ltac:(discriminate)) as [r [rs [-> _]]].
    simpl app. cbv beta iota.
    destruct (Bool.eqb (isWordChar c) (isWordAfter r)); reflexivity.
Qed.

Lemma homogeneous_first (b : bool) (s : string) :
  s <> "" -> homogeneous b s = true -> isWordAfter s = b.
Proof.
  destruct s as [|c t]; [congruence|]. intros _. unfold homogeneous. simpl.
  intros H. apply andb_true_iff in H as [H _].
  apply Bool.eqb_prop in H. exact H.
Qed.

Lemma homogeneous_last (b : bool) (s : string) :
  s <> "" -> homogeneous b s = true -> endsInWord s = b.
Proof.
  unfold endsInWord, homogeneous.
  induction s as [|c t IH]; [congruence|]. intros _. simpl.
  intros H. apply andb_true_iff in H as [Hc Ht].
  destruct t as [|c' t'].
  - simpl. apply Bool.eqb_prop in Hc. exact Hc.
  - rewrite (lastOr_nonempty (Some c) None) by discriminate.
    apply IH; [discriminate | exact Ht].
Qed.

Lemma runs_homogeneous (b : bool) (s : string) :
  s <> "" -> homogeneous b s = true -> runs s = [s].
Proof.
  induction s as [|c t IH]; [congruence|]. intros _ H.
  assert (H' := H). unfold homogeneous in H'. simpl in H'.
  apply andb_true_iff in H' as [Hc Ht]. apply Bool.eqb_prop in Hc.
  rewrite runs_cons. destruct t as [|c' t']; [reflexivity|].
  rewrite IH by (discriminate || exact Ht).
  rewrite (homogeneous_first b (String c' t')) by (discriminate || exact Ht).
  rewrite Hc. rewrite Bool.eqb_reflx. reflexivity.
Qed.

Lemma homogeneous_snoc (b : bool) (s : string) (c : ascii) :
  homogeneous b s = true -> isWordChar c = b ->
  homogeneous b (s ++ String c "") = true.
Proof.
  unfold homogeneous. induction s as [|x s IH]; simpl; intros H Hc.
  - rewrite Hc, Bool.eqb_reflx. reflexivity.
  - apply andb_true_iff in H as [Hx Hs]. rewrite Hx. simpl. auto.
Qed.

Lemma lastOr_snoc (p : option ascii) (s : string) (c : ascii) :
  lastOr p (s ++ String c "") = Some c.
Proof. rewrite lastOr_append. reflexivity. Qed.

(** The loop of [split] at [/\b/], resumed inside a run [cur], yields the
    runs of the text from the start of [cur] on. *)
Lemma splitLoop_runs (rest : string) :
  forall (fuel : nat) (cur : string) (p : ascii) (b : bool),
    cur <> "" -> homogeneous b cur = true -> lastOr None cur = Some p ->
    2 * String.length rest < fuel ->
    splitLoop fuel wordBoundaryRe cur (Some p) rest = runs (cur ++ rest).
Proof.
  induction rest as [|c tl IH]; intros fuel cur p b Hne Hh Hp Hf.
  - destruct fuel as [|f]; [simpl in Hf; lia|]. simpl splitLoop.
    rewrite append_nil_r. symmetry. eapply runs_homogeneous; eauto.
  - destruct fuel as [|f]; [simpl in Hf; lia|].
    assert (Hpb : isWordChar p = b).
    { pose proof (homogeneous_last b cur Hne Hh) as E.
      unfold endsInWord in E. rewrite Hp in E. exact E. }
    rewrite splitLoop_step, matchAt_wordBoundary. simpl isWordBefore.
    simpl isWordAfter. rewrite Hpb.
    destruct (xorb b (isWordChar c)) eqn:X.
    + simpl String.eqb. simpl andb.
      destruct cur as [|c0 cur0]; [congruence|]. rewrite eqb_empty_false.
      simpl captureList. simpl lastOr. simpl app.
      destruct f as [|f]; [simpl in Hf; lia|].
      rewrite splitLoop_step, matchAt_wordBoundary. simpl isWordBefore.
      simpl isWordAfter. rewrite Hpb, X. simpl String.eqb. simpl andb.
      cbv iota. change ("" ++ String c "") with (String c "").
      rewrite (IH f (String c "") c (isWordChar c));
        [|discriminate| |reflexivity|simpl in Hf; lia].
      2:{ unfold homogeneous. simpl. rewrite Bool.eqb_reflx. reflexivity. }
      rewrite (runs_app (String c0 cur0) (String c tl));
        [|discriminate|discriminate|].
      * rewrite (runs_homogeneous b (String c0 cur0)) by assumption.
        reflexivity.
      * rewrite (homogeneous_last b (String c0 cur0)) by assumption.
        simpl. destruct b, (isWordChar c); simpl in *; congruence.
    + assert (Hc : isWordChar c = b)
        by (destruct b, (isWordChar c); simpl in X; congruence).
      rewrite (IH f (cur ++ String c "") c b).
      * rewrite append_char_assoc. reflexivity.
      * destruct cur; discriminate.
      * apply homogeneous_snoc; assumption.
      * apply lastOr_snoc.
      * simpl in Hf; lia.
Qed.

Lemma split_wordBoundary_runs (s : string) :
  s <> "" -> split s wordBoundaryRe = runs s.
Proof.
  destruct s as [|c s]; [congruence|]. intros _. unfold split.
  replace (2 * String.length (String c s) + 1)
    with (S (S (S (2 * String.length s)))) by (simpl; lia).
  rewrite splitLoop_step, matchAt_wordBoundary.
  assert (E : splitLoop (S (S (2 * String.length s))) wordBoundaryRe
                ("" ++ String c "") (Some c) s = runs (String c s)).
  { apply (splitLoop_runs s _ (String c "") c (isWordChar c));
      [discriminate| |reflexivity|lia].
    unfold homogeneous. simpl. rewrite Bool.eqb_reflx. reflexivity. }
  destruct (xorb _ _); [simpl String.eqb; simpl andb; cbv iota|]; exact E.
Qed.

Lemma isWordAfter_append (x y : string) :
  x <> "" -> isWordAfter (x ++ y) = isWordAfter x.
Proof. destruct x; [congruence | reflexivity]. Qed.

Lemma append_nonempty (x y : string) : x <> "" -> x ++ y <> "".
Proof. destruct x; [congruence | discriminate]. Qed.

Lemma join_nil : join [] = "".
Proof. reflexivity. Qed.

Lemma runs_join (chunks : list string) :
  forall before, chained before chunks ->
    runs (join chunks) = flat_map runs chunks.
Proof.
  induction chunks as [|x tl IH]; intros before H; [reflexivity|].
  destruct H as [Hx [_ Htl]]. rewrite join_cons. simpl flat_map.
  destruct tl as [|y tl'].
  - rewrite join_nil, append_nil_r. simpl. symmetry. apply app_nil_r.
  - assert (Hy := Htl). destruct Hy as [Hy [Hcls _]].
    rewrite runs_app.
    + rewrite (IH _ Htl). reflexivity.
    + exact Hx.
    + rewrite join_cons. apply append_nonempty, Hy.
    + rewrite join_cons, isWordAfter_append by exact Hy. exact Hcls.
Qed.

Lemma endsInWord_cons (c : ascii) (r : string) :
  r <> "" -> endsInWord (String c r) = endsInWord r.
Proof.
  intros H. unfold endsInWord. simpl.
  rewrite (lastOr_nonempty (Some c) None r H). reflexivity.
Qed.

(** The runs of a text are non-empty, homogeneous, and alternate. *)
Lemma runs_chained (s : string) :
  Forall (fun r => homogeneous (isWordAfter r) r = true) (runs s)
  /\ chained None (runs s).
Proof.
  induction s as [|c t [IHh IHc]]; [split; constructor|].
  rewrite runs_cons. destruct (runs t) as [|r rs].
  - split.
    + constructor; [|constructor]. unfold homogeneous. simpl.
      rewrite Bool.eqb_reflx. reflexivity.
    + simpl. repeat split. discriminate.
  - destruct IHc as [Hr [_ Hrs]]. inversion IHh as [|? ? Hhr Hhrs]; subst.
    destruct (Bool.eqb (isWordChar c) (isWordAfter r)) eqn:E.
    + apply Bool.eqb_prop in E. split.
      * constructor; [|exact Hhrs]. unfold homogeneous in *. simpl.
        rewrite Bool.eqb_reflx. simpl. rewrite E. exact Hhr.
      * simpl. repeat split; [discriminate|].
        rewrite endsInWord_cons by exact Hr. exact Hrs.
    + split.
      * constructor; [|exact IHh]. unfold homogeneous. simpl.
        rewrite Bool.eqb_reflx. reflexivity.
      * simpl. repeat split; try discriminate; try assumption.
        unfold endsInWord. simpl.
        destruct (isWordChar c), (isWordAfter r); simpl in *; congruence.
Qed.

Lemma casings_settled :
  Forall (fun kv => forallb settled (casings (snd kv)) = true)
    spellingCorrections.
Proof. repeat constructor. Qed.

Lemma preserveCase_casings (w v o : string) :
  w <> "" -> preserveCase w (JsString v) = Ok o -> In o (casings v).
Proof.
  intros Hw H.
  rewrite (preserveCase_cases w v Hw) in H.
  injection H as <-. unfold casings.
  destruct (entirelyUpperCase w); [simpl; auto|].
  destruct (firstUpperCase w); simpl; auto.
Qed.

Lemma preserveCase_object (w l : string) :
  exists e, preserveCase w (JsObject l) = Throw e.
Proof.
  unfold preserveCase. destruct (w =? toUpperCase w)%string; simpl; eauto.
  destruct (index0 w); eauto.
  destruct (_ =? _)%string; simpl; eauto.
Qed.

Lemma allChars_word_ends (w : string) :
  w <> "" -> allChars isWordChar w = true ->
  isWordAfter w = true /\ endsInWord w = true.
Proof.
  intros Hw H.
  assert (Hh : homogeneous true w = true).
  { unfold homogeneous. clear Hw. induction w as [|c w IH]; [reflexivity|].
    simpl in *. apply andb_true_iff in H as [Hc Hr].
    rewrite Hc, (IH Hr). reflexivity. }
  split; [eapply homogeneous_first | eapply homogeneous_last]; eauto.
Qed.

Lemma correctWord_step (w o : string) (ch : list Change.t) :
  w <> "" -> correctWord w = Ok (o, ch) -> tokenStep w o.
Proof.
  intros Hw. unfold correctWord.
  destruct (toBoolean (getProperty spellingCorrections (toLowerCase w))) eqn:T.
  - assert (Hword := hit_is_word _ T).
    rewrite allChars_word_toLowerCase in Hword.
    destruct (allChars_word_ends w Hw Hword) as [Hf Hl].
    unfold getProperty in *.
    destruct (ownProperty spellingCorrections (toLowerCase w)) as [v|] eqn:E.
    + destruct (preserveCase w (JsString v)) as [o'|] eqn:P; simpl;
        [|discriminate].
      intros H. injection H as -> _. right. repeat split; try assumption.
      apply ownProperty_In in E.
      pose proof casings_settled as F. rewrite Forall_forall in F.
      specialize (F _ E). change (forallb settled (casings v) = true) in F.
      rewrite forallb_forall in F.
      apply F. eapply preserveCase_casings; eauto.
    + destruct (existsb _ _); [|discriminate].
      destruct (preserveCase_object w ("Object.prototype." ++ toLowerCase w))
        as [e ->].
      simpl. discriminate.
  - intros H. injection H as <- _. left. split; [reflexivity|].
    unfold misses. rewrite T. reflexivity.
Qed.

Lemma mapWords_steps (ws : list string) :
  forall outs chs,
    Forall (fun w => w <> "") ws ->
    mapWords ws = Ok (outs, chs) ->
    Forall2 tokenStep ws outs.
Proof.
  induction ws as [|w ws IH]; intros outs chs Hne H.
  - simpl in H. injection H as <- <-. constructor.
  - rewrite mapWords_cons in H. inversion Hne; subst.
    destruct (correctWord w) as [[o ch]|] eqn:Ew; simpl in H; [|discriminate].
    destruct (mapWords ws) as [[os chs']|] eqn:Ews; simpl in H; [|discriminate].
    injection H as <- <-. constructor.
    + eapply correctWord_step; eauto.
    + eapply IH; eauto.
Qed.

Lemma chained_nonempty (before : option bool) (chunks : list string) :
  chained before chunks -> Forall (fun w => w <> "") chunks.
Proof.
  revert before. induction chunks as [|x tl IH]; intros before H;
    constructor; destruct H as [Hx [_ Ht]]; eauto.
Qed.

Lemma settled_parts (o : string) :
  settled o = true ->
  o <> "" /\ isWordAfter o = true /\ endsInWord o = true
  /\ Forall (fun x => misses x = true) (runs o).
Proof.
  unfold settled. intros H.
  apply andb_true_iff in H as [H H4]. apply andb_true_iff in H as [H H3].
  apply andb_true_iff in H as [H1 H2].
  repeat split; try assumption.
  - apply negb_true_iff in H1. apply String.eqb_neq in H1. exact H1.
  - apply Forall_forall. apply forallb_forall. exact H4.
Qed.

(** The outputs of the spelling pass on the runs of a text still meet at
    word boundaries, and every run of every output misses the dictionary. *)
Lemma steps_chained (ws outs : list string) :
  Forall2 tokenStep ws outs ->
  forall before,
    Forall (fun r => homogeneous (isWordAfter r) r = true) ws ->
    chained before ws ->
    chained before outs
    /\ Forall (fun x => misses x = true) (flat_map runs outs).
Proof.
  induction 1 as [|w o ws outs Hstep Hrest IH]; intros before Hh Hc.
  - split; constructor.
  - inversion Hh as [|? ? Hw Hws]; subst.
    destruct Hc as [Hne [Hb Hc]].
    destruct Hstep as [[-> Hm] | [Hf [Hl Hs]]].
    + destruct (IH _ Hws Hc) as [IHc IHm]. split.
      * simpl. auto.
      * simpl flat_map. rewrite (runs_homogeneous _ w Hne Hw).
        constructor; assumption.
    + apply settled_parts in Hs as [Hone [Hof [Hol Hom]]].
      rewrite Hl in Hc. destruct (IH _ Hws Hc) as [IHc IHm]. split.
      * simpl. rewrite Hol. repeat split; try assumption.
        destruct before; [|exact I]. rewrite Hof, <- Hf. exact Hb.
      * simpl flat_map. apply Forall_app. split; assumption.
Qed.

Lemma mapWords_all_miss (ws : list string) :
  Forall (fun w => misses w = true) ws -> mapWords ws = Ok (ws, []).
Proof.
  induction 1 as [|w ws Hw _ IH]; [reflexivity|].
  rewrite mapWords_cons, (correctWord_miss w Hw), IH. reflexivity.
Qed.

Lemma join_nonempty (before : option bool) (chunks : list string) :
  chunks <> [] -> chained before chunks -> join chunks <> "".
Proof.
  destruct chunks as [|x tl]; [congruence|]. intros _ [Hx _].
  rewrite join_cons. apply append_nonempty, Hx.
Qed.

(** A second spelling pass over the output of a first one changes nothing. *)
Lemma spellCorrect_twice (t : string) (r : Pass.t) :
  spellCorrect t = Ok r ->
  spellCorrect (Pass.text r) = Ok (Pass.mk (Pass.text r) []).
Proof.
  destruct t as [|c t].
  - intros H. vm_compute in H. injection H as <-. reflexivity.
  - unfold spellCorrect at 1.
    rewrite split_wordBoundary_runs by discriminate.
    destruct (mapWords (runs (String c t))) as [[outs chs]|] eqn:E; simpl;
      [|discriminate].
    intros H. injection H as <-. simpl Pass.text.
    destruct (runs_chained (String c t)) as [Hh Hc].
    pose proof (mapWords_steps _ _ _ (chained_nonempty _ _ Hc) E) as Hsteps.
    destruct (steps_chained _ _ Hsteps None Hh Hc) as [Hoc Hom].
    assert (Hne : outs <> []).
    { destruct (runs_head (String c t) ltac:(discriminate)) as [r0 [rs [Er _]]].
      rewrite Er in Hsteps. inversion Hsteps. discriminate. }
    pose proof (join_nonempty None outs Hne Hoc) as Hj.
    unfold spellCorrect.
    rewrite (split_wordBoundary_runs _ Hj), (runs_join outs None Hoc).
    rewrite (mapWords_all_miss _ Hom). simpl.
    rewrite <- (runs_join outs None Hoc).
    rewrite <- (split_wordBoundary_runs _ Hj), split_wordBoundary_join.
    reflexivity.
Qed.

Lemma preserveCase_any_casings (w v o : string) :
  preserveCase w (JsString v) = Ok o -> In o (casings v).
Proof.
  destruct w as [|c w].
  - intros H. vm_compute in H. injection H as <-. left. reflexivity.
  - apply preserveCase_casings. discriminate.
Qed.

Lemma misses_not_own (w : string) :
  misses w = true ->
  ownProperty spellingCorrections (toLowerCase w) = None.
Proof.
  unfold misses, getProperty. intros H. apply negb_true_iff in H.
  destruct (ownProperty spellingCorrections (toLowerCase w)) as [v|] eqn:E;
    [|reflexivity].
  apply ownProperty_In in E.
  assert (F : Forall (fun kv => toBoolean (JsString (snd kv)) = true)
                spellingCorrections)
    by (repeat constructor).
  rewrite Forall_forall in F. specialize (F _ E). simpl snd in F. congruence.
Qed.

(** C5. The spelling pass is idempotent: running it on its own output gives
    that output back, with no further change (and where the first pass
    throws, so does the composition).  The reason is the one the
    specification gives: whatever casing [preserveCase] gives a dictionary
    value, no token of the result is found in the dictionary again. *)
Theorem spellCorrect_idempotent (t : string) :
  (r <- spellCorrect t ;; spellCorrect (Pass.text r))
    = (r <- spellCorrect t ;; Ok (Pass.mk (Pass.text r) []))
  /\ (forall r, spellCorrect t = Ok r ->
        exists r', spellCorrect (Pass.text r) = Ok r'
                   /\ Pass.text r' = Pass.text r)
  /\ (forall k v original o w,
        In (k, v) spellingCorrections ->
        preserveCase original (JsString v) = Ok o ->
        In w (split o wordBoundaryRe) ->
        misses w = true
        /\ ownProperty spellingCorrections (toLowerCase w) = None).
Proof.
  split; [|split].
  - destruct (spellCorrect t) as [r|e] eqn:E; [|reflexivity].
    simpl. apply (spellCorrect_twice t r E).
  - intros r E. eexists. split; [apply (spellCorrect_twice t r E)|].
    reflexivity.
  - intros k v original o w Hkv Hp Hw.
    apply preserveCase_any_casings in Hp.
    pose proof casings_settled as F. rewrite Forall_forall in F.
    specialize (F _ Hkv). change (forallb settled (casings v) = true) in F.
    rewrite forallb_forall in F.
    destruct (settled_parts o (F o Hp)) as [Hne [_ [_ Hm]]].
    rewrite (split_wordBoundary_runs o Hne) in Hw.
    rewrite Forall_forall in Hm. specialize (Hm w Hw).
    split; [exact Hm | apply misses_not_own, Hm].
Qed.

Lemma spellCorrect_idempotent_witness :
  spellCorrect "Youre rigth" = Ok (Pass.mk "You're rigth"
      [Change.mk spelling "Youre" "You're" (spellingMessage "Youre" "You're")])
  /\ exists r', spellCorrect "You're rigth" = Ok r'
                /\ Pass.text r' = "You're rigth".
Proof.
  assert (H : spellCorrect "Youre rigth" = Ok (Pass.mk "You're rigth"
      [Change.mk spelling "Youre" "You're" (spellingMessage "Youre" "You're")]))
    by (vm_compute; reflexivity).
  split; [exact H|].
  exact (proj1 (proj2 (spellCorrect_idempotent "Youre rigth")) _ H).
Defined.

(* ================================================================= *)
(** ** The matcher finds what the pattern matches *)

Section MatcherFacts.
Variable ic : bool.
Variable R : Type.

Lemma starLoop_step
    (mr : option ascii -> string -> Captures -> Continuation R -> option R)
    (k : Continuation R) (f : nat) (acc : string) (p : option ascii)
    (s : string) (c : Captures) :
  starLoop R mr k (S f) acc p s c =
    match mr p s c (fun m1 p' s' c' =>
            if (m1 =? "")%string then None
            else starLoop R mr k f (acc ++ m1) p' s' c') with
    | Some z => Some z
    | None => k acc p s c
    end.
Proof. reflexivity. Qed.

Lemma starLoop_sound mr M (k : Continuation R) :
  SoundFor R mr M ->
  forall fuel acc p s c z,
    starLoop R mr k fuel acc p s c = Some z ->
    exists m2 s2 c2, s = m2 ++ s2 /\ StarOf M p m2 s2 c c2
                     /\ k (acc ++ m2) (lastOr p m2) s2 c2 = Some z.
Proof.
  intros Hs. induction fuel as [|f IH]; intros acc p s c z H;
    [discriminate|].
  rewrite starLoop_step in H.
  destruct (mr p s c _) as [z1|] eqn:E.
  - injection H as ->.
    apply Hs in E as [m1 [s1 [c1 [-> [HM Hk]]]]].
    destruct (m1 =? "")%string eqn:Em; [discriminate|].
    apply String.eqb_neq in Em.
    apply IH in Hk as [m2 [s2 [c2 [-> [HS Hk]]]]].
    exists (m1 ++ m2), s2, c2. repeat split.
    + symmetry. apply append_assoc.
    + econstructor; eauto.
    + rewrite <- append_assoc, lastOr_append. exact Hk.
  - exists "", s, c. repeat split; [constructor|].
    rewrite append_nil_r. exact H.
Qed.

Lemma starLoop_complete mr M (k : Continuation R) :
  CompleteFor R mr M ->
  forall p m2 s c c2,
    StarOf M p m2 s c c2 ->
    forall fuel acc z,
      String.length (m2 ++ s) < fuel ->
      k (acc ++ m2) (lastOr p m2) s c2 = Some z ->
      exists z', starLoop R mr k fuel acc p (m2 ++ s) c = Some z'.
Proof.
  intros Hc. induction 1 as [p s c | p m1 m2 s c c1 c2 Hne HM HS IH];
    intros fuel acc z Hf Hk.
  - destruct fuel as [|f]; [lia|]. rewrite starLoop_step.
    destruct (mr p _ c _) as [z1|]; [eauto|].
    rewrite append_nil_r in Hk. simpl in *. eauto.
  - destruct fuel as [|f]; [lia|]. rewrite starLoop_step.
    rewrite append_assoc.
    assert (Hlen : String.length (m2 ++ s) < f).
    { rewrite append_assoc, length_append in Hf.
      destruct m1; [congruence|]. simpl in Hf. lia. }
    rewrite <- append_assoc, lastOr_append in Hk.
    destruct (IH f (acc ++ m1) z Hlen Hk) as [z2 Hz2].
    destruct (Hc p m1 (m2 ++ s) c c1
                (fun m0 p' s' c' =>
                   if (m0 =? "")%string then None
                   else starLoop R mr k f (acc ++ m0) p' s' c') z2 HM)
      as [z3 Hz3].
    + apply String.eqb_neq in Hne. rewrite Hne. exact Hz2.
    + rewrite Hz3. eauto.
Qed.

Lemma oneChar_sound (p : ascii -> bool) rest caps (k : Continuation R) z :
  oneChar R p rest caps k = Some z ->
  exists x tl, rest = String x tl /\ p x = true
               /\ k (String x "") (Some x) tl caps = Some z.
Proof.
  unfold oneChar. destruct rest as [|x tl]; [discriminate|].
  destruct (p x) eqn:E; [|discriminate]. eauto.
Qed.

Lemma rmatch_Plus (r' : regex) prev rest caps (k : Continuation R) :
  rmatch ic R (Plus r') prev rest caps k =
    rmatch ic R r' prev rest caps (fun m p s c =>
      starLoop R (rmatch ic R r') k (S (String.length s)) m p s c).
Proof. reflexivity. Qed.

(** Whatever the matcher finds is a match of the pattern. *)
Lemma rmatch_sound (r : regex) : SoundFor R (rmatch ic R r) (Matches ic r).
Proof.
  induction r as [| ch | negated cs | | | r1 IH1 r2 IH2 | r1 IH1 r2 IH2
                  | r' IH | n r' IH];
    intros prev rest caps k z H;
    [simpl in H .. | rewrite rmatch_Plus in H | simpl in H].
  - exists "", rest, caps. simpl. auto.
  - apply oneChar_sound in H as [x [tl [-> [Hp Hk]]]].
    exists (String x ""), tl, caps. simpl. eauto 6.
  - apply oneChar_sound in H as [x [tl [-> [Hp Hk]]]].
    exists (String x ""), tl, caps. simpl. eauto 6.
  - apply oneChar_sound in H as [x [tl [-> [Hp Hk]]]].
    exists (String x ""), tl, caps. simpl. eauto 6.
  - destruct (xorb _ _) eqn:X; [|discriminate].
    exists "", rest, caps. simpl. auto.
  - apply IH1 in H as [m1 [s1 [c1 [-> [HM1 H]]]]].
    apply IH2 in H as [m2 [s2 [c2 [-> [HM2 H]]]]].
    exists (m1 ++ m2), s2, c2. repeat split.
    + symmetry. apply append_assoc.
    + simpl. eauto 7.
    + rewrite lastOr_append. exact H.
  - destruct (rmatch ic R r1 prev rest caps k) as [z1|] eqn:E.
    + injection H as ->.
      apply IH1 in E as [m [s [c' [-> [HM Hk]]]]].
      exists m, s, c'. simpl. auto.
    + apply IH2 in H as [m [s [c' [-> [HM Hk]]]]].
      exists m, s, c'. simpl. auto.
  - apply IH in H as [m1 [s1 [c1 [-> [HM1 H]]]]].
    apply (starLoop_sound _ _ k IH) in H as [m2 [s2 [c2 [-> [HS H]]]]].
    exists (m1 ++ m2), s2, c2. repeat split.
    + symmetry. apply append_assoc.
    + simpl. eauto 7.
    + rewrite lastOr_append. exact H.
  - apply IH in H as [m [s [c' [-> [HM Hk]]]]].
    exists m, s, ((n, m) :: c'). simpl. eauto.
Qed.

(** Where the pattern has a match on which the continuation succeeds, the
    matcher succeeds: the fuel of a repetition is enough. *)
Lemma rmatch_complete (r : regex) :
  CompleteFor R (rmatch ic R r) (Matches ic r).
Proof.
  induction r as [| ch | negated cs | | | r1 IH1 r2 IH2 | r1 IH1 r2 IH2
                  | r' IH | n r' IH];
    intros prev m s caps c' k z HM Hk; simpl in HM;
    [simpl rmatch .. | rewrite rmatch_Plus | simpl rmatch].
  - destruct HM as [-> ->]. simpl in *. eauto.
  - destruct HM as [x [-> [-> Hp]]]. simpl in *. rewrite Hp. eauto.
  - destruct HM as [x [-> [-> Hp]]]. simpl in *. rewrite Hp. eauto.
  - destruct HM as [x [-> [-> Hp]]]. simpl in *. rewrite Hp. eauto.
  - destruct HM as [-> [-> Hp]]. simpl in *. rewrite Hp. eauto.
  - destruct HM as [m1 [m2 [c1 [-> [HM1 HM2]]]]].
    rewrite append_assoc. rewrite lastOr_append in Hk.
    destruct (IH2 _ _ _ _ _ (fun m2' p2 s2 c2 => k (m1 ++ m2') p2 s2 c2)
                z HM2 Hk) as [z2 Hz2].
    eapply IH1; eauto.
  - destruct HM as [HM|HM].
    + destruct (IH1 _ _ _ _ _ k z HM Hk) as [z1 ->]. eauto.
    + destruct (rmatch ic R r1 prev (m ++ s) caps k); eauto.
  - destruct HM as [m1 [m2 [c1 [-> [HM1 HS]]]]].
    rewrite append_assoc. rewrite lastOr_append in Hk.
    destruct (starLoop_complete _ _ k IH _ _ _ _ _ HS
                (S (String.length (m2 ++ s))) m1 z (Nat.lt_succ_diag_r _) Hk)
      as [z2 Hz2].
    eapply IH; eauto.
  - destruct HM as [c1 [HM ->]]. eapply IH; eauto.
Qed.
End MatcherFacts.

Lemma matchAt_sound (re : RegExp) prev rest m s c :
  matchAt re prev rest = Some (m, s, c) ->
  rest = m ++ s /\ Matches (ignoreCase re) (source re) prev m s [] c.
Proof.
  unfold matchAt. intros H.
  apply rmatch_sound in H as [m' [s' [c' [-> [HM Hk]]]]].
  injection Hk as <- <- <-. auto.
Qed.

Lemma matchAt_complete (re : RegExp) prev m s c :
  Matches (ignoreCase re) (source re) prev m s [] c ->
  exists z, matchAt re prev (m ++ s) = Some z.
Proof.
  unfold matchAt. intros HM.
  eapply rmatch_complete; [exact HM | reflexivity].
Qed.

(* ================================================================= *)
(** ** How a match depends on its context *)

Lemma isWordAfter_context (m s s' : string) :
  isWordAfter s = isWordAfter s' -> isWordAfter (m ++ s) = isWordAfter (m ++ s').
Proof. destruct m; auto. Qed.

Lemma isWordBefore_context (p p' : option ascii) (m : string) :
  isWordBefore p = isWordBefore p' ->
  isWordBefore (lastOr p m) = isWordBefore (lastOr p' m).
Proof. destruct m; auto. Qed.

Lemma StarOf_context
    (M : option ascii -> string -> string -> Captures -> Captures -> Prop) :
  (forall p p' m s s' c c',
      isWordBefore p = isWordBefore p' -> isWordAfter s = isWordAfter s' ->
      M p m s c c' -> M p' m s' c c') ->
  forall p m s c c',
    StarOf M p m s c c' ->
    forall p' s',
      isWordBefore p = isWordBefore p' -> isWordAfter s = isWordAfter s' ->
      StarOf M p' m s' c c'.
Proof.
  intros HM. induction 1 as [p s c | p m1 m2 s c c1 c2 Hne H1 HS IH];
    intros p' s' Hp Hs.
  - constructor.
  - econstructor; [exact Hne | | ].
    + eapply HM; [exact Hp | apply isWordAfter_context, Hs | exact H1].
    + apply IH; [apply isWordBefore_context, Hp | exact Hs].
Qed.

(** A match sees its context only through the class, word character or
    not, of the code units next to it. *)
Lemma Matches_context (ic : bool) (r : regex) :
  forall p p' m s s' c c',
    isWordBefore p = isWordBefore p' -> isWordAfter s = isWordAfter s' ->
    Matches ic r p m s c c' -> Matches ic r p' m s' c c'.
Proof.
  induction r as [| ch | negated cs | | | r1 IH1 r2 IH2 | r1 IH1 r2 IH2
                  | r' IH | n r' IH];
    intros p p' m s s' c c' Hp Hs H; simpl in *; auto.
  - destruct H as [? [? H]]. repeat split; auto. congruence.
  - destruct H as [m1 [m2 [c1 [-> [H1 H2]]]]].
    exists m1, m2, c1. repeat split.
    + eapply IH1; [exact Hp | apply isWordAfter_context, Hs | exact H1].
    + eapply IH2; [apply isWordBefore_context, Hp | exact Hs | exact H2].
  - destruct H as [H|H]; [left; eapply IH1 | right; eapply IH2]; eauto.
  - destruct H as [m1 [m2 [c1 [-> [H1 H2]]]]].
    exists m1, m2, c1. repeat split.
    + eapply IH; [exact Hp | apply isWordAfter_context, Hs | exact H1].
    + eapply StarOf_context;
        [exact IH | exact H2 | apply isWordBefore_context, Hp | exact Hs].
  - destruct H as [c1 [H ->]]. exists c1. split; [|reflexivity].
    eapply IH; eauto.
Qed.

Lemma isWordAfter_nonempty (m s s' : string) :
  m <> "" -> isWordAfter (m ++ s) = isWordAfter (m ++ s').
Proof. destruct m; [congruence | reflexivity]. Qed.

Lemma append_nonempty_r (a b : string) : b <> "" -> a ++ b <> "".
Proof. destruct a, b; simpl; congruence. Qed.

(** A pattern that ends by consuming a code unit matches a non-empty text,
    whatever follows. *)
Lemma Matches_end (ic : bool) (r : regex) :
  endsWithChar r = true ->
  forall p m s c c',
    Matches ic r p m s c c' ->
    m <> "" /\ forall s', Matches ic r p m s' c c'.
Proof.
  induction r as [| ch | negated cs | | | r1 IH1 r2 IH2 | r1 IH1 r2 IH2
                  | r' IH | n r' IH];
    intros He p m s c c' H; simpl in *; try discriminate.
  - destruct H as [x [-> H]]. split; [discriminate | eauto].
  - destruct H as [x [-> H]]. split; [discriminate | eauto].
  - destruct H as [x [-> H]]. split; [discriminate | eauto].
  - destruct H as [m1 [m2 [c1 [-> [H1 H2]]]]].
    destruct (IH2 He _ _ _ _ _ H2) as [Hne H2'].
    split; [apply append_nonempty_r, Hne|].
    intros s'. exists m1, m2, c1. repeat split; [|apply H2'].
    eapply Matches_context;
      [reflexivity | apply isWordAfter_nonempty, Hne | exact H1].
  - apply andb_true_iff in He as [He1 He2].
    destruct H as [H|H].
    + destruct (IH1 He1 _ _ _ _ _ H) as [Hne H']. split; auto.
    + destruct (IH2 He2 _ _ _ _ _ H) as [Hne H']. split; auto.
  - destruct H as [c1 [H ->]].
    destruct (IH He _ _ _ _ _ H) as [Hne H']. split; eauto.
Qed.

(* ================================================================= *)
(** ** Scanning and replacing *)

Lemma scanFrom_step (f : nat) (re : RegExp) (prev : option ascii)
    (rest : string) :
  scanFrom (S f) re prev rest =
    let advance :=
      match rest with
      | "" => []
      | String c tl => Skipped c :: scanFrom f re (Some c) tl
      end in
    match matchAt re prev rest with
    | Some (m, rest', caps) =>
        Matched m caps ::
          (if (m =? "")%string then advance
           else scanFrom f re (lastOr prev m) rest')
    | None => advance
    end.
Proof. reflexivity. Qed.

(** Every match a scan reports is a match of the pattern somewhere. *)
Lemma scanFrom_matched (re : RegExp) (m : string) (caps : Captures) :
  forall fuel prev rest,
    In (Matched m caps) (scanFrom fuel re prev rest) ->
    exists p s, Matches (ignoreCase re) (source re) p m s [] caps.
Proof.
  induction fuel as [|f IH]; intros prev rest H; [destruct H|].
  rewrite scanFrom_step in H. cbv zeta in H.
  assert (Hadv : In (Matched m caps)
                   match rest with
                   | "" => []
                   | String c tl => Skipped c :: scanFrom f re (Some c) tl
                   end ->
                 exists p s, Matches (ignoreCase re) (source re) p m s [] caps).
  { destruct rest as [|c tl]; [intros []|].
    intros [Hd|Hi]; [discriminate | eauto]. }
  destruct (matchAt re prev rest) as [[[m0 rest'] caps0]|] eqn:E; [|auto].
  destruct H as [Hd|H].
  - injection Hd as -> ->. apply matchAt_sound in E as [_ HM]. eauto.
  - destruct (m0 =? "")%string; eauto.
Qed.

Lemma matchesOf_In (m : string) (caps : Captures) (items : list ScanItem) :
  In (m, caps) (matchesOf items) -> In (Matched m caps) items.
Proof.
  induction items as [|[c|m0 caps0] tl IH]; simpl; auto.
  intros [H|H]; [injection H as -> ->; auto | auto].
Qed.

Lemma matchAll_matched (text : string) (re : RegExp) m caps :
  In (m, caps) (matchAll text re) ->
  exists p s, Matches (ignoreCase re) (source re) p m s [] caps.
Proof.
  unfold matchAll, scan. intros H.
  eapply scanFrom_matched, matchesOf_In, H.
Qed.

(** Where the text a pattern substitutes for a match always departs from
    the match itself, replacing in a text that has a match at its start
    changes the text. *)
Lemma replace_changes (re : RegExp) (template x : string) :
  (exists z, matchAt re None x = Some z) ->
  (forall p m s c,
      Matches (ignoreCase re) (source re) p m s [] c ->
      forall X Y,
        getSubstitution m c (groupCount (source re)) template ++ X <> m ++ Y) ->
  replace x re template <> x.
Proof.
  intros [[[m s] c] E] Hsub. unfold replace, scan.
  rewrite scanFrom_step, E. cbv zeta.
  apply matchAt_sound in E as [-> HM].
  simpl substitute. apply Hsub with (p := None) (s := s). exact HM.
Qed.

(* ================================================================= *)
(** ** The fuel of [split] *)

Lemma snoc_not_empty (cur : string) (c : ascii) :
  (cur ++ String c "" =? "")%string = false.
Proof. destruct cur; reflexivity. Qed.

(** The loop of [split] gives the same pieces for any fuel above its
    measure: the fuel [split] starts it with never runs out. *)
Lemma splitLoop_fuel (re : RegExp) :
  forall f1 f2 cur prev rest,
    splitMeasure cur rest < f1 -> splitMeasure cur rest < f2 ->
    splitLoop f1 re cur prev rest = splitLoop f2 re cur prev rest.
Proof.
  induction f1 as [|f1 IH]; intros f2 cur prev rest H1 H2; [lia|].
  destruct f2 as [|f2]; [lia|].
  destruct rest as [|c tl]; [reflexivity|].
  rewrite !splitLoop_step.
  assert (Hadv : splitLoop f1 re (cur ++ String c "") (Some c) tl
                 = splitLoop f2 re (cur ++ String c "") (Some c) tl).
  { apply IH; unfold splitMeasure in *; rewrite snoc_not_empty;
      simpl String.length in *; destruct (cur =? "")%string; lia. }
  destruct (matchAt re prev (String c tl)) as [[[m rest'] caps]|] eqn:E;
    [|exact Hadv].
  destruct ((m =? "")%string && (cur =? "")%string) eqn:B; [exact Hadv|].
  f_equal. f_equal.
  apply matchAt_sound in E as [E _].
  assert (Hlen : String.length (String c tl)
                 = String.length m + String.length rest')
    by (rewrite E; apply length_append).
  apply IH; unfold splitMeasure in *; simpl (("" =? "")%string);
    cbv iota; destruct m as [|x m]; simpl in B, Hlen;
    try (rewrite B in *); simpl String.length in *; lia.
Qed.

Lemma split_fuel (re : RegExp) (s : string) (extra : nat) :
  s <> "" ->
  splitLoop (2 * String.length s + 1 + extra) re "" None s = split s re.
Proof.
  destruct s as [|c s]; [congruence|]. intros _. unfold split.
  apply splitLoop_fuel; unfold splitMeasure; simpl; lia.
Qed.

(* ================================================================= *)
(** ** When the spelling pass returns *)

Lemma inherited_not_own (key : string) :
  In key objectPrototypeProperties ->
  ownProperty spellingCorrections key = None.
Proof.
  intros H.
  assert (F : Forall (fun k => ownProperty spellingCorrections k = None)
                objectPrototypeProperties)
    by (repeat constructor).
  rewrite Forall_forall in F. exact (F _ H).
Qed.

Lemma preserveCase_string (w v : string) :
  exists o, preserveCase w (JsString v) = Ok o.
Proof.
  destruct w as [|c w].
  - eexists. vm_compute. reflexivity.
  - eexists.
    exact (preserveCase_cases (String c w) v ltac:(discriminate)).
Qed.

Lemma correctWord_returns (w : string) :
  inheritsProperty w = false -> exists r, correctWord w = Ok r.
Proof.
  unfold inheritsProperty, correctWord, getProperty. intros H.
  destruct (ownProperty spellingCorrections (toLowerCase w)) as [v|] eqn:E.
  - destruct (toBoolean (JsString v)); [|eauto].
    destruct (preserveCase_string w v) as [o ->]. simpl. eauto.
  - rewrite H. simpl. eauto.
Qed.

Lemma correctWord_throws (w : string) :
  inheritsProperty w = true -> exists e, correctWord w = Throw e.
Proof.
  unfold inheritsProperty, correctWord, getProperty. intros H.
  assert (Hin : In (toLowerCase w) objectPrototypeProperties).
  { apply existsb_exists in H as [p [Hp E]].
    apply String.eqb_eq in E. subst p. exact Hp. }
  rewrite (inherited_not_own _ Hin), H. cbn [toBoolean].
  destruct (preserveCase_object w ("Object.prototype." ++ toLowerCase w))
    as [e ->].
  simpl. eauto.
Qed.

(** The spelling pass throws exactly when the lower-case form of some token
    names an inherited property; otherwise it returns. *)
Lemma mapWords_outcome (ws : list string) :
  (forallb (fun w => negb (inheritsProperty w)) ws = true ->
   exists r, mapWords ws = Ok r)
  /\ (forallb (fun w => negb (inheritsProperty w)) ws = false ->
      exists e, mapWords ws = Throw e).
Proof.
  induction ws as [|w ws [IHok IHthrow]];
    [split; [intros _; eexists; reflexivity | discriminate]|].
  rewrite mapWords_cons. simpl forallb.
  destruct (inheritsProperty w) eqn:Hw; simpl.
  - split; [discriminate|]. intros _.
    destruct (correctWord_throws w Hw) as [e ->]. simpl. eauto.
  - destruct (correctWord_returns w Hw) as [r ->]. simpl. split; intros H.
    + destruct (IHok H) as [rs ->]. simpl. eauto.
    + destruct (IHthrow H) as [e ->]. simpl. eauto.
Qed.

Lemma spellCorrect_outcome (t : string) :
  (forallb (fun w => negb (inheritsProperty w)) (split t wordBoundaryRe) = true
   -> exists r, spellCorrect t = Ok r)
  /\ (forallb (fun w => negb (inheritsProperty w)) (split t wordBoundaryRe)
      = false -> exists e, spellCorrect t = Throw e).
Proof.
  unfold spellCorrect.
  destruct (mapWords_outcome (split t wordBoundaryRe)) as [Hok Hthrow].
  split; intros H.
  - destruct (Hok H) as [r ->]. simpl. eauto.
  - destruct (Hthrow H) as [e ->]. simpl. eauto.
Qed.

Lemma toLowerChar_not_upper (c : ascii) : isUpperLetter (toLowerChar c) = false.
Proof. each_char c. Qed.

Lemma toLowerCase_not_upper (w : string) :
  allChars (fun c => negb (isUpperLetter c)) (toLowerCase w) = true.
Proof.
  unfold toLowerCase. induction w as [|c w IH]; [reflexivity|].
  simpl. rewrite toLowerChar_not_upper, IH. reflexivity.
Qed.

(** Of the inherited names only two are their own lower-case form. *)
Lemma inheritsProperty_names (w : string) :
  inheritsProperty w = true ->
  toLowerCase w = "constructor" \/ toLowerCase w = "__proto__".
Proof.
  unfold inheritsProperty. intros H.
  apply existsb_exists in H as [p [Hp E]]. apply String.eqb_eq in E.
  pose proof (toLowerCase_not_upper w) as L. rewrite <- E in *.
  simpl in Hp.
  repeat (destruct Hp as [<-|Hp]; [auto; try (vm_compute in L; discriminate L)|]).
  destruct Hp.
Qed.

(* ================================================================= *)
(** ** The shape of a grammar match *)

Lemma star_whiteSpace (ic : bool) p m s c c' :
  StarOf (Matches ic WhiteSpaceEsc) p m s c c' ->
  allChars isWhiteSpace m = true /\ c' = c.
Proof.
  induction 1 as [p s c | p m1 m2 s c c1 c2 Hne H1 HS [IHa IHc]].
  - auto.
  - simpl in H1. destruct H1 as [x [-> [-> Hx]]].
    simpl. rewrite Hx. auto.
Qed.

Lemma plus_whiteSpace (ic : bool) p m s c c' :
  Matches ic (Plus WhiteSpaceEsc) p m s c c' ->
  m <> "" /\ allChars isWhiteSpace m = true /\ c' = c.
Proof.
  intros H. cbn [Matches] in H.
  destruct H as [m1 [m2 [c1 [-> [[x [-> [-> Hx]]] HS]]]]].
  apply (star_whiteSpace ic) in HS as [Ha ->].
  simpl. rewrite Hx. split; [discriminate|]. split; [exact Ha | reflexivity].
Qed.

(** Every grammar pattern is a word boundary, a head, a run of white space
    and a tail. *)
Lemma rule_shape (hd tl : regex) p m s c0 c :
  Matches true (Cat WordBoundary (Cat hd (Cat (Plus WhiteSpaceEsc) tl)))
    p m s c0 c ->
  exists h ws t c1,
    m = h ++ ws ++ t
    /\ ws <> "" /\ allChars isWhiteSpace ws = true
    /\ xorb (isWordBefore p) (isWordAfter (m ++ s)) = true
    /\ Matches true hd p h ((ws ++ t) ++ s) c0 c1
    /\ Matches true tl (lastOr (lastOr p h) ws) t s c1 c.
Proof.
  intros H. cbn [Matches] in H.
  destruct H as [m0 [m1 [c2 [-> [[-> [-> Hb]] H]]]]].
  destruct H as [h [m2 [c1 [-> [Hh H]]]]].
  destruct H as [ws [t [c3 [-> [Hws Ht]]]]].
  apply (plus_whiteSpace true) in Hws as [Hne [Hall ->]].
  exists h, ws, t, c1. simpl in *. repeat split; auto.
Qed.

Lemma canonicalize_eqb (x ch : ascii) :
  (canonicalize true x =? canonicalize true ch)%char = true ->
  toUpperChar x = toUpperChar ch.
Proof. unfold canonicalize. apply Ascii.eqb_eq. Qed.

Lemma lit_matches (w : string) :
  forall p h s c c',
    w <> "" -> Matches true (lit w) p h s c c' -> ciEq h w /\ c' = c.
Proof.
  unfold ciEq.
  induction w as [|ch w IH]; intros p h s c c' Hne H; [congruence|].
  destruct w as [|ch' w'].
  - cbn [lit Matches] in H. destruct H as [x [-> [-> Hx]]].
    apply canonicalize_eqb in Hx. unfold toUpperCase. simpl.
    rewrite Hx. auto.
  - change (lit (String ch (String ch' w')))
      with (Cat (Chr ch) (lit (String ch' w'))) in H.
    cbn [Matches] in H.
    destruct H as [m1 [m2 [c1 [-> [[x [-> [-> Hx]]] H2]]]]].
    apply IH in H2 as [E ->]; [|discriminate].
    apply canonicalize_eqb in Hx. unfold toUpperCase in *.
    simpl. rewrite Hx. simpl in E. rewrite E. auto.
Qed.

Lemma isWhiteSpace_toUpperChar (c : ascii) :
  isWhiteSpace (toUpperChar c) = isWhiteSpace c.
Proof. each_char c. Qed.

Lemma isWordChar_toUpperChar (c : ascii) :
  isWordChar (toUpperChar c) = isWordChar c.
Proof. each_char c. Qed.

Lemma countWhiteSpace_toUpperCase (s : string) :
  countWhiteSpace (toUpperCase s) = countWhiteSpace s.
Proof.
  unfold toUpperCase. induction s as [|c s IH]; simpl; [reflexivity|].
  rewrite isWhiteSpace_toUpperChar, IH. reflexivity.
Qed.

Lemma isWordAfter_toUpperCase (s : string) :
  isWordAfter (toUpperCase s) = isWordAfter s.
Proof. destruct s; simpl; [reflexivity | apply isWordChar_toUpperChar]. Qed.

Lemma lastOr_toUpperCase (p : option ascii) (s : string) :
  isWordBefore (lastOr (option_map toUpperChar p) (toUpperCase s))
  = isWordBefore (lastOr p s).
Proof.
  revert p. unfold toUpperCase.
  induction s as [|c s IH]; intros p; simpl.
  - destruct p; simpl; [apply isWordChar_toUpperChar | reflexivity].
  - apply (IH (Some c)).
Qed.

Lemma endsInWord_toUpperCase (s : string) :
  endsInWord (toUpperCase s) = endsInWord s.
Proof. apply (lastOr_toUpperCase None). Qed.

Lemma toUpperCase_nonempty (a b : string) :
  toUpperCase a = toUpperCase b -> b <> "" -> a <> "".
Proof. unfold toUpperCase. destruct a, b; simpl; congruence. Qed.

(** What being equal, up to case, to a word [w] of the patterns gives. *)
Lemma ciEq_facts (h w : string) :
  ciEq h w -> w <> "" ->
  h <> ""
  /\ countWhiteSpace h = countWhiteSpace w
  /\ isWordAfter h = isWordAfter w
  /\ endsInWord h = endsInWord w.
Proof.
  unfold ciEq. intros E Hw. repeat split.
  - eapply toUpperCase_nonempty; eauto.
  - rewrite <- (countWhiteSpace_toUpperCase h), E.
    apply countWhiteSpace_toUpperCase.
  - rewrite <- (isWordAfter_toUpperCase h), E. apply isWordAfter_toUpperCase.
  - rewrite <- (endsInWord_toUpperCase h), E. apply endsInWord_toUpperCase.
Qed.

Lemma countWhiteSpace_append (a b : string) :
  countWhiteSpace (a ++ b) = countWhiteSpace a + countWhiteSpace b.
Proof. induction a as [|c a IH]; simpl; [reflexivity | rewrite IH; lia]. Qed.

Lemma differAt_neq (a b : string) :
  forall X Y,
    differAt (toUpperCase a) (toUpperCase b) = true -> a ++ X <> b ++ Y.
Proof.
  revert b. unfold toUpperCase.
  induction a as [|x a IH]; intros b X Y H; [discriminate|].
  destruct b as [|y b]; [discriminate|]. simpl in H.
  intros E. simpl in E. injection E as -> E.
  rewrite Ascii.eqb_refl in H. simpl in H. exact (IH _ _ _ H E).
Qed.

(** The text substituted for "white space, then an old word" is "a space,
    then a new word": the two differ when the new word starts with a code
    unit that is not white space and differs from the old word, up to case,
    at some position. *)
Lemma tail_differs (ws t v v' X Y : string) :
  ws <> "" -> allChars isWhiteSpace ws = true ->
  ciEq t v ->
  isWhiteSpace match v' with String x _ => x | "" => " "%char end = false ->
  differAt (toUpperCase v') (toUpperCase v) = true ->
  (" " ++ v') ++ X <> (ws ++ t) ++ Y.
Proof.
  intros Hne Hall Et Hv Hd E.
  destruct ws as [|w ws]; [congruence|]. simpl in E. injection E as _ E.
  simpl in Hall. apply andb_true_iff in Hall as [_ Hall].
  destruct ws as [|w2 ws].
  - simpl in E. revert E. apply differAt_neq.
    unfold ciEq in Et. rewrite Et. exact Hd.
  - destruct v' as [|x v']; [discriminate Hd|].
    simpl in E. injection E as -> _.
    simpl in Hall. apply andb_true_iff in Hall as [Hw _]. congruence.
Qed.

Lemma verb_tail (v : string) q t s c1 c :
  v <> "" ->
  Matches true (Cat (lit v) WordBoundary) q t s c1 c ->
  ciEq t v /\ c = c1
  /\ xorb (isWordBefore (lastOr q t)) (isWordAfter s) = true.
Proof.
  intros Hv H. cbn [Matches] in H.
  destruct H as [m1 [m2 [c2 [-> [H1 [-> [-> Hb]]]]]]].
  apply lit_matches in H1 as [E ->]; [|exact Hv].
  rewrite append_nil_r. auto.
Qed.

Lemma class_tail (negated : bool) q t s c1 c :
  Matches true (Group 1 (Cls negated vowels)) q t s c1 c ->
  exists x, t = String x "" /\ c = (1, t) :: c1
            /\ classMatches true negated vowels x = true.
Proof.
  intros H. cbn [Matches] in H.
  destruct H as [c2 [[x [-> [-> Hx]]] ->]]. eauto.
Qed.

Lemma vowel_not_whiteSpace (x : ascii) :
  classMatches true false vowels x = true -> isWhiteSpace x = false.
Proof.
  destruct x as [[] [] [] [] [] [] [] []]; vm_compute; congruence.
Qed.

Lemma countWhiteSpace_ge (ws t : string) (h : string) :
  ws <> "" -> allChars isWhiteSpace ws = true ->
  1 <= countWhiteSpace (h ++ ws ++ t).
Proof.
  intros Hne Hall. rewrite !countWhiteSpace_append.
  destruct ws as [|w ws]; [congruence|]. simpl in *.
  apply andb_true_iff in Hall as [-> _]. lia.
Qed.

(** Taking a match alone: the code unit before it was not a word
    character, and either what followed was not one, or the pattern does
    not look at what follows. *)
Lemma isolate (r : regex) p m s c :
  Matches true r p m s [] c ->
  isWordBefore p = false ->
  isWordAfter s = false \/ endsWithChar r = true ->
  Matches true r None m "" [] c.
Proof.
  intros H Hp [Hs|He].
  - eapply Matches_context; [exact Hp | exact Hs | exact H].
  - destruct (Matches_end true r He _ _ _ _ _ H) as [_ H'].
    eapply Matches_context; [exact Hp | reflexivity | apply H'].
Qed.

Lemma starts_at_boundary p (h rest : string) :
  h <> "" -> isWordAfter h = true ->
  xorb (isWordBefore p) (isWordAfter (h ++ rest)) = true ->
  isWordBefore p = false.
Proof.
  intros Hne Hw. rewrite isWordAfter_append by exact Hne. rewrite Hw.
  destruct (isWordBefore p); simpl; congruence.
Qed.

Lemma ends_at_boundary q (t s : string) :
  t <> "" -> endsInWord t = true ->
  xorb (isWordBefore (lastOr q t)) (isWordAfter s) = true ->
  isWordAfter s = false.
Proof.
  intros Hne Hw. rewrite (lastOr_nonempty q None t Hne).
  unfold endsInWord in Hw. rewrite Hw.
  destruct (isWordAfter s); simpl; congruence.
Qed.

(** The facts of a rule "pronoun, white space, verb": the pattern captures
    the pronoun, which is one of [words] up to case, and the template
    stands for the capture, a space and the new verb [v']. *)
Lemma pronoun_rule_facts (hd : regex) (words : list string)
    (v v' template msg : string) :
  let re := mkRegExp (Cat WordBoundary (Cat hd (Cat (Plus WhiteSpaceEsc)
                        (Cat (lit v) WordBoundary)))) true in
  (forall p h s c1, Matches true hd p h s [] c1 ->
     c1 = [(1, h)] /\ exists w, In w words /\ ciEq h w) ->
  (forall m0 h, getSubstitution m0 [(1, h)] (groupCount (source re)) template
                = h ++ " " ++ v') ->
  Forall (fun w => w <> "" /\ countWhiteSpace w = 0
                   /\ isWordAfter w = true) words ->
  v <> "" -> endsInWord v = true ->
  isWhiteSpace match v' with String x _ => x | "" => " "%char end = false ->
  differAt (toUpperCase v') (toUpperCase v) = true ->
  countWhiteSpace v' = 0 ->
  RuleFacts (mkRule re template msg).
Proof.
  intros re Hhd Hsub Hwords Hv Hve Hv' Hd Hc' p m s c H.
  assert (H0 := H). cbn [source pattern re] in H.
  apply rule_shape in H as [h [ws [t [c1 [-> [Hne [Hall [Hb [Hh Ht]]]]]]]]].
  apply Hhd in Hh as [-> [w [Hin Ew]]].
  apply verb_tail in Ht as [Et [-> Hb2]]; [|exact Hv].
  rewrite Forall_forall in Hwords. destruct (Hwords w Hin) as [Hw [Hwc Hwf]].
  destruct (ciEq_facts h w Ew Hw) as [Hh [Hhc [Hhf _]]].
  destruct (ciEq_facts t v Et Hv) as [Ht [_ [_ Hte]]].
  cbn [pattern replacement]. rewrite Hsub.
  split; [apply append_nonempty, Hh|].
  split; [|split; [|split]].
  - apply (isolate _ _ _ _ _ H0).
    + eapply starts_at_boundary; [exact Hh | congruence|].
      rewrite <- append_assoc. exact Hb.
    + left. eapply ends_at_boundary; [exact Ht | congruence | exact Hb2].
  - intros X Y E. rewrite !append_assoc in E. apply append_inv_head in E.
    rewrite <- !append_assoc in E. revert E.
    eapply tail_differs; eauto.
  - apply countWhiteSpace_ge; assumption.
  - intros _. rewrite countWhiteSpace_append. simpl.
    rewrite Hhc, Hwc, Hc'. reflexivity.
Qed.

Ltac head_words :=
  let H := fresh "H" in
  let E := fresh "E" in
  let c2 := fresh "c" in
  intros ? ? ? ? H; cbn [Matches] in H; destruct H as [c2 [H ->]];
  repeat (destruct H as [H|H]);
    (apply lit_matches in H as [E ->]; [|discriminate]);
    (split; [reflexivity|]); eexists; (split; [|exact E]); simpl; auto 6.

Lemma rule1_facts : RuleFacts (ruleAt 0).
Proof.
  apply (pronoun_rule_facts _ ["I"; "he"; "she"; "it"] "are" "am/is");
    try reflexivity; try discriminate.
  - head_words.
  - repeat constructor; discriminate.
Qed.

Lemma rule2_facts : RuleFacts (ruleAt 1).
Proof.
  apply (pronoun_rule_facts _ ["I"; "you"; "we"; "they"] "is" "are");
    try reflexivity; try discriminate.
  - head_words.
  - repeat constructor; discriminate.
Qed.

Lemma rule4_facts : RuleFacts (ruleAt 3).
Proof.
  apply (pronoun_rule_facts _ ["he"; "she"; "it"] "have" "has");
    try reflexivity; try discriminate.
  - head_words.
  - repeat constructor; discriminate.
Qed.

Lemma ciEq_one (h : string) (ch : ascii) :
  ciEq h (String ch "") ->
  exists x, h = String x "" /\ toUpperChar x = toUpperChar ch.
Proof.
  unfold ciEq, toUpperCase. destruct h as [|x [|y h]]; simpl; try discriminate.
  intros E. injection E as E. eauto.
Qed.

Lemma ciEq_two (h : string) (ch1 ch2 : ascii) :
  ciEq h (String ch1 (String ch2 "")) ->
  exists x y, h = String x (String y "")
              /\ toUpperChar x = toUpperChar ch1
              /\ toUpperChar y = toUpperChar ch2.
Proof.
  unfold ciEq, toUpperCase.
  destruct h as [|x [|y [|z h]]]; simpl; try discriminate.
  intros E. injection E as E1 E2. eauto.
Qed.

Lemma rule3_facts : RuleFacts (ruleAt 2).
Proof.
  intros p m s c H. assert (H0 := H).
  cbn [ruleAt nth grammarRules source pattern] in H.
  apply rule_shape in H as [h [ws [t [c1 [-> [Hne [Hall [Hb [Hh Ht]]]]]]]]].
  apply lit_matches in Hh as [Eh ->]; [|discriminate].
  apply verb_tail in Ht as [Et [-> Hb2]]; [|discriminate].
  destruct (ciEq_facts h "I" Eh ltac:(discriminate)) as [Hh [Hhc [Hhf _]]].
  destruct (ciEq_facts t "has" Et ltac:(discriminate)) as [Ht [_ [_ Hte]]].
  split; [apply append_nonempty, Hh|].
  split; [|split; [|split]].
  - apply (isolate _ _ _ _ _ H0).
    + eapply starts_at_boundary; [exact Hh | exact Hhf|].
      rewrite <- append_assoc. exact Hb.
    + left. eapply ends_at_boundary; [exact Ht | exact Hte | exact Hb2].
  - intros X Y E. apply ciEq_one in Eh as [x [-> _]].
    change (String "I" ((" " ++ "have") ++ X)
            = String x ((ws ++ t) ++ Y)) in E.
    injection E as _ E. revert E.
    exact (tail_differs ws t "has" "have" X Y Hne Hall Et eq_refl eq_refl).
  - apply countWhiteSpace_ge; assumption.
  - intros _. reflexivity.
Qed.

Lemma rule5_facts : RuleFacts (ruleAt 4).
Proof.
  intros p m s c H. assert (H0 := H).
  cbn [ruleAt nth grammarRules source pattern] in H.
  apply rule_shape in H as [h [ws [t [c1 [-> [Hne [Hall [Hb [Hh Ht]]]]]]]]].
  apply lit_matches in Hh as [Eh ->]; [|discriminate].
  apply class_tail in Ht as [v [-> [-> Hv]]].
  destruct (ciEq_facts h "a" Eh ltac:(discriminate)) as [Hh [Hhc [Hhf _]]].
  split; [apply append_nonempty, Hh|].
  split; [|split; [|split]].
  - apply (isolate _ _ _ _ _ H0).
    + eapply starts_at_boundary; [exact Hh | exact Hhf|].
      rewrite <- append_assoc. exact Hb.
    + right. reflexivity.
  - intros X Y E. apply ciEq_one in Eh as [x [-> _]].
    destruct ws as [|w ws]; [congruence|].
    change (String "a" (String "n" (String " " (String v "" ++ X)))
            = String x (String w ((ws ++ String v "") ++ Y))) in E.
    injection E as _ E _. subst w. simpl in Hall. discriminate Hall.
  - apply countWhiteSpace_ge; assumption.
  - intros _.
    change (countWhiteSpace (String "a" (String "n" (String " " (String v ""))))
            = 1).
    simpl. rewrite (vowel_not_whiteSpace v Hv). reflexivity.
Qed.

Lemma rule6_facts : RuleFacts (ruleAt 5).
Proof.
  intros p m s c H. assert (H0 := H).
  cbn [ruleAt nth grammarRules source pattern] in H.
  apply rule_shape in H as [h [ws [t [c1 [-> [Hne [Hall [Hb [Hh Ht]]]]]]]]].
  apply lit_matches in Hh as [Eh ->]; [|discriminate].
  apply class_tail in Ht as [v [-> [-> Hv]]].
  destruct (ciEq_facts h "an" Eh ltac:(discriminate)) as [Hh [Hhc [Hhf _]]].
  split; [apply append_nonempty, Hh|].
  split; [|split; [|split]].
  - apply (isolate _ _ _ _ _ H0).
    + eapply starts_at_boundary; [exact Hh | exact Hhf|].
      rewrite <- append_assoc. exact Hb.
    + right. reflexivity.
  - intros X Y E. apply ciEq_two in Eh as [x [y [-> [_ Ey]]]].
    change (String "a" (String " " (String v "" ++ X))
            = String x (String y ((ws ++ String v "") ++ Y))) in E.
    injection E as _ E _. subst y. vm_compute in Ey. discriminate Ey.
  - apply countWhiteSpace_ge; assumption.
  - intros Hcap.
    change (countWhiteSpace (String "a" (String " " (String v ""))) = 1).
    specialize (Hcap eq_refl (String v "") eq_refl). simpl in Hcap. simpl.
    destruct (isWhiteSpace v); [discriminate Hcap | reflexivity].
Qed.

Lemma grammarRules_facts : Forall RuleFacts grammarRules.
Proof.
  apply Forall_cons; [exact rule1_facts|].
  apply Forall_cons; [exact rule2_facts|].
  apply Forall_cons; [exact rule3_facts|].
  apply Forall_cons; [exact rule4_facts|].
  apply Forall_cons; [exact rule5_facts|].
  apply Forall_cons; [exact rule6_facts|].
  apply Forall_nil.
Qed.

(* ================================================================= *)
(** ** The changes recorded by the two passes *)

Lemma grammarRules_ignoreCase (rule : GrammarRule) :
  In rule grammarRules -> ignoreCase (pattern rule) = true.
Proof.
  intros H. simpl in H.
  repeat (destruct H as [<-|H]; [reflexivity|]). destruct H.
Qed.

Lemma ruleChanges_effective (rule : GrammarRule)
    (matches : list (string * Captures)) :
  RuleFacts rule -> ignoreCase (pattern rule) = true ->
  (forall m caps, In (m, caps) matches ->
     exists p s, Matches true (source (pattern rule)) p m s [] caps) ->
  Forall effective (ruleChanges rule matches).
Proof.
  intros Hf Hic. induction matches as [|[m0 caps] tl IH]; intros Hm;
    [constructor|].
  simpl. assert (IH' := IH (fun m c H => Hm m c (or_intror H))).
  destruct (negb (m0 =? "")%string); [|exact IH'].
  constructor; [|exact IH'].
  destruct (Hm m0 caps (or_introl eq_refl)) as [p [s HM]].
  destruct (Hf p m0 s caps HM) as [_ [Hiso [Hsub _]]].
  unfold effective. simpl. apply replace_changes.
  - destruct (matchAt_complete (pattern rule) None m0 "" caps) as [z Hz];
      [rewrite Hic; exact Hiso|].
    rewrite append_nil_r in Hz. exists z. exact Hz.
  - rewrite Hic. intros p' m' s' c' HM'.
    exact (proj1 (proj2 (proj2 (Hf p' m' s' c' HM')))).
Qed.

Lemma applyRule_effective (acc : Pass.t) (rule : GrammarRule) :
  In rule grammarRules ->
  Forall effective (Pass.changes acc) ->
  Forall effective (Pass.changes (applyRule acc rule)).
Proof.
  intros Hin Hacc. unfold applyRule. simpl. apply Forall_app. split; [exact Hacc|].
  pose proof grammarRules_facts as F. rewrite Forall_forall in F.
  pose proof (grammarRules_ignoreCase rule Hin) as Hic.
  apply ruleChanges_effective; [apply F, Hin | exact Hic|].
  intros m caps H. apply matchAll_matched in H. rewrite Hic in H. exact H.
Qed.

Lemma fold_applyRule_effective (rules : list GrammarRule) :
  forall acc,
    (forall r, In r rules -> In r grammarRules) ->
    Forall effective (Pass.changes acc) ->
    Forall effective (Pass.changes (fold_left applyRule rules acc)).
Proof.
  induction rules as [|r rs IH]; intros acc Hin Hacc; [exact Hacc|].
  simpl. apply IH.
  - intros r' H. apply Hin. right. exact H.
  - apply applyRule_effective; [apply Hin; left; reflexivity | exact Hacc].
Qed.

Lemma grammarCorrect_effective (text : string) :
  Forall effective (Pass.changes (grammarCorrect text)).
Proof.
  unfold grammarCorrect. apply fold_applyRule_effective; [auto | constructor].
Qed.

Lemma correctWord_effective (w o : string) (ch : list Change.t) :
  correctWord w = Ok (o, ch) -> Forall effective ch.
Proof.
  unfold correctWord. destruct (toBoolean _).
  - destruct (preserveCase w _) as [o'|]; simpl; [|discriminate].
    intros H. injection H as <- <-.
    destruct (w =? o')%string eqn:E; simpl; constructor; [|constructor].
    unfold effective. simpl. apply String.eqb_neq in E. congruence.
  - intros H. injection H as <- <-. constructor.
Qed.

Lemma mapWords_effective (ws : list string) :
  forall outs chs, mapWords ws = Ok (outs, chs) -> Forall effective chs.
Proof.
  induction ws as [|w ws IH]; intros outs chs H.
  - simpl in H. injection H as <- <-. constructor.
  - rewrite mapWords_cons in H.
    destruct (correctWord w) as [[o ch]|] eqn:Ew; simpl in H; [|discriminate].
    destruct (mapWords ws) as [[os chs']|] eqn:Ews; simpl in H; [|discriminate].
    injection H as <- <-. apply Forall_app. split.
    + eapply correctWord_effective; eauto.
    + eapply IH; eauto.
Qed.

Lemma spellCorrect_effective (text : string) (r : Pass.t) :
  spellCorrect text = Ok r -> Forall effective (Pass.changes r).
Proof.
  unfold spellCorrect.
  destruct (mapWords _) as [[outs chs]|] eqn:E; simpl; [|discriminate].
  intros H. injection H as <-. simpl. eapply mapWords_effective; eauto.
Qed.

(** C6. Every change in the result of [correct] changes something: its
    corrected text differs from its original text.  The spelling pass
    compares the two before it records a change; a grammar rule never
    substitutes for a match the match itself. *)
Theorem changes_are_effective (text : JsValue) (options : CorrectionOptions)
    (r : CorrectionResult) :
  correct text options = Ok r ->
  Forall (fun ch => Change.corrected ch <> Change.original ch) (changes r).
Proof.
  change (correct text options = Ok r -> Forall effective (changes r)).
  unfold correct.
  destruct (negb (toBoolean text) || negb (typeofIsString text)).
  - intros H. injection H as <-. constructor.
  - destruct text; try (intros H; injection H as <-; constructor).
    destruct (spellCheck options).
    + destruct (spellCorrect (trim s)) as [sp|] eqn:E; simpl; [|discriminate].
      intros H. injection H as <-. simpl. apply Forall_app. split.
      * eapply spellCorrect_effective; eauto.
      * destruct (grammarCheck options);
          [apply grammarCorrect_effective | constructor].
    + simpl. intros H. injection H as <-. simpl.
      destruct (grammarCheck options);
        [apply grammarCorrect_effective | constructor].
Qed.

Lemma changes_are_effective_witness :
  exists r,
    correct (JsString "teh cat an  apple I  has") defaultOptions = Ok r
    /\ List.length (changes r) = 3
    /\ Forall (fun ch => Change.corrected ch <> Change.original ch) (changes r).
Proof.
  eexists. split; [vm_compute; reflexivity|]. split; [reflexivity|].
  apply (changes_are_effective
           (JsString "teh cat an  apple I  has") defaultOptions).
  vm_compute. reflexivity.
Defined.

(* ================================================================= *)
(** ** The scan covers the text *)

(** A scan with its fuel accounts for every code unit of its input: the
    fuel never runs out. *)
Lemma scanFrom_covers (re : RegExp) :
  forall fuel prev rest,
    String.length rest < fuel ->
    scannedText (scanFrom fuel re prev rest) = rest.
Proof.
  induction fuel as [|f IH]; intros prev rest Hf; [lia|].
  rewrite scanFrom_step. cbv zeta.
  assert (Hadv : scannedText
                   match rest with
                   | "" => []
                   | String c tl => Skipped c :: scanFrom f re (Some c) tl
                   end = rest).
  { destruct rest as [|c tl]; [reflexivity|]. simpl.
    rewrite IH by (simpl in Hf; lia). reflexivity. }
  destruct (matchAt re prev rest) as [[[m rest'] caps]|] eqn:E; [|exact Hadv].
  apply matchAt_sound in E as [-> _]. simpl scannedText.
  destruct m as [|c m].
  - simpl. exact Hadv.
  - rewrite eqb_empty_false, IH; [reflexivity|].
    simpl in Hf. rewrite length_append in Hf. lia.
Qed.

Lemma scan_covers (re : RegExp) (s : string) : scannedText (scan re s) = s.
Proof. apply scanFrom_covers. lia. Qed.

(* ================================================================= *)
(** ** White space inside a grammar match *)

(** Whatever white space lies inside a match of a grammar rule (at least
    one code unit, possibly many), the text [replace] puts in its place has
    exactly one white-space code unit; for the sixth rule this holds when
    the code unit it captures is not itself white space. *)
Lemma grammar_match_single_space (rule : GrammarRule) (text m : string)
    (caps : Captures) :
  In rule grammarRules ->
  In (Matched m caps) (scan (pattern rule) text) ->
  (rule = ruleAt 5 ->
   forall v, getCapture 1 caps = Some v -> countWhiteSpace v = 0) ->
  1 <= countWhiteSpace m
  /\ countWhiteSpace
       (getSubstitution m caps (groupCount (source (pattern rule)))
          (replacement rule)) = 1
  /\ replace text (pattern rule) (replacement rule)
     = substitute (pattern rule) (replacement rule) (scan (pattern rule) text).
Proof.
  intros Hin Hm Hcap.
  pose proof grammarRules_facts as F. rewrite Forall_forall in F.
  apply scanFrom_matched in Hm as [p [s HM]].
  rewrite (grammarRules_ignoreCase rule Hin) in HM.
  destruct (F rule Hin p m s caps HM) as [_ [_ [_ [Hge Hone]]]].
  split; [exact Hge|]. split; [exact (Hone Hcap) | reflexivity].
Qed.

(** The collapse at work on the third rule, with three spaces. *)
Example grammar_match_single_space_example :
  In (Matched "I   has" []) (scan (pattern (ruleAt 2)) "so I   has it")
  /\ Pass.text (grammarCorrect "so I   has it") = "so I have it".
Proof.
  split; [vm_compute; right; right; right; left; reflexivity|].
  vm_compute. reflexivity.
Qed.

(** C10. The sixth rule does not always collapse the white space inside its
    match.  When two white-space code units follow [an] and a vowel comes
    next, the class [[^aeiou]] takes the second one as its capture: the
    match [an] and two spaces is replaced by [a] and two spaces, where the
    other rules, and this rule before any other code unit, leave a single
    space. *)
Theorem article_rule_keeps_white_space :
  scan (pattern (ruleAt 5)) "an  apple"
    = [Matched "an  " [(1, " ")];
       Skipped "a"%char; Skipped "p"%char; Skipped "p"%char;
       Skipped "l"%char; Skipped "e"%char]
  /\ countWhiteSpace "an  " = 2
  /\ getSubstitution "an  " [(1, " ")]
       (groupCount (source (pattern (ruleAt 5)))) (replacement (ruleAt 5))
     = "a  "
  /\ countWhiteSpace "a  " = 2
  /\ Pass.text (grammarCorrect "an  apple") = "a  apple"
  /\ Pass.text (grammarCorrect "an  dog") = "a dog".
Proof. repeat split; vm_compute; reflexivity. Qed.

(* ================================================================= *)
(** ** The sixth rule *)

(** C9. The sixth rule rewrites [an] to [a] before any code unit that is
    not a vowel letter: before a consonant letter, but also before a digit,
    before punctuation, and, when two white-space code units follow [an],
    before the second of them, whatever word comes next.  Its own message
    speaks of consonant sounds. *)
Theorem article_rule_fires_on_non_consonants :
  Pass.text (grammarCorrect "an dog") = "a dog"
  /\ Pass.text (grammarCorrect "an apple") = "an apple"
  /\ Pass.text (grammarCorrect "an 8") = "a 8"
  /\ Pass.text (grammarCorrect "an !") = "a !"
  /\ grammarCorrect "an  apple"
     = Pass.mk "a  apple"
         [Change.mk grammar "an  " "a  " (message (ruleAt 5))]
  /\ message (ruleAt 5)
     = "Article usage: use " ++ dq ++ "a" ++ dq ++ " before consonant sounds".
Proof. repeat split; vm_compute; reflexivity. Qed.

(* ================================================================= *)
(** ** Case preservation changes case only *)

Lemma toLowerChar_toUpperChar (c : ascii) :
  toLowerChar (toUpperChar c) = toLowerChar c.
Proof. each_char c. Qed.

Lemma toLowerChar_idempotent (c : ascii) :
  toLowerChar (toLowerChar c) = toLowerChar c.
Proof. each_char c. Qed.

Lemma toUpperChar_idempotent (c : ascii) :
  toUpperChar (toUpperChar c) = toUpperChar c.
Proof. each_char c. Qed.

Lemma toLowerCase_toUpperCase (s : string) :
  toLowerCase (toUpperCase s) = toLowerCase s.
Proof.
  unfold toLowerCase, toUpperCase. induction s as [|c s IH]; simpl;
    [reflexivity | rewrite toLowerChar_toUpperChar, IH; reflexivity].
Qed.

Lemma toLowerCase_idempotent (s : string) :
  toLowerCase (toLowerCase s) = toLowerCase s.
Proof.
  unfold toLowerCase. induction s as [|c s IH]; simpl;
    [reflexivity | rewrite toLowerChar_idempotent, IH; reflexivity].
Qed.

Lemma toUpperCase_idempotent (s : string) :
  toUpperCase (toUpperCase s) = toUpperCase s.
Proof.
  unfold toUpperCase. induction s as [|c s IH]; simpl;
    [reflexivity | rewrite toUpperChar_idempotent, IH; reflexivity].
Qed.

Lemma length_mapString (f : ascii -> ascii) (s : string) :
  String.length (mapString f s) = String.length s.
Proof. induction s as [|c s IH]; simpl; congruence. Qed.

Lemma casing_lower (v o : string) :
  In o (casings v) ->
  toLowerCase o = toLowerCase v /\ String.length o = String.length v.
Proof.
  unfold casings. simpl. intros [<-|[<-|[<-|[]]]].
  - split; [apply toLowerCase_toUpperCase | apply length_mapString].
  - destruct v as [|c v]; [auto|]. unfold toLowerCase. simpl.
    rewrite toLowerChar_toUpperChar. auto.
  - split; [apply toLowerCase_idempotent | apply length_mapString].
Qed.

Lemma preserveCase_casing (original correction : string) :
  exists r,
    preserveCase original (JsString correction) = Ok r
    /\ toLowerCase r = toLowerCase correction
    /\ String.length r = String.length correction
    /\ preserveCase original (JsString r) = Ok r.
Proof.
  destruct (preserveCase_string original correction) as [r Hr].
  exists r. split; [exact Hr|].
  destruct (casing_lower correction r (preserveCase_any_casings _ _ _ Hr))
    as [Hl Hn].
  split; [exact Hl|]. split; [exact Hn|].
  destruct original as [|c w].
  - vm_compute in Hr. injection Hr as <-.
    change (Ok (toUpperCase (toUpperCase correction))
            = Ok (toUpperCase correction)).
    rewrite toUpperCase_idempotent. reflexivity.
  - assert (P : forall corr,
               preserveCase (String c w) (JsString corr) =
                 Ok (if entirelyUpperCase (String c w) then toUpperCase corr
                     else if firstUpperCase (String c w) then capitalize corr
                     else toLowerCase corr))
      by (intros corr; apply preserveCase_cases; discriminate).
    clear Hl Hn. revert P Hr.
    generalize (entirelyUpperCase (String c w)) as eu.
    generalize (firstUpperCase (String c w)) as fu.
    intros fu eu P Hr. rewrite P in Hr. injection Hr as <-. rewrite P.
    destruct eu; [rewrite toUpperCase_idempotent; reflexivity|].
    destruct fu; [|rewrite toLowerCase_idempotent; reflexivity].
    destruct correction as [|x v]; [reflexivity|]. simpl.
    rewrite toUpperChar_idempotent. reflexivity.
Qed.

Lemma is7bit_mapString (f : ascii -> ascii) (s : string) :
  (forall c, (code c <? 128) = true -> (code (f c) <? 128) = true) ->
  is7bit s = true -> is7bit (mapString f s) = true.
Proof.
  intros Hf. unfold is7bit. induction s as [|c s IH]; [reflexivity|].
  simpl. intros H. apply andb_true_iff in H as [Hc Hs].
  rewrite (Hf c Hc), (IH Hs). reflexivity.
Qed.

Lemma toUpperChar_7bit (c : ascii) :
  (code c <? 128) = true -> (code (toUpperChar c) <? 128) = true.
Proof. each_char c. Qed.

Lemma toLowerChar_7bit (c : ascii) :
  (code c <? 128) = true -> (code (toLowerChar c) <? 128) = true.
Proof. each_char c. Qed.

Lemma casing_7bit (v o : string) :
  In o (casings v) -> is7bit v = true -> is7bit o = true.
Proof.
  unfold casings. simpl. intros [<-|[<-|[<-|[]]]] H.
  - apply is7bit_mapString; [exact toUpperChar_7bit | exact H].
  - destruct v as [|c v]; [reflexivity|]. unfold is7bit in *. simpl in *.
    apply andb_true_iff in H as [Hc Hv].
    rewrite (toUpperChar_7bit c Hc), Hv. reflexivity.
  - apply is7bit_mapString; [exact toLowerChar_7bit | exact H].
Qed.

(** X1. On 7-bit text [preserveCase] always returns, also for an empty
    original; its result is 7-bit text that differs from the correction in
    the case of letters only (same length, same lowercased form); and
    giving the result back as the correction returns it unchanged. *)
Theorem preserveCase_changes_case_only (original correction : string) :
  is7bit original = true ->
  is7bit correction = true ->
  exists r,
    preserveCase original (JsString correction) = Ok r
    /\ is7bit r = true
    /\ lowerCased r = lowerCased correction
    /\ String.length r = String.length correction
    /\ preserveCase original (JsString r) = Ok r.
Proof.
  intros _ Hc.
  destruct (preserveCase_casing original correction)
    as [r [Hr [Hl [Hn Hi]]]].
  exists r. split; [exact Hr|]. split.
  - exact (casing_7bit _ _ (preserveCase_any_casings _ _ _ Hr) Hc).
  - rewrite <- !toLowerCase_lowerCased. auto.
Qed.

Lemma preserveCase_changes_case_only_witness :
  is7bit "Teh" = true
  /\ is7bit "tHE" = true
  /\ exists r,
       preserveCase "Teh" (JsString "tHE") = Ok r
       /\ lowerCased r = "the"
       /\ String.length r = 3.
Proof.
  split; [reflexivity|]. split; [reflexivity|].
  destruct (preserveCase_changes_case_only "Teh" "tHE" eq_refl eq_refl)
    as [r [Hr [_ [Hl [Hn _]]]]].
  exists r. auto.
Defined.

(* ================================================================= *)
(** ** The spelling pass and the dictionary *)

Lemma dictionary_wellformed :
  Forall (fun kv =>
            ownProperty spellingCorrections (fst kv) = Some (snd kv)
            /\ fst kv <> ""
            /\ allChars isWordChar (fst kv) = true
            /\ toBoolean (JsString (snd kv)) = true
            /\ toLowerCase (snd kv) <> fst kv)
    spellingCorrections.
Proof. repeat constructor; discriminate. Qed.

Lemma homogeneous_word (w : string) :
  allChars isWordChar w = true -> homogeneous true w = true.
Proof.
  unfold homogeneous. induction w as [|c w IH]; [reflexivity|]. simpl.
  intros H. apply andb_true_iff in H as [Hc Hr]. rewrite Hc, (IH Hr).
  reflexivity.
Qed.

Lemma toLowerCase_nonempty (w : string) : toLowerCase w <> "" -> w <> "".
Proof. destruct w; [intros H; exact H | discriminate]. Qed.

(** X2. A dictionary key, in any casing, is one token, and the spelling
    pass replaces it by its dictionary value in the casing [preserveCase]
    chooses, with exactly one change; the replacement is never the word
    itself. *)
Theorem spellCorrect_dictionary_word (w k v : string) :
  In (k, v) spellingCorrections ->
  toLowerCase w = k ->
  exists o,
    preserveCase w (JsString v) = Ok o
    /\ o <> w
    /\ toLowerCase o = toLowerCase v
    /\ spellCorrect w
       = Ok (Pass.mk o [Change.mk spelling w o (spellingMessage w o)]).
Proof.
  intros Hin Hk.
  pose proof dictionary_wellformed as F. rewrite Forall_forall in F.
  destruct (F _ Hin) as [Hown [Hne [Hword [Htruthy Hdiff]]]].
  cbn [fst snd] in *.
  destruct (preserveCase_string w v) as [o Ho].
  destruct (casing_lower v o (preserveCase_any_casings _ _ _ Ho)) as [Hl _].
  assert (Hw : w <> "") by (apply toLowerCase_nonempty; congruence).
  assert (Hww : allChars isWordChar w = true)
    by (rewrite <- allChars_word_toLowerCase, Hk; exact Hword).
  assert (Hneq : o <> w) by (intros ->; congruence).
  exists o. repeat split; try assumption.
  unfold spellCorrect.
  rewrite (split_wordBoundary_runs w Hw).
  rewrite (runs_homogeneous true w Hw (homogeneous_word w Hww)).
  rewrite mapWords_cons. unfold correctWord, getProperty.
  rewrite Hk, Hown, Htruthy, Ho. simpl.
  assert (E : (w =? o)%string = false)
    by (apply String.eqb_neq; congruence).
  rewrite E. simpl. unfold join. simpl. reflexivity.
Qed.

Lemma spellCorrect_dictionary_word_witness :
  In ("recieve", "receive") spellingCorrections
  /\ toLowerCase "Recieve" = "recieve"
  /\ spellCorrect "Recieve"
     = Ok (Pass.mk "Receive"
             [Change.mk spelling "Recieve" "Receive"
                (spellingMessage "Recieve" "Receive")]).
Proof.
  assert (Hin : In ("recieve", "receive") spellingCorrections)
    by (simpl; auto).
  assert (Hk : toLowerCase "Recieve" = "recieve") by reflexivity.
  split; [exact Hin|]. split; [exact Hk|].
  destruct (spellCorrect_dictionary_word "Recieve" "recieve" "receive" Hin Hk)
    as [o [Ho [_ [_ Hs]]]].
  vm_compute in Ho. injection Ho as <-. exact Hs.
Defined.

Lemma correctWord_changes (w o : string) (chs : list Change.t) :
  correctWord w = Ok (o, chs) ->
  (chs = [] /\ o = w)
  \/ (chs = [Change.mk spelling w o (spellingMessage w o)]
      /\ o <> w
      /\ exists v, ownProperty spellingCorrections (toLowerCase w) = Some v
                   /\ preserveCase w (JsString v) = Ok o).
Proof.
  unfold correctWord, getProperty.
  destruct (ownProperty spellingCorrections (toLowerCase w)) as [v|] eqn:E.
  - destruct (toBoolean (JsString v)).
    + destruct (preserveCase w (JsString v)) as [o'|] eqn:P; simpl;
        [|discriminate].
      intros H. injection H as <- <-.
      destruct (w =? o')%string eqn:Eq; simpl.
      * left. apply String.eqb_eq in Eq. auto.
      * right. apply String.eqb_neq in Eq. repeat split; eauto.
    + intros H. injection H as <- <-. auto.
  - destruct (existsb _ _).
    + destruct (preserveCase_object w ("Object.prototype." ++ toLowerCase w))
        as [e He].
      cbn [toBoolean]. rewrite He. simpl. discriminate.
    + simpl. intros H. injection H as <- <-. auto.
Qed.

Lemma mapWords_changes (ws : list string) :
  forall outs chs,
    mapWords ws = Ok (outs, chs) ->
    List.length outs = List.length ws
    /\ List.length chs <= List.length ws
    /\ Forall (fun ch => describesHit ch /\ In (Change.original ch) ws) chs.
Proof.
  induction ws as [|w ws IH]; intros outs chs H.
  - simpl in H. injection H as <- <-. repeat split; auto.
  - rewrite mapWords_cons in H.
    destruct (correctWord w) as [[o ch]|] eqn:Ew; simpl in H; [|discriminate].
    destruct (mapWords ws) as [[os chs']|] eqn:Ews; simpl in H; [|discriminate].
    injection H as <- <-.
    destruct (IH _ _ eq_refl) as [Hl [Hc Hf]].
    assert (Hf' : Forall (fun ch0 => describesHit ch0
                            /\ In (Change.original ch0) (w :: ws)) chs').
    { eapply Forall_impl; [|exact Hf]. intros a [Ha Hi]. split; [exact Ha|].
      right. exact Hi. }
    apply correctWord_changes in Ew as [[-> ->]|[-> [Hne [v [Hv Hp]]]]].
    + simpl. repeat split; [lia | lia | exact Hf'].
    + simpl. repeat split; [lia | lia |].
      constructor; [|exact Hf'].
      split; [|left; reflexivity].
      unfold describesHit. simpl. repeat split; eauto.
Qed.

Lemma spellCorrect_hits (t : string) (r : Pass.t) :
  spellCorrect t = Ok r -> Forall describesHit (Pass.changes r).
Proof.
  unfold spellCorrect.
  destruct (mapWords _) as [[outs chs]|] eqn:E; simpl; [|discriminate].
  intros H. injection H as <-. simpl.
  destruct (mapWords_changes _ _ _ E) as [_ [_ Hf]].
  eapply Forall_impl; [|exact Hf]. intros a [Ha _]. exact Ha.
Qed.

(** X3. The spelling pass returns one output per token and at most one
    change per token; every change it records has type [spelling], names a
    token of the text that is a dictionary key up to case, carries the
    casing of the dictionary value [preserveCase] returns, and the message
    built from the two words. *)
Theorem spellCorrect_changes_describe_hits (t : string) (r : Pass.t) :
  spellCorrect t = Ok r ->
  List.length (Pass.changes r) <= List.length (split t wordBoundaryRe)
  /\ Forall (fun ch => describesHit ch
                       /\ In (Change.original ch) (split t wordBoundaryRe))
       (Pass.changes r).
Proof.
  unfold spellCorrect.
  destruct (mapWords _) as [[outs chs]|] eqn:E; simpl; [|discriminate].
  intros H. injection H as <-. simpl.
  destruct (mapWords_changes _ _ _ E) as [_ [Hc Hf]]. auto.
Qed.

Lemma spellCorrect_changes_describe_hits_witness :
  spellCorrect "Teh cat" = Ok (Pass.mk "The cat"
      [Change.mk spelling "Teh" "The" (spellingMessage "Teh" "The")])
  /\ List.length [Change.mk spelling "Teh" "The" (spellingMessage "Teh" "The")]
     <= List.length (split "Teh cat" wordBoundaryRe).
Proof.
  assert (H : spellCorrect "Teh cat" = Ok (Pass.mk "The cat"
      [Change.mk spelling "Teh" "The" (spellingMessage "Teh" "The")]))
    by (vm_compute; reflexivity).
  split; [exact H|].
  exact (proj1 (spellCorrect_changes_describe_hits "Teh cat" _ H)).
Defined.

(* ================================================================= *)
(** ** The spelling pass reports a change exactly when it makes one *)

Lemma mapWords_no_changes (ws : list string) :
  forall outs, mapWords ws = Ok (outs, []) -> outs = ws.
Proof.
  induction ws as [|w ws IH]; intros outs H.
  - simpl in H. injection H as <-. reflexivity.
  - rewrite mapWords_cons in H.
    destruct (correctWord w) as [[o ch]|] eqn:Ew; simpl in H; [|discriminate].
    destruct (mapWords ws) as [[os chs']|] eqn:Ews; simpl in H; [|discriminate].
    injection H as <- Hc. apply app_eq_nil in Hc as [-> ->].
    apply correctWord_changes in Ew as [[_ ->]|[Hd _]]; [|discriminate Hd].
    rewrite (IH _ eq_refl). reflexivity.
Qed.

Lemma mapWords_same_outputs (ws : list string) :
  forall chs, mapWords ws = Ok (ws, chs) -> chs = [].
Proof.
  induction ws as [|w ws IH]; intros chs H.
  - simpl in H. injection H as <-. reflexivity.
  - rewrite mapWords_cons in H.
    destruct (correctWord w) as [[o ch]|] eqn:Ew; simpl in H; [|discriminate].
    destruct (mapWords ws) as [[os chs']|] eqn:Ews; simpl in H; [|discriminate].
    injection H as -> -> <-.
    apply correctWord_changes in Ew as [[-> _]|[_ [Hne _]]]; [|congruence].
    rewrite (IH _ eq_refl). reflexivity.
Qed.

Lemma runs_nonempty_length (os : list string) :
  Forall (fun o => o <> "") os ->
  List.length os <= List.length (flat_map runs os).
Proof.
  induction 1 as [|o os Ho _ IH]; [simpl; lia|].
  simpl. rewrite length_app.
  destruct (runs_head o Ho) as [r [rs [-> _]]]. simpl. lia.
Qed.

Lemma join_runs (o : string) : join (runs o) = o.
Proof.
  destruct o as [|c o]; [reflexivity|].
  rewrite <- (split_wordBoundary_runs (String c o)) by discriminate.
  apply split_wordBoundary_join.
Qed.

Lemma tokenStep_nonempty (ws outs : list string) :
  Forall2 tokenStep ws outs -> Forall (fun w => w <> "") ws ->
  Forall (fun o => o <> "") outs.
Proof.
  induction 1 as [|w o ws outs Hs _ IH]; intros Hne; constructor;
    inversion Hne; subst; auto.
  destruct Hs as [[-> _]|[_ [_ Hs]]]; [assumption|].
  apply settled_parts in Hs as [Ho _]. exact Ho.
Qed.

(** If the runs of the outputs, laid end to end, are the tokens again,
    every output is its token. *)
Lemma outputs_are_tokens (ws : list string) :
  forall outs,
    List.length outs = List.length ws ->
    Forall (fun o => o <> "") outs ->
    flat_map runs outs = ws ->
    outs = ws.
Proof.
  induction ws as [|w ws IH]; intros outs Hlen Hne Hflat.
  - destruct outs; [reflexivity | discriminate Hlen].
  - destruct outs as [|o os]; [discriminate Hlen|].
    inversion Hne as [|? ? Ho Hos]; subst. simpl in Hflat, Hlen.
    destruct (runs o) as [|r rs] eqn:Er.
    + destruct (runs_head o Ho) as [r [rs [E _]]]. congruence.
    + simpl in Hflat. injection Hflat as -> Hrest.
      destruct rs as [|r2 rs].
      * simpl in Hrest.
        assert (o = w) by (rewrite <- (join_runs o), Er; reflexivity).
        subst o. f_equal. apply IH; [lia | exact Hos | exact Hrest].
      * exfalso. pose proof (runs_nonempty_length os Hos) as Hl.
        apply (f_equal (@List.length string)) in Hrest.
        simpl in Hrest. rewrite length_app in Hrest. lia.
Qed.

Lemma spellCorrect_no_changes (t : string) (r : Pass.t) :
  spellCorrect t = Ok r -> Pass.changes r = [] -> Pass.text r = t.
Proof.
  destruct t as [|c t].
  - intros H. vm_compute in H. injection H as <-. reflexivity.
  - unfold spellCorrect.
    rewrite split_wordBoundary_runs by discriminate.
    destruct (mapWords (runs (String c t))) as [[outs chs]|] eqn:E; simpl;
      [|discriminate].
    intros H. injection H as <-. simpl.
    intros ->. rewrite (mapWords_no_changes _ _ E). apply join_runs.
Qed.

(** X4. The spelling pass reports a change exactly when it changes the
    text: its list of changes is empty if and only if the text it returns
    is the text it was given. *)
Theorem spellCorrect_changes_iff_text_changes (t : string) (r : Pass.t) :
  spellCorrect t = Ok r ->
  (Pass.changes r = [] <-> Pass.text r = t).
Proof.
  destruct t as [|c t].
  - intros H. vm_compute in H. injection H as <-. split; reflexivity.
  - unfold spellCorrect.
    rewrite split_wordBoundary_runs by discriminate.
    destruct (mapWords (runs (String c t))) as [[outs chs]|] eqn:E; simpl;
      [|discriminate].
    intros H. injection H as <-. simpl. split.
    + intros ->. rewrite (mapWords_no_changes _ _ E). apply join_runs.
    + intros Hj.
      destruct (runs_chained (String c t)) as [Hh Hc].
      pose proof (chained_nonempty _ _ Hc) as Hne.
      pose proof (mapWords_steps _ _ _ Hne E) as Hsteps.
      destruct (steps_chained _ _ Hsteps None Hh Hc) as [Hoc _].
      assert (Hflat : flat_map runs outs = runs (String c t))
        by (rewrite <- (runs_join outs None Hoc), Hj; reflexivity).
      assert (Hout : outs = runs (String c t)).
      { apply outputs_are_tokens; [|eapply tokenStep_nonempty; eauto|exact Hflat].
        symmetry. eapply Forall2_length; eauto. }
      subst outs. eapply mapWords_same_outputs; eauto.
Qed.

Lemma spellCorrect_changes_iff_text_changes_witness :
  spellCorrect "the cat" = Ok (Pass.mk "the cat" [])
  /\ (Pass.changes (Pass.mk "the cat" []) = []
      <-> Pass.text (Pass.mk "the cat" []) = "the cat").
Proof.
  assert (H : spellCorrect "the cat" = Ok (Pass.mk "the cat" []))
    by (vm_compute; reflexivity).
  split; [exact H|].
  exact (spellCorrect_changes_iff_text_changes "the cat" _ H).
Defined.

(* ================================================================= *)
(** ** When the grammar pass does nothing *)

Lemma noMatch_matchesOf (items : list ScanItem) :
  noMatch items = true -> matchesOf items = [].
Proof.
  induction items as [|[c|m caps] tl IH]; simpl; auto; discriminate.
Qed.

Lemma noMatch_substitute (re : RegExp) (template : string)
    (items : list ScanItem) :
  noMatch items = true -> substitute re template items = scannedText items.
Proof.
  induction items as [|[c|m caps] tl IH]; simpl; try discriminate; auto.
  intros H. rewrite (IH H). reflexivity.
Qed.

Lemma matchesOf_nil_noMatch (items : list ScanItem) :
  matchesOf items = [] -> noMatch items = true.
Proof.
  induction items as [|[c|m caps] tl IH]; simpl; auto; discriminate.
Qed.

Lemma applyRule_noMatch (acc : Pass.t) (rule : GrammarRule) :
  noMatch (scan (pattern rule) (Pass.text acc)) = true ->
  applyRule acc rule = acc.
Proof.
  intros H. unfold applyRule, matchAll, replace.
  rewrite (noMatch_matchesOf _ H), (noMatch_substitute _ _ _ H), scan_covers.
  destruct acc as [t chs]. simpl. rewrite app_nil_r. reflexivity.
Qed.

Lemma scan_whiteSpace (items : list ScanItem) (m : string) (caps : Captures) :
  In (Matched m caps) items ->
  countWhiteSpace m <= countWhiteSpace (scannedText items).
Proof.
  induction items as [|[c|m0 caps0] tl IH]; simpl; [intros []| |].
  - intros [H|H]; [discriminate|]. specialize (IH H).
    destruct (isWhiteSpace c); lia.
  - rewrite countWhiteSpace_append. intros [H|H].
    + injection H as -> ->. lia.
    + specialize (IH H). lia.
Qed.

Lemma noMatch_or_matched (items : list ScanItem) :
  noMatch items = true \/ exists m caps, In (Matched m caps) items.
Proof.
  induction items as [|[c|m caps] tl [IH|[m' [caps' IH]]]]; simpl; eauto 7.
Qed.

Lemma rule_needs_whiteSpace (rule : GrammarRule) (text : string) :
  In rule grammarRules -> countWhiteSpace text = 0 ->
  noMatch (scan (pattern rule) text) = true.
Proof.
  intros Hin Hws.
  destruct (noMatch_or_matched (scan (pattern rule) text))
    as [H|[m [caps H]]]; [exact H|].
  pose proof (scan_whiteSpace _ _ _ H) as Hle. rewrite scan_covers in Hle.
  assert (Hcap : rule = ruleAt 5 ->
                 forall v, getCapture 1 caps = Some v -> countWhiteSpace v = 0).
  { intros _ v Hv. pose proof grammarRules_facts as F.
    rewrite Forall_forall in F.
    apply scanFrom_matched in H as [p [s HM]].
    rewrite (grammarRules_ignoreCase rule Hin) in HM.
    destruct (F rule Hin p m s caps HM) as [_ [_ [_ [Hge _]]]]. lia. }
  destruct (grammar_match_single_space rule text m caps Hin H Hcap)
    as [Hge _].
  lia.
Qed.

Lemma fold_applyRule_noMatch (rules : list GrammarRule) (acc : Pass.t) :
  (forall r, In r rules -> noMatch (scan (pattern r) (Pass.text acc)) = true) ->
  fold_left applyRule rules acc = acc.
Proof.
  induction rules as [|r rs IH]; intros H; [reflexivity|].
  simpl. rewrite (applyRule_noMatch acc r) by (apply H; left; reflexivity).
  apply IH. intros r' Hr'. apply H. right. exact Hr'.
Qed.

(** X5. Every grammar rule needs white space between two words: on a text
    with no white-space code unit the grammar pass returns the text
    unchanged and records nothing. *)
Theorem grammarCorrect_needs_whiteSpace (text : string) :
  countWhiteSpace text = 0 ->
  grammarCorrect text = Pass.mk text [].
Proof.
  intros H. unfold grammarCorrect. apply fold_applyRule_noMatch.
  intros r Hr. simpl Pass.text. apply rule_needs_whiteSpace; assumption.
Qed.

Lemma grammarCorrect_needs_whiteSpace_witness :
  countWhiteSpace "anapple,Ihas" = 0
  /\ grammarCorrect "anapple,Ihas" = Pass.mk "anapple,Ihas" [].
Proof.
  split; [reflexivity|].
  apply (grammarCorrect_needs_whiteSpace "anapple,Ihas"). reflexivity.
Defined.

Lemma ruleChanges_nil (rule : GrammarRule)
    (matches : list (string * Captures)) :
  (forall m caps, In (m, caps) matches -> m <> "") ->
  ruleChanges rule matches = [] -> matches = [].
Proof.
  destruct matches as [|[m0 caps] tl]; [reflexivity|].
  intros Hne. simpl.
  specialize (Hne m0 caps (or_introl eq_refl)).
  apply String.eqb_neq in Hne. rewrite Hne. simpl. discriminate.
Qed.

Lemma applyRule_no_changes (acc : Pass.t) (rule : GrammarRule) :
  In rule grammarRules ->
  Pass.changes (applyRule acc rule) = [] ->
  Pass.changes acc = [] /\ applyRule acc rule = acc.
Proof.
  intros Hin H. unfold applyRule in H. simpl in H.
  apply app_eq_nil in H as [Hacc Hrc]. split; [exact Hacc|].
  apply applyRule_noMatch, matchesOf_nil_noMatch.
  apply (ruleChanges_nil rule); [|exact Hrc].
  intros m caps Hm. apply matchAll_matched in Hm as [p [s HM]].
  rewrite (grammarRules_ignoreCase rule Hin) in HM.
  pose proof grammarRules_facts as F. rewrite Forall_forall in F.
  exact (proj1 (F rule Hin p m s caps HM)).
Qed.

Lemma fold_applyRule_no_changes (rules : list GrammarRule) :
  forall acc,
    (forall r, In r rules -> In r grammarRules) ->
    Pass.changes (fold_left applyRule rules acc) = [] ->
    fold_left applyRule rules acc = acc.
Proof.
  induction rules as [|r rs IH]; intros acc Hin H; [reflexivity|].
  simpl in *.
  assert (Hrs : forall r', In r' rs -> In r' grammarRules)
    by (intros r' Hr'; apply Hin; right; exact Hr').
  pose proof (IH _ Hrs H) as E. rewrite E in H |- *.
  apply applyRule_no_changes; [apply Hin; left; reflexivity | exact H].
Qed.

Lemma grammarCorrect_no_changes (text : string) :
  Pass.changes (grammarCorrect text) = [] ->
  Pass.text (grammarCorrect text) = text.
Proof.
  unfold grammarCorrect. intros H.
  rewrite (fold_applyRule_no_changes grammarRules _ (fun _ h => h) H).
  reflexivity.
Qed.

Lemma correct_unchanged (text : JsValue)
    (options : CorrectionOptions) (r : CorrectionResult) :
  correct text options = Ok r ->
  changes r = [] ->
  spellCorrected r = original r /\ corrected r = original r.
Proof.
  unfold correct.
  destruct (negb (toBoolean text) || negb (typeofIsString text)).
  - intros H. injection H as <-. auto.
  - destruct text; try (intros H; injection H as <-; auto).
    assert (Hsp : forall sp,
               (if spellCheck options then spellCorrect (trim s)
                else Ok (Pass.mk (trim s) [])) = Ok sp ->
               Pass.changes sp = [] -> Pass.text sp = trim s).
    { intros sp. destruct (spellCheck options).
      - intros Hs Hc.
        exact (spellCorrect_no_changes _ _ Hs Hc).
      - intros Hs _. injection Hs as <-. reflexivity. }
    destruct (if spellCheck options then _ else _) as [sp|] eqn:E; simpl;
      [|discriminate].
    intros H Hc. injection H as <-. simpl in *.
    apply app_eq_nil in Hc as [Hc1 Hc2].
    rewrite (Hsp sp eq_refl Hc1). split; [reflexivity|].
    destruct (grammarCheck options); [|reflexivity].
    rewrite (Hsp sp eq_refl Hc1) in *.
    rewrite (grammarCorrect_no_changes _ Hc2). reflexivity.
Qed.

(** X6. When [correct] records no change it has changed nothing: for any
    input and options, an empty list of changes comes with [spellCorrected]
    and [corrected] both equal to [original]. *)
Theorem correct_no_changes_no_edits (text : JsValue)
    (options : CorrectionOptions) (r : CorrectionResult) :
  correct text options = Ok r ->
  changes r = [] ->
  spellCorrected r = original r /\ corrected r = original r.
Proof. apply correct_unchanged. Qed.

Lemma correct_no_changes_no_edits_witness :
  correct (JsString " the cat sat ") defaultOptions
    = Ok (mkResult (JsString "the cat sat") (JsString "the cat sat")
            (JsString "the cat sat") [])
  /\ JsString "the cat sat" = JsString "the cat sat".
Proof.
  assert (H : correct (JsString " the cat sat ") defaultOptions
              = Ok (mkResult (JsString "the cat sat") (JsString "the cat sat")
                      (JsString "the cat sat") []))
    by (vm_compute; reflexivity).
  split; [exact H|].
  exact (proj2 (correct_no_changes_no_edits _ _ _ H eq_refl)).
Defined.

(* ================================================================= *)
(** ** The order and the kinds of the recorded changes *)

Lemma ruleChanges_fromRule (rule : GrammarRule)
    (matches : list (string * Captures)) :
  In rule grammarRules -> Forall fromRule (ruleChanges rule matches).
Proof.
  intros Hin. induction matches as [|[m caps] tl IH]; [constructor|].
  simpl. destruct (negb _); [|exact IH].
  constructor; [|exact IH]. split; [reflexivity|]. exists rule. auto.
Qed.

Lemma fold_applyRule_fromRule (rules : list GrammarRule) :
  forall acc,
    (forall r, In r rules -> In r grammarRules) ->
    Forall fromRule (Pass.changes acc) ->
    Forall fromRule (Pass.changes (fold_left applyRule rules acc)).
Proof.
  induction rules as [|r rs IH]; intros acc Hin Hacc; [exact Hacc|].
  simpl. apply IH.
  - intros r' H. apply Hin. right. exact H.
  - unfold applyRule. simpl. apply Forall_app. split; [exact Hacc|].
    apply ruleChanges_fromRule, Hin. left. reflexivity.
Qed.

Lemma grammarCorrect_fromRule (text : string) :
  Forall fromRule (Pass.changes (grammarCorrect text)).
Proof.
  unfold grammarCorrect.
  apply fold_applyRule_fromRule; [auto | constructor].
Qed.

(** X7. The changes [correct] returns are the spelling changes followed by
    the grammar changes: a first part of type [spelling], each describing a
    dictionary hit, then a second part of type [grammar], each carrying the
    message of a rule; a check that is off contributes nothing. *)
Theorem correct_changes_order (text : JsValue) (options : CorrectionOptions)
    (r : CorrectionResult) :
  correct text options = Ok r ->
  exists sp gr,
    changes r = (sp ++ gr)%list
    /\ Forall describesHit sp
    /\ Forall fromRule gr
    /\ (spellCheck options = false -> sp = [])
    /\ (grammarCheck options = false -> gr = []).
Proof.
  unfold correct.
  destruct (negb (toBoolean text) || negb (typeofIsString text)).
  - intros H. injection H as <-. exists [], []. simpl. auto.
  - destruct text;
      try (intros H; injection H as <-; exists [], []; simpl; auto).
    destruct (spellCheck options) eqn:Es.
    + destruct (spellCorrect (trim s)) as [sp|] eqn:E; simpl; [|discriminate].
      intros H. injection H as <-. simpl.
      exists (Pass.changes sp),
        (Pass.changes (if grammarCheck options
                       then grammarCorrect (Pass.text sp)
                       else Pass.mk (trim s) [])).
      split; [reflexivity|]. split.
      * exact (spellCorrect_hits _ _ E).
      * split; [|split; [discriminate|]].
        -- destruct (grammarCheck options);
             [apply grammarCorrect_fromRule | constructor].
        -- intros ->. reflexivity.
    + simpl. intros H. injection H as <-. simpl.
      exists [],
        (Pass.changes (if grammarCheck options
                       then grammarCorrect (trim s)
                       else Pass.mk (trim s) [])).
      split; [reflexivity|]. split; [constructor|].
      split; [|split; [reflexivity|]].
      * destruct (grammarCheck options);
          [apply grammarCorrect_fromRule | constructor].
      * intros ->. reflexivity.
Qed.

Lemma correct_changes_order_witness :
  exists r,
    correct (JsString "teh cat I has") defaultOptions = Ok r
    /\ exists sp gr,
         changes r = (sp ++ gr)%list
         /\ Forall describesHit sp /\ Forall fromRule gr.
Proof.
  eexists. split; [vm_compute; reflexivity|].
  destruct (correct_changes_order (JsString "teh cat I has") defaultOptions _
              ltac:(vm_compute; reflexivity))
    as [sp [gr [H1 [H2 [H3 _]]]]].
  exists sp, gr. auto.
Defined.

(* ================================================================= *)
(** ** Blank input, and when [correct] returns *)

Lemma trimStart_blank (s : string) :
  allChars isWhiteSpace s = true -> trimStart s = "".
Proof.
  induction s as [|c s IH]; [reflexivity|]. simpl. intros H.
  apply andb_true_iff in H as [-> Hs]. auto.
Qed.

Lemma trim_blank (s : string) : allChars isWhiteSpace s = true -> trim s = "".
Proof. intros H. unfold trim. rewrite (trimStart_blank s H). reflexivity. Qed.

(** X8. A text made of white space only is not taken by the guard (it is a
    non-empty string), yet [correct] returns the empty result for it: the
    three fields are the empty string and there are no changes, whatever the
    options. *)
Theorem correct_blank_text (s : string) (options : CorrectionOptions) :
  allChars isWhiteSpace s = true ->
  correct (JsString s) options
    = Ok (mkResult (JsString "") (JsString "") (JsString "") []).
Proof.
  intros H. unfold correct. destruct s as [|c s]; [reflexivity|].
  cbn [toBoolean typeofIsString negb orb String.eqb].
  rewrite (trim_blank _ H).
  destruct (spellCheck options), (grammarCheck options); reflexivity.
Qed.

Lemma correct_blank_text_witness :
  allChars isWhiteSpace "   " = true
  /\ correct (JsString "   ") defaultOptions
     = Ok (mkResult (JsString "") (JsString "") (JsString "") []).
Proof.
  split; [reflexivity|].
  apply (correct_blank_text "   " defaultOptions). reflexivity.
Defined.

(** X9. [correct] throws only on a string, only with the spelling check on,
    and exactly when the lower-case form of some token of the trimmed text
    names a property inherited from [Object.prototype], which can only be
    [constructor] or [__proto__]; in every other case it returns. *)
Theorem correct_outcome (text : JsValue) (options : CorrectionOptions) :
  (spellCheck options = false -> exists r, correct text options = Ok r)
  /\ (typeofIsString text = false -> exists r, correct text options = Ok r)
  /\ (forall s, text = JsString s -> spellCheck options = true ->
        forallb (fun w => negb (inheritsProperty w))
          (split (trim s) wordBoundaryRe) = true ->
        exists r, correct text options = Ok r)
  /\ (forall s, text = JsString s -> s <> "" -> spellCheck options = true ->
        forallb (fun w => negb (inheritsProperty w))
          (split (trim s) wordBoundaryRe) = false ->
        exists e, correct text options = Throw e)
  /\ (forall w, inheritsProperty w = true ->
        toLowerCase w = "constructor" \/ toLowerCase w = "__proto__").
Proof.
  split; [|split; [|split; [|split]]].
  - intros Hs. unfold correct. rewrite Hs.
    destruct (negb (toBoolean text) || negb (typeofIsString text)); [eauto|].
    destruct text; simpl; eauto.
  - intros Ht. unfold correct. rewrite Ht, orb_true_r. eauto.
  - intros s -> Hs Hf. unfold correct. rewrite Hs.
    destruct (negb (toBoolean (JsString s))
              || negb (typeofIsString (JsString s))); [eauto|].
    destruct (proj1 (spellCorrect_outcome (trim s)) Hf) as [r ->].
    simpl. eauto.
  - intros s -> Hne Hs Hf. unfold correct. rewrite Hs.
    destruct s as [|c s]; [congruence|].
    cbn [toBoolean typeofIsString negb orb String.eqb].
    destruct (proj2 (spellCorrect_outcome (trim (String c s))) Hf) as [e ->].
    simpl. eauto.
  - apply inheritsProperty_names.
Qed.

Lemma correct_outcome_witness :
  spellCheck (mkOptions false true) = false
  /\ exists r, correct (JsString "constructor") (mkOptions false true) = Ok r.
Proof.
  split; [reflexivity|].
  exact (proj1 (correct_outcome (JsString "constructor") (mkOptions false true))
           eq_refl).
Defined.

(* ================================================================= *)
(** ** The original text is the trimmed input *)

Lemma trimStart_parts (s : string) :
  exists lead,
    s = lead ++ trimStart s
    /\ allChars isWhiteSpace lead = true
    /\ startsWithWhiteSpace (trimStart s) = false.
Proof.
  induction s as [|c s [lead [E [Hl Hs]]]].
  - exists "". auto.
  - simpl. destruct (isWhiteSpace c) eqn:Hc.
    + exists (String c lead). simpl. rewrite Hc, <- E. auto.
    + exists "". simpl. auto.
Qed.

Lemma trimEnd_parts (s : string) :
  exists trail,
    s = trimEnd s ++ trail
    /\ allChars isWhiteSpace trail = true
    /\ endsWithWhiteSpace (trimEnd s) = false
    /\ (startsWithWhiteSpace s = false ->
        startsWithWhiteSpace (trimEnd s) = false).
Proof.
  induction s as [|c s [trail [E [Hl [He _]]]]].
  - exists "". auto.
  - simpl trimEnd.
    destruct (isWhiteSpace c && (trimEnd s =? "")%string) eqn:B.
    + apply andb_true_iff in B as [Hc Ht]. apply String.eqb_eq in Ht.
      rewrite Ht in E. simpl in E. subst s.
      exists (String c trail). simpl. rewrite Hc. auto.
    + exists trail. split; [simpl; rewrite <- E; reflexivity|].
      split; [exact Hl|]. split; [|simpl; auto].
      unfold endsWithWhiteSpace in *. simpl.
      destruct (trimEnd s) as [|c' t'] eqn:Et.
      * simpl. simpl in B. rewrite andb_true_r in B. exact B.
      * exact He.
Qed.

Lemma trimEnd_fixed (s : string) :
  endsWithWhiteSpace s = false -> trimEnd s = s.
Proof.
  unfold endsWithWhiteSpace.
  induction s as [|c s IH]; [reflexivity|]. simpl. intros H.
  destruct s as [|c' s'].
  - simpl in *. rewrite H. reflexivity.
  - rewrite IH by exact H. simpl. rewrite andb_false_r. reflexivity.
Qed.

Lemma trimStart_fixed (s : string) :
  startsWithWhiteSpace s = false -> trimStart s = s.
Proof. destruct s as [|c s]; simpl; [reflexivity | intros ->; reflexivity]. Qed.

(** X10. For a string input the [original] field is the input without the
    white space around it: the input is white space, [original], white
    space; [original] neither starts nor ends with white space; and trimming
    it again changes nothing, so [correct] applied to [original] has the
    same [original]. *)
Theorem correct_original_trimmed (s : string) (options : CorrectionOptions)
    (r : CorrectionResult) :
  correct (JsString s) options = Ok r ->
  exists lead t trail,
    original r = JsString t
    /\ s = lead ++ t ++ trail
    /\ allChars isWhiteSpace lead = true
    /\ allChars isWhiteSpace trail = true
    /\ startsWithWhiteSpace t = false
    /\ endsWithWhiteSpace t = false
    /\ trim t = t
    /\ forall r', correct (JsString t) options = Ok r' ->
                  original r' = JsString t.
Proof.
  intros H.
  assert (Ho : forall x r0, correct (JsString x) options = Ok r0 ->
                            original r0 = JsString (trim x)).
  { intros x r0. unfold correct. destruct x as [|c x].
    - intros E. injection E as <-. reflexivity.
    - cbn [toBoolean typeofIsString negb orb String.eqb].
      destruct (if spellCheck options then _ else _); simpl; [|discriminate].
      intros E. injection E as <-. reflexivity. }
  destruct (trimStart_parts s) as [lead [E1 [Hl Hs]]].
  destruct (trimEnd_parts (trimStart s)) as [trail [E2 [Ht [He Hst]]]].
  assert (Hfix : trim (trim s) = trim s).
  { unfold trim. rewrite (trimStart_fixed _ (Hst Hs)).
    apply trimEnd_fixed. exact He. }
  exists lead, (trim s), trail.
  split; [exact (Ho s r H)|].
  split; [unfold trim; rewrite <- E2; exact E1|].
  repeat split; auto.
  intros r' H'. rewrite (Ho _ _ H'), Hfix. reflexivity.
Qed.

Lemma correct_original_trimmed_witness :
  exists r,
    correct (JsString "  teh cat ") defaultOptions = Ok r
    /\ original r = JsString "teh cat".
Proof.
  eexists. split; [vm_compute; reflexivity|].
  destruct (correct_original_trimmed "  teh cat " defaultOptions _
              ltac:(vm_compute; reflexivity))
    as [lead [t [trail [Ho _]]]].
  reflexivity.
Defined.

(* ================================================================= *)
(** ** The two sides of a diff *)

Lemma sides_added (c : list string) :
  originalSide (map Added c) = "" /\ correctedSide (map Added c) = join c.
Proof.
  induction c as [|y c [IH1 IH2]]; [auto|]. simpl map. simpl originalSide.
  simpl correctedSide. rewrite join_cons, IH2. auto.
Qed.

Lemma sides_removed (o : list string) :
  originalSide (map Removed o) = join o /\ correctedSide (map Removed o) = "".
Proof.
  induction o as [|x o [IH1 IH2]]; [auto|]. simpl map. simpl originalSide.
  simpl correctedSide. rewrite join_cons, IH1. auto.
Qed.

Lemma lockStep_sides (o : list string) :
  forall c,
    originalSide (lockStep o c) = join o
    /\ correctedSide (lockStep o c) = join c.
Proof.
  induction o as [|x o IH]; intros c.
  - simpl lockStep. apply sides_added.
  - destruct c as [|y c].
    + rewrite lockStep_nil_r. apply sides_removed.
    + destruct (IH c) as [IH1 IH2]. simpl lockStep.
      destruct (x =? y)%string eqn:E.
      * apply String.eqb_eq in E. subst y. simpl.
        rewrite !join_cons, IH1, IH2. auto.
      * simpl. rewrite !join_cons, IH1, IH2. auto.
Qed.

Lemma matchAt_whiteSpace (prev : option ascii) (rest m rest' : string)
    (caps : Captures) :
  matchAt whiteSpaceRe prev rest = Some (m, rest', caps) ->
  rest = m ++ rest' /\ caps = [(1, m)].
Proof.
  intros H. apply matchAt_sound in H as [E HM]. split; [exact E|].
  cbn [source whiteSpaceRe ignoreCase Matches] in HM.
  destruct HM as [c1 [HM ->]].
  apply (plus_whiteSpace false) in HM as [_ [_ ->]]. reflexivity.
Qed.

Lemma splitLoop_whiteSpace_join (fuel : nat) :
  forall (cur : string) (prev : option ascii) (rest : string),
    join (splitLoop fuel whiteSpaceRe cur prev rest) = cur ++ rest.
Proof.
  induction fuel as [|f IH]; intros cur prev rest.
  - simpl. unfold join. reflexivity.
  - destruct rest as [|c tl].
    + simpl. unfold join. simpl. symmetry. apply append_nil_r.
    + rewrite splitLoop_step.
      destruct (matchAt whiteSpaceRe prev (String c tl))
        as [[[m rest'] caps]|] eqn:E.
      * apply matchAt_whiteSpace in E as [E ->].
        destruct ((m =? "")%string && (cur =? "")%string).
        -- rewrite IH. apply append_char_assoc.
        -- change (captureList (groupCount (source whiteSpaceRe)) 1 [(1, m)])
             with [m].
           simpl app. rewrite !join_cons, IH, E. reflexivity.
      * rewrite IH. apply append_char_assoc.
Qed.

Lemma split_whiteSpace_join (s : string) : join (split s whiteSpaceRe) = s.
Proof.
  destruct s as [|c s]; [reflexivity|].
  unfold split. apply splitLoop_whiteSpace_join.
Qed.

(* ================================================================= *)
(** ** The escaping of markup *)

Lemma escapeHtml_cons (c : ascii) (t : string) :
  escapeHtml (String c t) = escapeChar c ++ escapeHtml t.
Proof. reflexivity. Qed.

Lemma allChars_append (p : ascii -> bool) (a b : string) :
  allChars p (a ++ b) = allChars p a && allChars p b.
Proof.
  induction a as [|c a IH]; simpl; [reflexivity|].
  rewrite IH, andb_assoc. reflexivity.
Qed.

Lemma escapeChar_notAngle (c : ascii) : allChars notAngle (escapeChar c) = true.
Proof. each_char c. Qed.

Lemma escapeChar_cases (c : ascii) :
  (c = "&"%char /\ escapeChar c = "&amp;")
  \/ (c = "<"%char /\ escapeChar c = "&lt;")
  \/ (c = ">"%char /\ escapeChar c = "&gt;")
  \/ (c = ascii_of_nat 160 /\ escapeChar c = "&nbsp;")
  \/ (c <> "&"%char /\ escapeChar c = String c "").
Proof.
  destruct c as [[] [] [] [] [] [] [] []];
    first [ left; split; reflexivity
          | right; left; split; reflexivity
          | right; right; left; split; reflexivity
          | right; right; right; left; split; reflexivity
          | right; right; right; right; split; [discriminate | reflexivity] ].
Qed.

Lemma escapeChar_injective (a b : ascii) (x y : string) :
  escapeChar a ++ x = escapeChar b ++ y -> a = b /\ x = y.
Proof.
  destruct (escapeChar_cases a) as [[-> ->]|[[-> ->]|[[-> ->]|[[-> ->]|[Ha ->]]]]];
  destruct (escapeChar_cases b) as [[-> ->]|[[-> ->]|[[-> ->]|[[-> ->]|[Hb ->]]]]];
    simpl; intros H; try discriminate H;
    try (injection H as H; split; [reflexivity | exact H]);
    try (injection H as E _; congruence).
  injection H as -> H. auto.
Qed.

Lemma escapeHtml_injective (a : string) :
  forall b, escapeHtml a = escapeHtml b -> a = b.
Proof.
  induction a as [|x a IH]; intros b H.
  - destruct b as [|y b]; [reflexivity|]. rewrite escapeHtml_cons in H.
    destruct (escapeChar_cases y) as [[_ E]|[[_ E]|[[_ E]|[[_ E]|[_ E]]]]];
      rewrite E in H; discriminate H.
  - destruct b as [|y b].
    + rewrite escapeHtml_cons in H.
      destruct (escapeChar_cases x) as [[_ E]|[[_ E]|[[_ E]|[[_ E]|[_ E]]]]];
        rewrite E in H; discriminate H.
    + rewrite !escapeHtml_cons in H.
      apply escapeChar_injective in H as [-> H]. f_equal. apply IH, H.
Qed.

(** X12. Escaped text carries no markup of its own: the output of
    [escapeHtml] has no [<] and no [>], so a token can neither open nor
    close a tag in the diff; and escaping loses nothing, since different
    texts are escaped differently. *)
Theorem escapeHtml_safe (text : string) :
  allChars notAngle (escapeHtml text) = true
  /\ forall other, escapeHtml text = escapeHtml other -> text = other.
Proof.
  split; [|apply escapeHtml_injective].
  induction text as [|c t IH]; [reflexivity|].
  rewrite escapeHtml_cons, allChars_append, escapeChar_notAngle, IH.
  reflexivity.
Qed.

Lemma escapeHtml_safe_witness :
  escapeHtml "<b>" = escapeHtml "<b>" /\ "<b>" = "<b>".
Proof.
  split; [reflexivity|].
  exact (proj2 (escapeHtml_safe "<b>") "<b>" eq_refl).
Defined.

(* ================================================================= *)
(** ** Reading the markup of a diff *)

Lemma escaped_append (a b : string) : escaped (a ++ b) = escaped a ++ escaped b.
Proof.
  induction a as [|c a IH]; [reflexivity|]. simpl.
  rewrite IH, append_assoc. reflexivity.
Qed.

Lemma escaped_notAngle (t : string) : allChars notAngle (escaped t) = true.
Proof.
  induction t as [|c t IH]; [reflexivity|]. simpl.
  rewrite allChars_append, escapeChar_notAngle, IH. reflexivity.
Qed.

Lemma escaped_injective (a b : string) : escaped a = escaped b -> a = b.
Proof. rewrite <- !escapeHtml_escaped. apply escapeHtml_injective. Qed.


(** Text without [<] is read as it stands, into the sides of the mode. *)
Lemma readSides_text (mode : DiffMode) (e rest : string) :
  allChars notAngle e = true ->
  readSides mode None (e ++ rest)
  = (match mode with
     | InAdded => fst (readSides mode None rest)
     | _ => e ++ fst (readSides mode None rest)
     end,
     match mode with
     | InRemoved => snd (readSides mode None rest)
     | _ => e ++ snd (readSides mode None rest)
     end).
Proof.
  induction e as [|c e IH]; intros H.
  - simpl. destruct (readSides mode None rest), mode; reflexivity.
  - simpl in H. apply andb_true_iff in H as [Hc He].
    assert (E : (c =? "<")%char = false).
    { unfold notAngle in Hc. apply andb_true_iff in Hc as [Hc _].
      apply negb_true_iff in Hc. exact Hc. }
    change (readSides mode None (String c (e ++ rest))
            = (match mode with
               | InAdded => fst (readSides mode None rest)
               | _ => String c (e ++ fst (readSides mode None rest))
               end,
               match mode with
               | InRemoved => snd (readSides mode None rest)
               | _ => String c (e ++ snd (readSides mode None rest))
               end)).
    cbn [readSides]. rewrite E, (IH He).
    destruct mode; reflexivity.
Qed.

Lemma readSides_removed (mode : DiffMode) (rest : string) :
  readSides mode None
    ("<span class=" ++ dq ++ "diff-removed" ++ dq ++ ">" ++ rest)
  = readSides InRemoved None rest.
Proof. reflexivity. Qed.

Lemma readSides_added (mode : DiffMode) (rest : string) :
  readSides mode None
    ("<span class=" ++ dq ++ "diff-added" ++ dq ++ ">" ++ rest)
  = readSides InAdded None rest.
Proof. reflexivity. Qed.

Lemma readSides_close (mode : DiffMode) (rest : string) :
  readSides mode None ("</span>" ++ rest) = readSides Outside None rest.
Proof. reflexivity. Qed.

(** Reading the markup of one segment puts its text on its sides. *)
Lemma readSides_segment (d : DiffSegment) (rest : string) :
  readSides Outside None (renderSegment d ++ rest)
  = (match d with
     | Added _ => fst (readSides Outside None rest)
     | Unchanged t | Removed t => escaped t ++ fst (readSides Outside None rest)
     end,
     match d with
     | Removed _ => snd (readSides Outside None rest)
     | Unchanged t | Added t => escaped t ++ snd (readSides Outside None rest)
     end).
Proof.
  destruct d as [t|t|t].
  - exact (readSides_text Outside (escaped t) rest (escaped_notAngle t)).
  - change (renderSegment (Removed t) ++ rest)
      with ("<span class=" ++ dq ++ "diff-removed" ++ dq ++ ">"
              ++ ((escaped t ++ "</span>") ++ rest)).
    rewrite readSides_removed, append_assoc.
    rewrite (readSides_text InRemoved (escaped t) _ (escaped_notAngle t)).
    rewrite readSides_close. reflexivity.
  - change (renderSegment (Added t) ++ rest)
      with ("<span class=" ++ dq ++ "diff-added" ++ dq ++ ">"
              ++ ((escaped t ++ "</span>") ++ rest)).
    rewrite readSides_added, append_assoc.
    rewrite (readSides_text InAdded (escaped t) _ (escaped_notAngle t)).
    rewrite readSides_close. reflexivity.
Qed.

(** Reading the markup of a segment sequence gives back the two texts the
    segments stand for, as they are written in markup. *)
Lemma markupSides_segments (ds : list DiffSegment) :
  markupSides (renderSegments ds)
  = (escaped (originalSide ds), escaped (correctedSide ds)).
Proof.
  unfold markupSides. induction ds as [|d ds IH]; [reflexivity|].
  rewrite renderSegments_cons, readSides_segment, IH.
  destruct d as [t|t|t]; cbn [fst snd originalSide correctedSide];
    rewrite ?escaped_append; reflexivity.
Qed.

Lemma markupSides_generateDiff (original corrected : string) :
  original <> corrected ->
  markupSides (generateDiff original corrected)
  = (escaped original, escaped corrected).
Proof.
  intros Hne. rewrite (generateDiff_segments _ _ Hne), markupSides_segments.
  destruct (lockStep_sides (split original whiteSpaceRe)
              (split corrected whiteSpaceRe)) as [H1 H2].
  rewrite H1, H2, !split_whiteSpace_join. reflexivity.
Qed.




(** X11. The diff loses nothing of either text.  When the two texts differ,
    reading the markup [generateDiff] returns from left to right, the text
    outside the spans together with the text of the removed spans is the
    original text, and the text outside the spans together with the text of
    the added spans is the corrected text, both as markup writes them.  So
    two different pairs of differing texts never get the same markup.  The
    markup is that of a segment sequence whose unchanged and removed
    segments spell the original and whose unchanged and added segments
    spell the corrected text. *)
Theorem generateDiff_sides (original corrected : string) :
  original <> corrected ->
  markupSides (generateDiff original corrected)
  = (escaped original, escaped corrected)
  /\ (forall o c, o <> c ->
        generateDiff o c = generateDiff original corrected ->
        o = original /\ c = corrected)
  /\ (forall a b, escaped a = escaped b -> a = b)
  /\ exists segs,
       generateDiff original corrected = renderSegments segs
       /\ originalSide segs = original
       /\ correctedSide segs = corrected.
Proof.
  intros Hne. split; [exact (markupSides_generateDiff _ _ Hne)|].
  split; [|split; [exact escaped_injective|]].
  - intros o c Hoc E. apply (f_equal markupSides) in E.
    rewrite (markupSides_generateDiff _ _ Hne),
      (markupSides_generateDiff _ _ Hoc) in E.
    injection E as Eo Ec.
    split; apply escaped_injective; assumption.
  - exists (lockStep (split original whiteSpaceRe)
              (split corrected whiteSpaceRe)).
    split; [exact (generateDiff_segments _ _ Hne)|].
    destruct (lockStep_sides (split original whiteSpaceRe)
                (split corrected whiteSpaceRe)) as [H1 H2].
    rewrite H1, H2, !split_whiteSpace_join. auto.
Qed.

Lemma generateDiff_sides_witness :
  "a  cat" <> "a <cat"
  /\ markupSides (generateDiff "a  cat" "a <cat") = ("a  cat", "a &lt;cat").
Proof.
  assert (H : "a  cat" <> "a <cat") by discriminate.
  split; [exact H|].
  exact (proj1 (generateDiff_sides "a  cat" "a <cat" H)).
Defined.

(* ================================================================= *)
(** ** Neither pass empties a text *)

Lemma replacement_nonempty (rule : GrammarRule) (m : string) (caps : Captures) :
  In rule grammarRules ->
  getSubstitution m caps (groupCount (source (pattern rule))) (replacement rule)
    <> "".
Proof.
  intros Hin. simpl in Hin.
  destruct Hin as [<-|[<-|[<-|[<-|[<-|[<-|[]]]]]]]; simpl;
    try discriminate; apply append_nonempty_r; discriminate.
Qed.

Lemma substitute_nonempty (rule : GrammarRule) (items : list ScanItem) :
  In rule grammarRules -> items <> [] ->
  substitute (pattern rule) (replacement rule) items <> "".
Proof.
  intros Hin. destruct items as [|[c|m caps] tl]; [congruence| |]; intros _.
  - simpl. discriminate.
  - simpl. apply append_nonempty, replacement_nonempty, Hin.
Qed.

Lemma replace_nonempty (rule : GrammarRule) (s : string) :
  In rule grammarRules -> s <> "" ->
  replace s (pattern rule) (replacement rule) <> "".
Proof.
  intros Hin Hs. unfold replace. apply substitute_nonempty; [exact Hin|].
  intros E. apply Hs. rewrite <- (scan_covers (pattern rule) s), E.
  reflexivity.
Qed.

Lemma fold_applyRule_nonempty (rules : list GrammarRule) :
  forall acc,
    (forall r, In r rules -> In r grammarRules) ->
    Pass.text acc <> "" ->
    Pass.text (fold_left applyRule rules acc) <> "".
Proof.
  induction rules as [|r rs IH]; intros acc Hin H; [exact H|].
  simpl. apply IH.
  - intros r' Hr'. apply Hin. right. exact Hr'.
  - simpl. apply replace_nonempty; [apply Hin; left; reflexivity | exact H].
Qed.

Lemma grammarCorrect_nonempty (text : string) :
  text <> "" -> Pass.text (grammarCorrect text) <> "".
Proof.
  intros H. unfold grammarCorrect.
  apply fold_applyRule_nonempty; [auto | exact H].
Qed.

Lemma join_all_nonempty (l : list string) :
  l <> [] -> Forall (fun o => o <> "") l -> join l <> "".
Proof.
  destruct l as [|x l]; [congruence|]. intros _ F. inversion F; subst.
  rewrite join_cons. apply append_nonempty. assumption.
Qed.

Lemma spellCorrect_nonempty (t : string) (r : Pass.t) :
  t <> "" -> spellCorrect t = Ok r -> Pass.text r <> "".
Proof.
  intros Ht. unfold spellCorrect. rewrite (split_wordBoundary_runs t Ht).
  destruct (mapWords (runs t)) as [[outs chs]|] eqn:E; simpl; [|discriminate].
  intros H. injection H as <-. simpl.
  destruct (runs_chained t) as [_ Hc].
  pose proof (chained_nonempty _ _ Hc) as Hne.
  pose proof (mapWords_steps _ _ _ Hne E) as Hsteps.
  apply join_all_nonempty.
  - intros ->. inversion Hsteps as [Hr|]; subst.
    apply Ht. rewrite <- (join_runs t), <- Hr. reflexivity.
  - exact (tokenStep_nonempty _ _ Hsteps Hne).
Qed.

Lemma correct_nonempty (s : string) (options : CorrectionOptions)
    (r : CorrectionResult) :
  trim s <> "" ->
  correct (JsString s) options = Ok r ->
  exists o sp c,
    original r = JsString o /\ spellCorrected r = JsString sp
    /\ corrected r = JsString c
    /\ o <> "" /\ sp <> "" /\ c <> "".
Proof.
  intros Ht. unfold correct.
  destruct s as [|c0 s]; [contradiction Ht; reflexivity|].
  cbn [toBoolean typeofIsString negb orb String.eqb].
  set (t := trim (String c0 s)) in *.
  assert (Hsp : forall sp,
             (if spellCheck options then spellCorrect t
              else Ok (Pass.mk t [])) = Ok sp -> Pass.text sp <> "").
  { intros sp. destruct (spellCheck options).
    - apply spellCorrect_nonempty, Ht.
    - intros H. injection H as <-. exact Ht. }
  destruct (if spellCheck options then _ else _) as [sp|] eqn:E; simpl;
    [|discriminate].
  intros H. injection H as <-. simpl.
  eexists _, _, _. repeat split; try reflexivity; auto.
  destruct (grammarCheck options); [|exact Ht].
  apply grammarCorrect_nonempty. auto.
Qed.

(** X17. Neither pass empties a text.  When [correct] returns for a string
    that is not blank, its three text fields are non-empty strings: the
    spelling pass replaces a token by a non-empty word, and every grammar
    replacement holds literal text. *)
Theorem correct_keeps_text (s : string) (options : CorrectionOptions)
    (r : CorrectionResult) :
  trim s <> "" ->
  correct (JsString s) options = Ok r ->
  exists o sp c,
    original r = JsString o /\ spellCorrected r = JsString sp
    /\ corrected r = JsString c
    /\ o <> "" /\ sp <> "" /\ c <> "".
Proof. apply correct_nonempty. Qed.


Lemma correct_keeps_text_witness :
  trim " a apple " <> ""
  /\ exists r c,
       correct (JsString " a apple ") defaultOptions = Ok r
       /\ corrected r = JsString c /\ c <> "".
Proof.
  assert (Ht : trim " a apple " <> "") by (vm_compute; discriminate).
  split; [exact Ht|].
  destruct (correct (JsString " a apple ") defaultOptions) as [r|e] eqn:E;
    [|vm_compute in E; discriminate E].
  destruct (correct_keeps_text " a apple " defaultOptions r Ht E)
    as [o [sp [c [_ [_ [Hc [_ [_ Hne]]]]]]]].
  exists r, c. auto.
Defined.

(* ================================================================= *)
(** ** What the callers show *)

Lemma length_trim (s : string) : String.length (trim s) <= String.length s.
Proof.
  destruct (trimStart_parts s) as [lead [E1 _]].
  destruct (trimEnd_parts (trimStart s)) as [trail [E2 _]].
  unfold trim. rewrite E1 at 2. rewrite E2 at 2.
  rewrite !length_append. lia.
Qed.

Lemma trim_idempotent (s : string) : trim (trim s) = trim s.
Proof.
  destruct (trimStart_parts s) as [lead [E1 [Hl Hs]]].
  destruct (trimEnd_parts (trimStart s)) as [trail [E2 [Ht [He Hst]]]].
  unfold trim. rewrite (trimStart_fixed _ (Hst Hs)).
  apply trimEnd_fixed. exact He.
Qed.

Lemma trim_empty_blank (s : string) :
  trim s = "" -> allChars isWhiteSpace s = true.
Proof.
  intros H.
  destruct (trimStart_parts s) as [lead [E1 [Hl _]]].
  destruct (trimEnd_parts (trimStart s)) as [trail [E2 [Ht _]]].
  unfold trim in H. rewrite H in E2. simpl in E2. rewrite E2 in E1.
  rewrite E1, allChars_append, Hl, Ht. reflexivity.
Qed.

(** [correct] does not see the white space around its input. *)
Lemma correct_trim (s : string) (options : CorrectionOptions) :
  correct (JsString (trim s)) options = correct (JsString s) options.
Proof.
  destruct (trim s) as [|c t] eqn:E.
  - destruct s as [|c s]; [reflexivity|]. unfold correct.
    cbn [toBoolean typeofIsString negb orb String.eqb]. rewrite E.
    destruct (spellCheck options), (grammarCheck options); reflexivity.
  - rewrite <- E. unfold correct. rewrite trim_idempotent.
    destruct s as [|c' s']; [discriminate E|]. rewrite E.
    reflexivity.
Qed.

Lemma correct_string_fields (s : string) (options : CorrectionOptions)
    (r : CorrectionResult) :
  correct (JsString s) options = Ok r ->
  exists ssc sc,
    original r = JsString (trim s)
    /\ spellCorrected r = JsString ssc
    /\ corrected r = JsString sc.
Proof.
  unfold correct. destruct s as [|c s].
  - intros H. injection H as <-. exists "", "". auto.
  - cbn [toBoolean typeofIsString negb orb String.eqb].
    destruct (if spellCheck options then _ else _); simpl; [|discriminate].
    intros H. injection H as <-. simpl. eauto.
Qed.

Lemma generateDiff_indicator (o c : string) :
  generateDiff o c = noChangesHtml <-> c = o.
Proof.
  destruct (o =? c)%string eqn:E.
  - apply String.eqb_eq in E. subst. unfold generateDiff.
    rewrite String.eqb_refl. split; reflexivity.
  - apply String.eqb_neq in E. split; [|congruence].
    rewrite (generateDiff_segments _ _ E). intros H. exfalso.
    exact (renderSegments_not_indicator _ H).
Qed.

Lemma generateDiffOf_strings (o c : string) :
  generateDiffOf (JsString o) (JsString c) = Ok (generateDiff o c).
Proof.
  unfold generateDiffOf. simpl strictEquals.
  destruct (o =? c)%string eqn:E; [|reflexivity].
  unfold generateDiff. rewrite E. reflexivity.
Qed.

(** X13. When [checkText] shows the correction panel, the engine was given
    a text of at most 2000 code units that is not blank; the original shown
    is that text trimmed, and it is not empty; the text stored for "Apply"
    is the corrected text; and the diff shown is the no-changes indicator
    exactly when the corrected text is the original. *)
Theorem checkText_panel (input : Element.t) (settings : Settings.t)
    (o c ct : JsValue) (d : string) :
  checkText input settings = Ok (CorrectionPanel o c d ct) ->
  exists so sc,
    o = JsString so /\ c = JsString sc /\ ct = c
    /\ so = trim (getInputText input)
    /\ so <> ""
    /\ String.length so <= MAX_CHARS
    /\ d = generateDiff so sc
    /\ (d = noChangesHtml <-> sc = so).
Proof.
  unfold checkText.
  destruct (negb (toBoolean (JsString (getInputText input)))
            || (String.length (trim (getInputText input)) =? 0)) eqn:G;
    [discriminate|].
  destruct (MAX_CHARS <? String.length (getInputText input)) eqn:L;
    [discriminate|].
  destruct (correct _ _) as [r|] eqn:E; simpl; [|discriminate].
  destruct (correct_string_fields _ _ _ E) as [ssc [sc [Ho [_ Hc]]]].
  unfold showCorrectionPanel. rewrite Ho, Hc, generateDiffOf_strings. simpl.
  intros H. injection H as <- <- <- <-.
  exists (trim (getInputText input)), sc.
  apply orb_false_iff in G as [_ G]. apply Nat.eqb_neq in G.
  apply Nat.ltb_ge in L. pose proof (length_trim (getInputText input)).
  repeat split; try reflexivity.
  - intros E0. rewrite E0 in G. apply G. reflexivity.
  - lia.
  - apply generateDiff_indicator.
  - apply generateDiff_indicator.
Qed.

Lemma checkText_panel_witness :
  checkText (Element.mk "TEXTAREA" "" "" " teh cat " "" "")
    (Settings.mk true true true)
  = Ok (CorrectionPanel (JsString "teh cat") (JsString "the cat")
          (generateDiff "teh cat" "the cat") (JsString "the cat"))
  /\ exists so sc,
       JsString "teh cat" = JsString so /\ JsString "the cat" = JsString sc
       /\ so <> "".
Proof.
  assert (H : checkText (Element.mk "TEXTAREA" "" "" " teh cat " "" "")
                (Settings.mk true true true)
              = Ok (CorrectionPanel (JsString "teh cat") (JsString "the cat")
                      (generateDiff "teh cat" "the cat") (JsString "the cat")))
    by (vm_compute; reflexivity).
  split; [exact H|].
  destruct (checkText_panel _ _ _ _ _ _ H)
    as [so [sc [H1 [H2 [_ [_ [H5 _]]]]]]].
  exists so, sc. auto.
Defined.

(** X14. The inline indicator of the automatic check is never shown while
    the grammar check is off, whatever the spelling pass corrected, because
    [corrected] then equals [original]; and when it is shown it reports at
    least one error. *)
Theorem autoCheckText_indicator (input : Element.t) (settings : Settings.t)
    (n : nat) (label : string) :
  autoCheckText input settings = Ok (IndicatorShown n label) ->
  Settings.grammarCheck settings = true /\ 1 <= n.
Proof.
  unfold autoCheckText.
  destruct (correct _ _) as [r|] eqn:E; simpl; [|discriminate].
  destruct (correct_string_fields _ _ _ E) as [ssc [sc [Ho [_ Hc]]]].
  destruct (negb (strictEquals (original r) (corrected r))) eqn:S;
    [|discriminate].
  intros H. injection H as <- _.
  assert (Hne : corrected r <> original r).
  { intros E0. rewrite E0, Ho in S. simpl in S.
    rewrite String.eqb_refl in S. discriminate S. }
  split.
  - destruct (Settings.grammarCheck settings) eqn:G; [reflexivity|].
    exfalso. apply Hne.
    exact (correct_without_grammar _ (optionsOf settings) _ G E).
  - destruct (changes r) eqn:Ec; [|simpl; lia].
    exfalso. apply Hne.
    exact (proj2 (correct_unchanged _ _ _ E Ec)).
Qed.

Lemma autoCheckText_indicator_witness :
  autoCheckText (Element.mk "TEXTAREA" "" "" "I has it" "" "")
    (Settings.mk true true true)
  = Ok (IndicatorShown 1 "error found")
  /\ 1 <= 1.
Proof.
  assert (H : autoCheckText (Element.mk "TEXTAREA" "" "" "I has it" "" "")
                (Settings.mk true true true)
              = Ok (IndicatorShown 1 "error found"))
    by (vm_compute; reflexivity).
  split; [exact H|].
  exact (proj2 (autoCheckText_indicator _ _ _ _ H)).
Defined.

(** X15. The popup shows what the content script shows.  With the library
    loaded, whatever panel [checkText] shows for the text of an input, the
    popup's button shows the same original, corrected text and diff for
    that text; where [checkText] fails with an exception of the engine, the
    popup catches it and shows its error alert.  Without the library the
    popup shows an alert for every text, and the error alert for every
    text that passes its validation. *)
Theorem popup_agrees_with_checkText (input : Element.t)
    (settings : Settings.t) :
  (forall o c d ct,
      checkText input settings = Ok (CorrectionPanel o c d ct) ->
      correctBtnClick true (getInputText input) settings
        = PopupResults o c (Some d))
  /\ (forall e grammarChecker,
        checkText input settings = Throw e ->
        correctBtnClick grammarChecker (getInputText input) settings
          = PopupAlert "An error occurred. Please try again.")
  /\ (exists message,
        correctBtnClick false (getInputText input) settings
          = PopupAlert message)
  /\ (trim (getInputText input) <> "" ->
      String.length (trim (getInputText input)) <= MAX_CHARS ->
      correctBtnClick false (getInputText input) settings
        = PopupAlert "An error occurred. Please try again.").
Proof.
  assert (Hoff : trim (getInputText input) <> "" ->
                 String.length (trim (getInputText input)) <= MAX_CHARS ->
                 correctBtnClick false (getInputText input) settings
                   = PopupAlert "An error occurred. Please try again.").
  { intros Hne Hlen. unfold correctBtnClick.
    destruct (trim (getInputText input)) as [|c0 t] eqn:Et;
      [contradiction Hne; reflexivity|].
    cbn [toBoolean negb String.eqb].
    replace (MAX_CHARS <? String.length (String c0 t)) with false
      by (symmetry; apply Nat.ltb_ge; exact Hlen).
    reflexivity. }
  split; [|split; [|split; [|exact Hoff]]].
  - intros o c d ct. unfold checkText, correctBtnClick.
    set (text := getInputText input).
    destruct (negb (toBoolean (JsString text))
              || (String.length (trim text) =? 0)) eqn:G; [discriminate|].
    destruct (MAX_CHARS <? String.length text) eqn:L; [discriminate|].
    apply orb_false_iff in G as [_ G]. apply Nat.eqb_neq in G.
    apply Nat.ltb_ge in L. pose proof (length_trim text) as Hl.
    assert (Ht : toBoolean (JsString (trim text)) = true)
      by (destruct (trim text); [contradiction G; reflexivity | reflexivity]).
    rewrite Ht. simpl negb. cbv iota.
    replace (MAX_CHARS <? String.length (trim text)) with false
      by (symmetry; apply Nat.ltb_ge; lia).
    rewrite correct_trim.
    destruct (correct (JsString text) (optionsOf settings)) as [r|e0] eqn:E;
      simpl; [|discriminate].
    destruct (correct_string_fields _ _ _ E) as [ssc [sc [Ho [_ Hc]]]].
    unfold showCorrectionPanel, displayResults.
    rewrite Ho, Hc, generateDiffOf_strings. simpl.
    intros H. injection H as <- <- <- <-. reflexivity.
  - intros e grammarChecker. unfold checkText.
    set (text := getInputText input).
    destruct (negb (toBoolean (JsString text))
              || (String.length (trim text) =? 0)) eqn:G; [discriminate|].
    destruct (MAX_CHARS <? String.length text) eqn:L; [discriminate|].
    apply orb_false_iff in G as [_ G]. apply Nat.eqb_neq in G.
    apply Nat.ltb_ge in L. pose proof (length_trim text) as Hl.
    destruct grammarChecker;
      [|intros _; apply Hoff;
        [intros E0; apply G; subst text; rewrite E0; reflexivity
        | subst text; lia]].
    unfold correctBtnClick. fold text.
    assert (Ht : toBoolean (JsString (trim text)) = true)
      by (destruct (trim text); [contradiction G; reflexivity | reflexivity]).
    rewrite Ht. simpl negb. cbv iota.
    replace (MAX_CHARS <? String.length (trim text)) with false
      by (symmetry; apply Nat.ltb_ge; lia).
    rewrite correct_trim.
    destruct (correct (JsString text) (optionsOf settings)) as [r|e0] eqn:E;
      simpl; [|reflexivity].
    destruct (correct_string_fields _ _ _ E) as [ssc [sc [Ho [_ Hc]]]].
    unfold showCorrectionPanel.
    rewrite Ho, Hc, generateDiffOf_strings. simpl. discriminate.
  - unfold correctBtnClick.
    destruct (negb (toBoolean (JsString (trim (getInputText input)))));
      [eauto|].
    destruct (MAX_CHARS <? String.length (trim (getInputText input)));
      [eexists; reflexivity|].
    cbn [negb]. eexists. reflexivity.
Qed.

Lemma popup_agrees_with_checkText_witness :
  checkText (Element.mk "TEXTAREA" "" "" "the constructor" "" "")
    (Settings.mk true true true)
  = Throw (TypeError "correction.toLowerCase is not a function")
  /\ correctBtnClick true "the constructor" (Settings.mk true true true)
     = PopupAlert "An error occurred. Please try again."
  /\ trim "teh cat" <> ""
  /\ correctBtnClick false "teh cat" (Settings.mk true true true)
     = PopupAlert "An error occurred. Please try again.".
Proof.
  assert (H : checkText (Element.mk "TEXTAREA" "" "" "the constructor" "" "")
                (Settings.mk true true true)
              = Throw (TypeError "correction.toLowerCase is not a function"))
    by (vm_compute; reflexivity).
  assert (Hne : trim "teh cat" <> "") by (vm_compute; discriminate).
  split; [exact H|].
  split; [exact (proj1 (proj2 (popup_agrees_with_checkText _ _)) _ true H)|].
  split; [exact Hne|].
  refine (proj2 (proj2 (proj2 (popup_agrees_with_checkText
            (Element.mk "TEXTAREA" "" "" "teh cat" "" "")
            (Settings.mk true true true)))) Hne _).
  apply Nat.leb_le. vm_compute. reflexivity.
Defined.

(** X16. The automatic check and the manual check refuse the same texts:
    on a text input with the automatic check on, [handleInput] does nothing
    exactly when [checkText] would answer with an alert (no text, blank
    text, or more than 2000 code units). *)
Theorem handleInput_guard (element : Element.t) (settings : Settings.t) :
  isTextInput (Some element) = true ->
  Settings.autoCheck settings = true ->
  (handleInput element settings = Ok None
   <-> exists message, checkText element settings = Ok (Alert message)).
Proof.
  intros Hi Ha. unfold handleInput, checkText. rewrite Hi, Ha.
  cbv zeta. cbn [negb orb].
  generalize (correct (JsString (getInputText element)) (optionsOf settings)).
  generalize (autoCheckText element settings).
  generalize (toBoolean (JsString (getInputText element))).
  generalize (String.length (trim (getInputText element))).
  generalize (String.length (getInputText element)).
  intros m n tb ind res.
  destruct tb; cbn [negb orb andb]; [|split; eauto].
  destruct n as [|n]; [simpl; split; eauto|].
  change (0 <? S n) with true. change (S n =? 0) with false.
  cbn [andb].
  destruct (Nat.leb_spec m MAX_CHARS) as [L|L].
  - replace (MAX_CHARS <? m) with false
      by (symmetry; apply Nat.ltb_ge; exact L).
    split.
    + destruct ind; simpl; discriminate.
    + intros [message H]. destruct res as [r|]; simpl in H; [|discriminate].
      unfold showCorrectionPanel in H.
      destruct (generateDiffOf _ _); simpl in H; discriminate.
  - replace (MAX_CHARS <? m) with true
      by (symmetry; apply Nat.ltb_lt; exact L).
    split; eauto.
Qed.

Lemma handleInput_guard_witness :
  isTextInput (Some (Element.mk "INPUT" "text" "" "   " "" "")) = true
  /\ handleInput (Element.mk "INPUT" "text" "" "   " "" "")
       (Settings.mk true true true) = Ok None
  /\ exists message,
       checkText (Element.mk "INPUT" "text" "" "   " "" "")
         (Settings.mk true true true) = Ok (Alert message).
Proof.
  assert (Hi : isTextInput (Some (Element.mk "INPUT" "text" "" "   " "" ""))
               = true) by reflexivity.
  assert (Hn : handleInput (Element.mk "INPUT" "text" "" "   " "" "")
                 (Settings.mk true true true) = Ok None) by reflexivity.
  split; [exact Hi|]. split; [exact Hn|].
  exact (proj1 (handleInput_guard _ (Settings.mk true true true) Hi eq_refl) Hn).
Defined.

(** X18. The buttons that use a shown result always act.  After [checkText]
    has shown its panel, [applyCorrectionPanel] finds a non-empty stored
    text and writes it to the input; after the popup has shown its results,
    its copy button finds a non-empty text to copy. *)
Theorem shown_result_is_usable (input : Element.t) (settings : Settings.t) :
  (forall o c d ct,
      checkText input settings = Ok (CorrectionPanel o c d ct) ->
      exists text,
        ct = JsString text
        /\ applyCorrectionPanel text (Some input) = Some (input, text))
  /\ (forall grammarChecker o c d,
        correctBtnClick grammarChecker (getInputText input) settings
          = PopupResults o c d ->
        copyBtnClick c = Some c).
Proof.
  split.
  - intros o c d ct. unfold checkText.
    destruct (negb (toBoolean (JsString (getInputText input)))
              || (String.length (trim (getInputText input)) =? 0)) eqn:G;
      [discriminate|].
    destruct (MAX_CHARS <? String.length (getInputText input));
      [discriminate|].
    apply orb_false_iff in G as [_ G]. apply Nat.eqb_neq in G.
    assert (Ht : trim (getInputText input) <> "")
      by (intros E0; rewrite E0 in G; apply G; reflexivity).
    destruct (correct _ _) as [r|] eqn:E; simpl; [|discriminate].
    destruct (correct_nonempty _ _ _ Ht E)
      as [so [ssp [sc [Ho [_ [Hc [_ [_ Hne]]]]]]]].
    unfold showCorrectionPanel. rewrite Ho, Hc, generateDiffOf_strings.
    simpl. intros H. injection H as <- <- <- <-.
    exists sc. split; [reflexivity|].
    destruct sc; [contradiction Hne; reflexivity | reflexivity].
  - intros grammarChecker o c d. unfold correctBtnClick.
    destruct (trim (getInputText input)) as [|c0 t] eqn:Et;
      [discriminate|].
    cbn [toBoolean negb String.eqb].
    destruct (MAX_CHARS <? String.length (String c0 t)); [discriminate|].
    destruct grammarChecker; [|discriminate]. cbn [negb].
    rewrite <- Et, correct_trim.
    assert (Ht : trim (getInputText input) <> "")
      by (rewrite Et; discriminate).
    destruct (correct _ _) as [r|] eqn:E; simpl; [|discriminate].
    destruct (correct_nonempty _ _ _ Ht E)
      as [so [ssp [sc [Ho [_ [Hc [_ [_ Hne]]]]]]]].
    unfold displayResults. rewrite Ho, Hc, generateDiffOf_strings.
    simpl. intros H. injection H as <- <- <-.
    destruct sc; [contradiction Hne; reflexivity | reflexivity].
Qed.

Lemma shown_result_is_usable_witness :
  checkText (Element.mk "INPUT" "text" "" "she have it" "" "")
    (Settings.mk true true true)
  = Ok (CorrectionPanel (JsString "she have it") (JsString "she has it")
          (generateDiff "she have it" "she has it") (JsString "she has it"))
  /\ exists text,
       JsString "she has it" = JsString text
       /\ applyCorrectionPanel text
            (Some (Element.mk "INPUT" "text" "" "she have it" "" ""))
          = Some (Element.mk "INPUT" "text" "" "she have it" "" "", text).
Proof.
  assert (H : checkText (Element.mk "INPUT" "text" "" "she have it" "" "")
                (Settings.mk true true true)
              = Ok (CorrectionPanel (JsString "she have it")
                      (JsString "she has it")
                      (generateDiff "she have it" "she has it")
                      (JsString "she has it")))
    by (vm_compute; reflexivity).
  split; [exact H|].
  exact (proj1 (shown_result_is_usable _ _) _ _ _ _ H).
Defined.
